(** * LouiEriksson::Hashmap (Hashmap.hpp, version 2.2.1)

    A shallow embedding of the separate-chaining hash map of
    [Hashmap.hpp] and the properties of its specification.

    - [m_Buckets] is a [list] of buckets, a bucket a [list] of
      [KeyValuePair]; [m_Size] is a 64-bit [size_t], kept as a [Z] with
      its wrap-around written out ([SizeT.wrap]).
    - The static recursive mutex serialises the operations; every
      operation below is one such serialised step.
    - Exceptions are explicit. Two steps can throw: the construction of
      a [KeyValuePair] inside [emplace_back] (the copy of a key or
      value, or the allocation behind it), given by the oracle
      [copy_throws]; and [m_Buckets.resize], when it is asked for more
      buckets than can be allocated ([bucket_limit], at most
      [max_size()]): [std::length_error] or [std::bad_alloc]. In
      [Resize] the latter is caught; a constructor that is asked for
      more lets it out, and there is no table. [std::hash] is total;
      assignments of values and copies of the bucket vector (the
      snapshot of [Resize] and its rollback) do not throw.
    - Integer division by zero ([hash % m_Buckets.size()] on an empty
      bucket vector) is undefined behaviour, not an exception: the
      operations that can reach it, [ContainsKey] and [Remove], return a
      [behaviour]. [Add] and [Assign] cannot: the resize check leaves
      them at least one bucket ([grow_if_full_positive]).
    - [Resize] and [Assign] call each other; the recursion is on a fuel
      argument, and [Resize] starts with more fuel than it has entries
      ([Resize_terminates]).
    - A [const_iterator] is a position in [m_Buckets] and one in the
      bucket there. Incrementing an inner iterator that cannot be
      dereferenced, and dereferencing the end of [m_Buckets], are
      undefined behaviour, as for every iterator of a [std::vector]. *)

From stdpp Require Import list numbers strings.

Local Open Scope Z_scope.

(** ** size_t arithmetic *)

Module SizeT.

Definition modulus : Z := 2 ^ 64.

(** Unsigned 64-bit wrap-around. *)
Definition wrap (z : Z) : Z := z mod modulus.

(** [m_Buckets.max_size()]: the largest number of buckets that
    [m_Buckets.resize] accepts, [PTRDIFF_MAX / sizeof(std::vector)] on a
    64-bit target. *)
Definition max_size : Z := (2 ^ 63 - 1) / 24.

End SizeT.

(** ** Exceptions and undefined behaviour *)

(** What a [catch] clause can tell apart: [catch (const std::exception&)]
    catches only the first kind, [catch (...)] both. *)
Inductive exception : Type :=
  | std_exception
  | other_exception.

(** A [std::exception_ptr]: [None] is [nullptr]. *)
Definition exception_ptr : Type := option exception.

(** The result of an operation that may divide by zero. *)
Inductive behaviour (A : Type) : Type :=
  | Defined (a : A)
  | Undefined.

Arguments Defined {A} a.
Arguments Undefined {A}.

(** ** The key and value types *)

(** [std::hash<Tk>]: the hash code of a key, a [size_t]. *)
Class StdHash (Tk : Type) := GetHashcode : Tk → Z.

(** How keys and values copy and move.
    - [copy_throws k v]: what constructing [KeyValuePair(k, v)] in
      [emplace_back] throws, if anything.
    - [moved_from v]: the state [std::move] leaves a value in after a
      move assignment took it (the value itself for a trivially copyable
      type, the empty string for a [std::string]). *)
Class Element (Tk Tv : Type) := {
  copy_throws : Tk → Tv → exception_ptr;
  moved_from : Tv → Tv
}.

(** What [m_Buckets.resize] can allocate: a request for at most
    [bucket_limit] buckets succeeds, a larger one throws,
    [std::length_error] when it is above [max_size()] and
    [std::bad_alloc] otherwise, both derived from [std::exception].
    There is always room for one bucket. *)
Class Allocator := {
  bucket_limit : Z;
  bucket_limit_range :
    (1 <=? bucket_limit) && (bucket_limit <=? SizeT.max_size) = true
}.

(** ** Data model *)

Record KeyValuePair (Tk Tv : Type) : Type := mkKeyValuePair {
  first : Tk;
  second : Tv
}.

Arguments mkKeyValuePair {Tk Tv} first second.
Arguments first {Tk Tv} k.
Arguments second {Tk Tv} k.

Record Hashmap (Tk Tv : Type) : Type := mkHashmap {
  m_Buckets : list (list (KeyValuePair Tk Tv));
  m_Size : Z
}.

Arguments mkHashmap {Tk Tv} m_Buckets m_Size.
Arguments m_Buckets {Tk Tv} h.
Arguments m_Size {Tk Tv} h.

Section Operations.

Context {Tk Tv : Type} `{!StdHash Tk} `{!Element Tk Tv} {Allocator0 : Allocator}.

Local Abbreviation KVP := (KeyValuePair Tk Tv).
Local Abbreviation Map := (Hashmap Tk Tv).

(** [m_Buckets.size()]. *)
Definition capacity (m : Map) : Z := Z.of_nat (length (m_Buckets m)).

(** [size()]. *)
Definition size (m : Map) : Z := m_Size m.

(** [empty()]. *)
Definition empty (m : Map) : bool := size m =? 0.

(** All entries, bucket by bucket ([GetAll]). *)
Definition GetAll (m : Map) : list KVP := concat (m_Buckets m).

Definition Keys (m : Map) : list Tk := first <$> GetAll m.

Definition Values (m : Map) : list Tv := second <$> GetAll m.

(** [GetHashcode(kvp.first) == hash]. *)
Definition hash_matches (hash : Z) (kvp : KVP) : bool :=
  GetHashcode (first kvp) =? hash.

(** [hash % m_Buckets.size()], as a position in [m_Buckets]. *)
Definition bucket_index (hash : Z) (m : Map) : nat :=
  Z.to_nat (hash mod capacity m).

(** [m_Buckets[i]]. *)
Definition bucket_at (m : Map) (i : nat) : list KVP := m_Buckets m !!! i.

(** The scan of [Assign]: the first entry whose hash matches gets the new
    value; [None] when no entry matches ([exists] stays false). *)
Fixpoint assign_in_bucket (hash : Z) (v : Tv) (bucket : list KVP)
  : option (list KVP) :=
  match bucket with
  | [] => None
  | kvp :: rest =>
      if hash_matches hash kvp
      then Some (mkKeyValuePair (first kvp) v :: rest)
      else cons kvp <$> assign_in_bucket hash v rest
  end.

(** The scan of [Remove]: the first entry whose hash matches is erased;
    [None] when no entry matches. *)
Fixpoint erase_in_bucket (hash : Z) (bucket : list KVP)
  : option (list KVP) :=
  match bucket with
  | [] => None
  | kvp :: rest =>
      if hash_matches hash kvp
      then Some rest
      else cons kvp <$> erase_in_bucket hash rest
  end.

(** *** Construction *)

(** [Hashmap(const size_t& _capacity = 1U)], for a capacity of at most
    [bucket_limit]: above it [m_Buckets.resize] throws out of the
    constructor and no table is constructed. *)
Definition Hashmap_capacity (_capacity : Z) : Map :=
  mkHashmap (replicate (Z.to_nat _capacity) []) 0.

(** *** Add, Assign and Resize *)

(** The table after [m_Size++] and a [bucket.emplace_back(_key, _value)]
    that did not throw. *)
Definition appended (_key : Tk) (_value : Tv) (m : Map) : Map :=
  let i := bucket_index (GetHashcode _key) m in
  mkHashmap (<[i := bucket_at m i ++ [mkKeyValuePair _key _value]]> (m_Buckets m))
            (SizeT.wrap (m_Size m + 1)).

(** The table after the scan of [Assign] replaced a value, [bucket']
    being the addressed bucket after the scan. *)
Definition overwritten (_key : Tk) (bucket' : list KVP) (m : Map) : Map :=
  mkHashmap (<[bucket_index (GetHashcode _key) m := bucket']> (m_Buckets m))
            (m_Size m).

(** The [if (m_Size >= m_Buckets.size()) Resize(m_Buckets.size() * 2U)]
    that opens [Add] and [Assign]. The second component is an exception
    that left [Resize]. *)
Definition grow_if_full
    (resize : Z → Map → option (Map * exception_ptr)) (m : Map)
  : option (Map * exception_ptr) :=
  if capacity m <=? m_Size m
  then resize (SizeT.wrap (capacity m * 2)) m
  else Some (m, None).

(** The body of the four [Assign] overloads. [by_move] is true for the
    two that take rvalue references, whose overwrite is a move
    assignment. Returns the table, the caller's value as the call leaves
    it, and the exception the [catch (...)] clause caught. *)
Definition Assign_with
    (resize : Z → Map → option (Map * exception_ptr))
    (by_move : bool) (_key : Tk) (_value : Tv) (m : Map)
  : option (Map * Tv * exception_ptr) :=
  '(m1, thrown) ← grow_if_full resize m;
  match thrown with
  | Some e => Some (m1, _value, Some e)
  | None =>
      let hash := GetHashcode _key in
      let bucket := bucket_at m1 (bucket_index hash m1) in
      match assign_in_bucket hash _value bucket with
      | Some bucket' =>
          Some (overwritten _key bucket' m1,
                if by_move then moved_from _value else _value,
                None)
      | None =>
          match copy_throws _key _value with
          | Some e =>
              Some (mkHashmap (m_Buckets m1) (SizeT.wrap (m_Size m1 + 1)),
                    _value, Some e)
          | None => Some (appended _key _value m1, _value, None)
          end
      end
  end.

(** The inner loop of [Resize] over one bucket of the snapshot. Returns
    the bucket as the loop leaves it, the table, and the exception that
    [std::rethrow_exception] raised. *)
Fixpoint reinsert_bucket
    (assign : Tk → Tv → Map → option (Map * Tv * exception_ptr))
    (bucket : list KVP) (m : Map)
  : option (list KVP * Map * exception_ptr) :=
  match bucket with
  | [] => Some ([], m, None)
  | kvp :: rest =>
      '(m1, v', e_ptr) ← assign (first kvp) (second kvp) m;
      let kvp' := mkKeyValuePair (first kvp) v' in
      match e_ptr with
      | Some e => Some (kvp' :: rest, m1, Some e)
      | None =>
          '(rest', m2, thrown) ← reinsert_bucket assign rest m1;
          Some (kvp' :: rest', m2, thrown)
      end
  end.

(** The outer loop of [Resize] over the snapshot. *)
Fixpoint reinsert
    (assign : Tk → Tv → Map → option (Map * Tv * exception_ptr))
    (shallow_cpy : list (list KVP)) (m : Map)
  : option (list (list KVP) * Map * exception_ptr) :=
  match shallow_cpy with
  | [] => Some ([], m, None)
  | bucket :: rest =>
      '(bucket', m1, thrown) ← reinsert_bucket assign bucket m;
      match thrown with
      | Some e => Some (bucket' :: rest, m1, Some e)
      | None =>
          '(rest', m2, thrown') ← reinsert assign rest m1;
          Some (bucket' :: rest', m2, thrown')
      end
  end.

(** [Resize(_newSize)]. [None] only when the fuel runs out. The second
    component is an exception that [catch (const std::exception&)] did
    not catch. [m_Buckets.resize] is inside the [try] block and after
    [m_Size = 0U]: when the request is above [bucket_limit] it throws
    [std::length_error] or [std::bad_alloc], which the [catch] clause
    catches, and the buckets are put back with the count at zero. *)
Fixpoint Resize_fuel (fuel : nat) (_newSize : Z) (m : Map)
  : option (Map * exception_ptr) :=
  match fuel with
  | O => None
  | S fuel' =>
      let shallow_cpy := m_Buckets m in
      if bucket_limit <? (if 0 <? _newSize then _newSize else 1)
      then Some (mkHashmap shallow_cpy 0, None)
      else
        let cleared :=
          mkHashmap
            (replicate (Z.to_nat (if 0 <? _newSize then _newSize else 1)) [])
            0 in
        '(cpy, m1, thrown) ←
          reinsert (Assign_with (Resize_fuel fuel') true) shallow_cpy cleared;
        match thrown with
        | None => Some (m1, None)
        | Some std_exception => Some (mkHashmap cpy (m_Size m1), None)
        | Some other_exception => Some (m1, Some other_exception)
        end
  end.

(** A nested [Resize] works on a table with fewer entries than the
    snapshot of the call it is nested in: one unit of fuel per entry, and
    one to start, is enough ([Resize_terminates]). *)
Definition Resize (_newSize : Z) (m : Map) : option (Map * exception_ptr) :=
  Resize_fuel (S (length (GetAll m))) _newSize m.

(** [Assign(const Tk&, const Tv&, std::exception_ptr&)]. *)
Definition Assign_e (_key : Tk) (_value : Tv) (m : Map)
  : option (Map * exception_ptr) :=
  '(m', _, e_ptr) ← Assign_with Resize false _key _value m;
  Some (m', e_ptr).

(** [Assign(const Tk&, const Tv&)]: the exception is swallowed. *)
Definition Assign (_key : Tk) (_value : Tv) (m : Map) : option Map :=
  fst <$> Assign_e _key _value m.

(** [Assign(Tk&&, Tv&&, std::exception_ptr&)], the overload [Resize]
    calls: also returns the moved-from state of the value. *)
Definition Assign_move_e (_key : Tk) (_value : Tv) (m : Map)
  : option (Map * Tv * exception_ptr) :=
  Assign_with Resize true _key _value m.

(** The body of the four [Add] overloads (none of them moves). [result]
    starts as true and only the scan sets it to false. *)
Definition Add_e (_key : Tk) (_value : Tv) (m : Map)
  : option (bool * Map * exception_ptr) :=
  '(m1, thrown) ← grow_if_full Resize m;
  match thrown with
  | Some e => Some (true, m1, Some e)
  | None =>
      let hash := GetHashcode _key in
      let bucket := bucket_at m1 (bucket_index hash m1) in
      if existsb (hash_matches hash) bucket
      then Some (false, m1, None)
      else
        match copy_throws _key _value with
        | Some e =>
            Some (true, mkHashmap (m_Buckets m1) (SizeT.wrap (m_Size m1 + 1)),
                  Some e)
        | None => Some (true, appended _key _value m1, None)
        end
  end.

(** [Add(const Tk&, const Tv&)]: the exception is swallowed. *)
Definition Add (_key : Tk) (_value : Tv) (m : Map) : option (bool * Map) :=
  '(result, m', _) ← Add_e _key _value m;
  Some (result, m').

(** [Hashmap(const std::initializer_list<KeyValuePair>&, const size_t&)],
    for an [auto_capacity] of at most [bucket_limit], as for the other
    constructor. *)
Definition Hashmap_items (_items : list KVP) (_capacity : Z) : option Map :=
  let auto_capacity :=
    if _capacity <? 1 then Z.max (Z.of_nat (length _items)) 1
    else _capacity in
  foldl (λ acc item, m ← acc; Assign (first item) (second item) m)
        (Some (mkHashmap (replicate (Z.to_nat auto_capacity) []) 0))
        _items.

(** *** Lookup *)

(** [ContainsKey]: no emptiness check before the modulo. *)
Definition ContainsKey (_key : Tk) (m : Map) : behaviour bool :=
  if capacity m =? 0 then Undefined
  else
    let hash := GetHashcode _key in
    Defined (existsb (hash_matches hash) (bucket_at m (bucket_index hash m))).

(** [Get]: [std::nullopt] on an empty bucket vector. *)
Definition Get (_key : Tk) (m : Map) : option Tv :=
  if capacity m =? 0 then None
  else
    let hash := GetHashcode _key in
    second <$> find (hash_matches hash) (bucket_at m (bucket_index hash m)).

(** [Return] and [operator[]]: throws [std::runtime_error] when there is
    no entry. *)
Definition Return (_key : Tk) (m : Map) : Tv + exception :=
  match Get _key m with
  | Some v => inl v
  | None => inr std_exception
  end.

(** [operator[]]. *)
Definition subscript (_key : Tk) (m : Map) : Tv + exception := Return _key m.

(** *** Remove, Trim, Reserve, Clear *)

(** [Remove]: no emptiness check before the modulo. When nothing matched,
    [m_Size -= static_cast<size_t>(false)] subtracts zero. *)
Definition Remove (_key : Tk) (m : Map) : behaviour (bool * Map) :=
  if capacity m =? 0 then Undefined
  else
    let hash := GetHashcode _key in
    let i := bucket_index hash m in
    match erase_in_bucket hash (bucket_at m i) with
    | Some bucket' =>
        Defined (true,
                 mkHashmap (<[i := bucket']> (m_Buckets m))
                           (SizeT.wrap (m_Size m - 1)))
    | None => Defined (false, m)
    end.

(** The loop of [Trim] from index [i] on: [trimStart] becomes the index
    after the last bucket that is not empty. *)
Fixpoint trim_scan (buckets : list (list KVP)) (i trimStart : nat) : nat :=
  match buckets with
  | [] => trimStart
  | bucket :: rest =>
      trim_scan rest (S i)
        (if (length bucket =? 0)%nat then trimStart else S i)
  end.

(** [Trim]: [m_Buckets.erase(m_Buckets.begin() + trimStart)] erases the
    one bucket at [trimStart]. *)
Definition Trim (m : Map) : Map :=
  let trimStart := trim_scan (drop 1 (m_Buckets m)) 1 1 in
  if (trimStart <? length (m_Buckets m))%nat
  then mkHashmap (delete trimStart (m_Buckets m)) (m_Size m)
  else m.

(** [Reserve]: no [try] block, an exception that leaves [Resize] leaves
    [Reserve]. *)
Definition Reserve (_newSize : Z) (m : Map) : option (Map * exception_ptr) :=
  if m_Size m <? _newSize then Resize _newSize m else Some (m, None).

(** [Clear]. *)
Definition Clear (m : Map) : Map := mkHashmap [] 0.

(** *** const_iterator, begin and end *)

(** A [std::vector<KeyValuePair>::const_iterator]: value-initialised
    ([inner_itr()]), or a position in the bucket that [m_Outer] points
    to, its end included. *)
Inductive inner_itr : Type :=
  | singular
  | position (offset : nat).

(** An outer iterator is a position in [m_Buckets], its end included. *)
Record const_iterator : Type := mk_const_iterator {
  m_Outer : nat;
  m_Outer_End : nat;
  m_Inner : inner_itr
}.

(** The [while (++m_Outer != m_Outer_End)] loop of [operator++]: [outer]
    is [m_Outer] after its increment, [gap] the distance to
    [m_Outer_End]. It stops at the first bucket that is not empty, with
    [m_Inner] at its beginning; at the end [m_Inner] is [inner_itr()]. *)
Fixpoint next_bucket (buckets : list (list KVP)) (gap outer : nat)
  : behaviour (nat * inner_itr) :=
  match gap with
  | O => Defined (outer, singular)
  | S gap' =>
      match buckets !! outer with
      | None => Undefined
      | Some [] => next_bucket buckets gap' (S outer)
      | Some (_ :: _) => Defined (outer, position 0)
      end
  end.

(** [operator++]. [++m_Inner] is undefined on an iterator that cannot be
    dereferenced (value-initialised, or the end of its bucket), and so is
    [m_Outer->end()] at the end of [m_Buckets]. *)
Definition increment (buckets : list (list KVP)) (it : const_iterator)
  : behaviour const_iterator :=
  match m_Inner it, buckets !! m_Outer it with
  | position offset, Some bucket =>
      if (offset <? length bucket)%nat then
        if (S offset =? length bucket)%nat then
          if (S (m_Outer it) <=? m_Outer_End it)%nat then
            match next_bucket buckets (m_Outer_End it - S (m_Outer it))
                              (S (m_Outer it)) with
            | Defined (outer, inner) =>
                Defined (mk_const_iterator outer (m_Outer_End it) inner)
            | Undefined => Undefined
            end
          else Undefined
        else
          Defined (mk_const_iterator (m_Outer it) (m_Outer_End it)
                                     (position (S offset)))
      else Undefined
  | _, _ => Undefined
  end.

(** The constructor of [const_iterator]: an iterator that is not at the
    end and whose [m_Inner] is the end of its bucket is incremented. *)
Definition make_const_iterator (buckets : list (list KVP))
    (_outer _outer_end : nat) (_inner : inner_itr)
  : behaviour const_iterator :=
  let it := mk_const_iterator _outer _outer_end _inner in
  if (_outer =? _outer_end)%nat then Defined it
  else
    match _inner, buckets !! _outer with
    | position offset, Some bucket =>
        if (offset =? length bucket)%nat then increment buckets it
        else Defined it
    | _, _ => Undefined
    end.

(** [begin()]. *)
Definition begin (m : Map) : behaviour const_iterator :=
  make_const_iterator (m_Buckets m) 0 (length (m_Buckets m))
    (match m_Buckets m with [] => singular | _ :: _ => position 0 end).

(** [end()]. *)
Definition end_ (m : Map) : behaviour const_iterator :=
  make_const_iterator (m_Buckets m) (length (m_Buckets m))
    (length (m_Buckets m)) singular.

(** [operator*]. *)
Definition dereference (buckets : list (list KVP)) (it : const_iterator)
  : behaviour KVP :=
  match m_Inner it with
  | singular => Undefined
  | position offset =>
      match buckets !! m_Outer it ≫= (.!! offset) with
      | Some kvp => Defined kvp
      | None => Undefined
      end
  end.

(** [operator==]: the inner iterators are compared only away from the
    end. Comparing a value-initialised iterator with one of a bucket is
    undefined. *)
Definition iterator_eq (it other : const_iterator) : behaviour bool :=
  if (m_Outer it =? m_Outer other)%nat then
    if (m_Outer it =? m_Outer_End it)%nat then Defined true
    else
      match m_Inner it, m_Inner other with
      | singular, singular => Defined true
      | position a, position b => Defined (a =? b)%nat
      | _, _ => Undefined
      end
  else Defined false.

(** [operator!=]. *)
Definition iterator_neq (it other : const_iterator) : behaviour bool :=
  match iterator_eq it other with
  | Defined b => Defined (negb b)
  | Undefined => Undefined
  end.

(** The loop of a range-based [for] over the table, from [it] to [last]:
    the entries it visits. [None] only when the fuel runs out. *)
Fixpoint visit (buckets : list (list KVP)) (fuel : nat)
    (it last : const_iterator) : option (behaviour (list KVP)) :=
  match fuel with
  | O => None
  | S fuel' =>
      match iterator_neq it last with
      | Undefined => Some Undefined
      | Defined false => Some (Defined [])
      | Defined true =>
          match dereference buckets it, increment buckets it with
          | Defined kvp, Defined it' =>
              match visit buckets fuel' it' last with
              | Some (Defined visited) => Some (Defined (kvp :: visited))
              | stopped => stopped
              end
          | _, _ => Some Undefined
          end
      end
  end.

(** [for (const auto& kvp : hashmap)]: one step for each entry and one to
    find the end ([range_for_visits_GetAll]). *)
Definition range_for (m : Map) : option (behaviour (list KVP)) :=
  match begin m, end_ m with
  | Defined it, Defined last =>
      visit (m_Buckets m) (S (length (GetAll m))) it last
  | _, _ => Some Undefined
  end.


(** *** The invariants of the data model *)

(** The first entry of the table whose hash matches, in [GetAll] order. *)
Definition lookup_hash (hash : Z) (m : Map) : option KVP :=
  find (hash_matches hash) (GetAll m).

(** Every entry sits in the bucket its hash addresses. *)
Definition placed (m : Map) : Prop :=
  ∀ i bucket kvp,
    m_Buckets m !! i = Some bucket → kvp ∈ bucket →
    bucket_index (GetHashcode (first kvp)) m = i.

(** No two entries have the same hash. *)
Definition distinct (m : Map) : Prop :=
  NoDup ((λ kvp, GetHashcode (first kvp)) <$> GetAll m).

(** [m_Size] is the number of entries, as a [size_t]. *)
Definition counted (m : Map) : Prop :=
  m_Size m = SizeT.wrap (Z.of_nat (length (GetAll m))).

Record well_formed (m : Map) : Prop := mk_well_formed {
  wf_placed : placed m;
  wf_distinct : distinct m;
  wf_counted : counted m
}.

(** A table with at least one bucket, at most [j] entries and a count
    that is a [size_t]: what every call leaves, whatever is thrown. *)
Definition safe (j : nat) (m : Map) : Prop :=
  1 ≤ capacity m ∧ (length (GetAll m) ≤ j)%nat ∧ 0 ≤ m_Size m < SizeT.modulus.

(** No bucket holds two entries with the same hash: the part of the
    invariants that every operation keeps, [Trim] and a rolled-back
    [Resize] included. *)
Definition chains_distinct (m : Map) : Prop :=
  Forall (λ bucket, NoDup ((λ kvp, GetHashcode (first kvp)) <$> bucket))
         (m_Buckets m).

(** The executable check of [well_formed]. *)
Fixpoint placed_from (m : Map) (i : nat) (buckets : list (list KVP)) : bool :=
  match buckets with
  | [] => true
  | bucket :: rest =>
      forallb (λ kvp, bucket_index (GetHashcode (first kvp)) m =? i)%nat
              bucket
      && placed_from m (S i) rest
  end.

Definition well_formed_b (m : Map) : bool :=
  placed_from m 0 (m_Buckets m)
  && bool_decide (NoDup ((λ kvp, GetHashcode (first kvp)) <$> GetAll m))
  && (m_Size m =? SizeT.wrap (Z.of_nat (length (GetAll m)))).

(** What re-inserting one entry does to the view of a table by hash: the
    first key with that hash stays, the value is replaced. *)
Definition absorb (view : Z → option KVP) (kvp : KVP) : Z → option KVP :=
  λ hash,
    if GetHashcode (first kvp) =? hash
    then Some (match view hash with
               | Some old => mkKeyValuePair (first old) (second kvp)
               | None => kvp
               end)
    else view hash.

(** The tables that the interface builds: from a constructor (with a
    capacity of at least one, as its documentation asks) by any sequence
    of operations, [Trim] and [Clear] only when the flags allow them. *)
Inductive built (with_Trim with_Clear : bool) : Map → Prop :=
  | built_capacity (n : Z) :
      1 ≤ n → built with_Trim with_Clear (Hashmap_capacity n)
  | built_items (items : list KVP) (n : Z) (m : Map) :
      Hashmap_items items n = Some m → built with_Trim with_Clear m
  | built_Add (k : Tk) (v : Tv) (m m' : Map) (result : bool)
      (e : exception_ptr) :
      built with_Trim with_Clear m → Add_e k v m = Some (result, m', e) →
      built with_Trim with_Clear m'
  | built_Assign (k : Tk) (v : Tv) (m m' : Map) (e : exception_ptr) :
      built with_Trim with_Clear m → Assign_e k v m = Some (m', e) →
      built with_Trim with_Clear m'
  | built_Remove (k : Tk) (m m' : Map) (result : bool) :
      built with_Trim with_Clear m → Remove k m = Defined (result, m') →
      built with_Trim with_Clear m'
  | built_Reserve (n : Z) (m m' : Map) (e : exception_ptr) :
      built with_Trim with_Clear m → Reserve n m = Some (m', e) →
      built with_Trim with_Clear m'
  | built_Trim (m : Map) :
      with_Trim = true → built with_Trim with_Clear m →
      built with_Trim with_Clear (Trim m)
  | built_Clear (m : Map) :
      with_Clear = true → built with_Trim with_Clear m →
      built with_Trim with_Clear (Clear m).

End Operations.

(** ** optional_ref, the result of [Get] *)

Module optional_ref.

(** [has_value()] and [operator bool]. *)
Definition has_value {Tv : Type} (m_Optional : option Tv) : bool :=
  match m_Optional with Some _ => true | None => false end.

(** [value()] and [operator*]: [std::bad_optional_access] when there is
    no value. *)
Definition value {Tv : Type} (m_Optional : option Tv) : Tv + exception :=
  match m_Optional with Some v => inl v | None => inr std_exception end.

(** [value_or(_t)]. *)
Definition value_or {Tv : Type} (m_Optional : option Tv) (_t : Tv) : Tv :=
  match m_Optional with Some v => v | None => _t end.

End optional_ref.

(** ** Instances used in the examples: [Hashmap<int, std::string>] *)

(** [std::hash<int>] of libstdc++: the conversion to [size_t]. *)
#[export] Instance int_hash : StdHash Z := λ k, SizeT.wrap k.

(** Copies never throw; a moved-from string is empty. *)
#[export] Instance string_element : Element Z string :=
  {| copy_throws := λ _ _, None; moved_from := λ _, EmptyString |}.

(** The same, except that copying the value ["Two"] throws (an exception
    derived from [std::exception], such as [std::bad_alloc]). *)
Definition throwing_element : Element Z string :=
  {| copy_throws := λ _ v, if String.eqb v "Two" then Some std_exception else None;
     moved_from := λ _, EmptyString |}.

(** The same again, with an exception that is not derived from
    [std::exception]. *)
Definition throwing_other_element : Element Z string :=
  {| copy_throws := λ _ v, if String.eqb v "Two" then Some other_exception else None;
     moved_from := λ _, EmptyString |}.

(** As much memory as [max_size()] buckets take. *)
#[export] Instance ample_memory : Allocator :=
  {| bucket_limit := SizeT.max_size; bucket_limit_range := eq_refl |}.

(** Memory for four buckets only. *)
Definition scarce_memory : Allocator :=
  {| bucket_limit := 4; bucket_limit_range := eq_refl |}.

Definition entry (k : Z) (v : string) : KeyValuePair Z string :=
  mkKeyValuePair k v.

(** A key type whose specialisation of [std::hash] collides: points,
    hashed by their first coordinate. *)
Definition point_hash : StdHash (Z * Z) := λ p, SizeT.wrap (fst p).

Definition point_element : Element (Z * Z) string :=
  {| copy_throws := λ _ _, None; moved_from := λ _, EmptyString |}.

(** The table of [tests/basic.cpp] after its three insertions. *)
Definition one_two_three : Hashmap Z string :=
  mkHashmap [[]; [entry 1 "One"]; [entry 2 "Two"]; [entry 3 "Three"]] 3.

(** A full table: two entries in two buckets. *)
Definition full_table : Hashmap Z string :=
  mkHashmap [[entry 2 "Two"]; [entry 1 "One"]] 2.

(** * Properties *)

(** ** size_t arithmetic *)

Lemma wrap_range z : 0 ≤ SizeT.wrap z < SizeT.modulus.
Proof. apply Z.mod_pos_bound. reflexivity. Qed.

Lemma wrap_small z : 0 ≤ z < SizeT.modulus → SizeT.wrap z = z.
Proof. apply Z.mod_small. Qed.

Lemma wrap_le z : 0 ≤ z → SizeT.wrap z ≤ z.
Proof. intros Hz. apply Z.mod_le; [done|reflexivity]. Qed.

Lemma wrap_succ z : SizeT.wrap (SizeT.wrap z + 1) = SizeT.wrap (z + 1).
Proof.
  unfold SizeT.wrap. rewrite Zplus_mod_idemp_l. reflexivity.
Qed.

Lemma bucket_limit_max_size {Allocator0 : Allocator} : bucket_limit ≤ SizeT.max_size.
Proof.
  pose proof bucket_limit_range as [_ H2]%andb_true_iff. by apply Z.leb_le in H2.
Qed.

Lemma bucket_limit_bounds {Allocator0 : Allocator} :
  1 ≤ bucket_limit ∧ 2 * bucket_limit < SizeT.modulus.
Proof.
  pose proof bucket_limit_range as [H1 _]%andb_true_iff. apply Z.leb_le in H1.
  pose proof bucket_limit_max_size.
  assert (2 * SizeT.max_size < SizeT.modulus) by (by vm_compute). lia.
Qed.

(** ** Scans of one bucket *)

Section Buckets.

Context {Tk Tv : Type} `{!StdHash Tk} `{!Element Tk Tv} {Allocator0 : Allocator}.

Local Abbreviation KVP := (KeyValuePair Tk Tv).
Local Abbreviation Map := (Hashmap Tk Tv).
Local Abbreviation hash_of := (λ kvp : KVP, GetHashcode (first kvp)).

Implicit Types (bucket : list KVP) (kvp : KVP) (m : Map) (hash : Z).

Lemma find_app {A} (P : A → bool) (l1 l2 : list A) :
  find P (l1 ++ l2) = match find P l1 with Some x => Some x | None => find P l2 end.
Proof. induction l1 as [|x l1 IH]; simpl; [done|]. by destruct (P x). Qed.

Lemma find_None_iff hash bucket :
  find (hash_matches hash) bucket = None ↔ hash ∉ hash_of <$> bucket.
Proof.
  induction bucket as [|kvp rest IH]; simpl.
  - split; [intros _; apply not_elem_of_nil | done].
  - unfold hash_matches at 1. rewrite not_elem_of_cons.
    destruct (Z.eqb_spec (GetHashcode (first kvp)) hash) as [Heq|Hne].
    + split; [done|]. intros [? _]. congruence.
    + rewrite IH. split; [by split|by intros [_ ?]].
Qed.

Lemma find_Some_hash hash bucket kvp :
  find (hash_matches hash) bucket = Some kvp →
  kvp ∈ bucket ∧ GetHashcode (first kvp) = hash.
Proof.
  intros Hf. apply find_some in Hf as [Hin Hm].
  split; [by apply list_elem_of_In | by apply Z.eqb_eq].
Qed.

Lemma find_NoDup hash bucket kvp :
  NoDup (hash_of <$> bucket) → kvp ∈ bucket → GetHashcode (first kvp) = hash →
  find (hash_matches hash) bucket = Some kvp.
Proof.
  induction bucket as [|x rest IH]; simpl; intros Hnd Hin Hh.
  - by apply elem_of_nil in Hin.
  - apply NoDup_cons in Hnd as [Hx Hnd]. unfold hash_matches at 1.
    apply elem_of_cons in Hin as [->|Hin].
    + by rewrite Hh, Z.eqb_refl.
    + destruct (Z.eqb_spec (GetHashcode (first x)) hash) as [Heq|]; [|by apply IH].
      destruct Hx. rewrite Heq, <- Hh. by apply (list_elem_of_fmap_2 hash_of).
Qed.

Lemma existsb_find hash bucket :
  existsb (hash_matches hash) bucket
  = match find (hash_matches hash) bucket with Some _ => true | None => false end.
Proof.
  induction bucket as [|kvp rest IH]; simpl; [done|].
  by destruct (hash_matches hash kvp).
Qed.

Lemma assign_in_bucket_None hash v bucket :
  assign_in_bucket hash v bucket = None ↔ find (hash_matches hash) bucket = None.
Proof.
  induction bucket as [|kvp rest IH]; simpl; [done|].
  destruct (hash_matches hash kvp); [done|].
  destruct (assign_in_bucket hash v rest); simpl; [|done].
  split; [done|]. intros Hf. apply IH in Hf. done.
Qed.

Lemma assign_in_bucket_Some hash v bucket bucket' :
  assign_in_bucket hash v bucket = Some bucket' →
  first <$> bucket' = first <$> bucket
  ∧ ∃ old, find (hash_matches hash) bucket = Some old
    ∧ find (hash_matches hash) bucket' = Some (mkKeyValuePair (first old) v)
    ∧ ∀ hash', hash' ≠ hash →
        find (hash_matches hash') bucket' = find (hash_matches hash') bucket.
Proof.
  revert bucket'. induction bucket as [|kvp rest IH]; simpl; intros bucket' Ha; [done|].
  destruct (hash_matches hash kvp) eqn:Hm.
  - injection Ha as <-. split; [done|]. exists kvp. split; [done|].
    simpl. unfold hash_matches in *. simpl. rewrite Hm. split; [done|].
    intros hash' Hne. apply Z.eqb_eq in Hm.
    destruct (Z.eqb_spec (GetHashcode (first kvp)) hash'); [congruence|done].
  - destruct (assign_in_bucket hash v rest) as [rest'|]; [|done].
    injection Ha as <-. destruct (IH rest' eq_refl) as (Hk & old & Ho & Hn & Hother).
    split; [simpl; by f_equal|]. exists old. simpl. rewrite Hm.
    split; [done|]. split; [done|].
    intros hash' Hne. rewrite (Hother hash' Hne). done.
Qed.

Lemma assign_in_bucket_length hash v bucket bucket' :
  assign_in_bucket hash v bucket = Some bucket' → length bucket' = length bucket.
Proof.
  intros Ha. apply assign_in_bucket_Some in Ha as [Hk _].
  by rewrite <- (length_fmap first), Hk, length_fmap.
Qed.

Lemma erase_in_bucket_None hash bucket :
  erase_in_bucket hash bucket = None ↔ find (hash_matches hash) bucket = None.
Proof.
  induction bucket as [|kvp rest IH]; simpl; [done|].
  destruct (hash_matches hash kvp); [done|].
  destruct (erase_in_bucket hash rest); simpl; [|done].
  split; [done|]. intros Hf. apply IH in Hf. done.
Qed.

Lemma erase_in_bucket_Some hash bucket bucket' :
  erase_in_bucket hash bucket = Some bucket' →
  ∃ before kvp after,
    bucket = before ++ kvp :: after ∧ bucket' = before ++ after
    ∧ hash_matches hash kvp = true
    ∧ find (hash_matches hash) before = None.
Proof.
  revert bucket'. induction bucket as [|x rest IH]; simpl; intros bucket' He; [done|].
  destruct (hash_matches hash x) eqn:Hm.
  - injection He as <-. by exists [], x, rest.
  - destruct (erase_in_bucket hash rest) as [rest'|]; [|done].
    injection He as <-. destruct (IH rest' eq_refl) as (b & k & a & -> & -> & Hk & Hb).
    exists (x :: b), k, a. simpl. by rewrite Hm.
Qed.

Lemma assign_in_bucket_split hash v bucket old :
  find (hash_matches hash) bucket = Some old →
  ∃ before after,
    bucket = before ++ old :: after
    ∧ find (hash_matches hash) before = None
    ∧ assign_in_bucket hash v bucket
      = Some (before ++ mkKeyValuePair (first old) v :: after).
Proof.
  induction bucket as [|kvp rest IH]; simpl; [done|].
  destruct (hash_matches hash kvp) eqn:Hm.
  - intros [= ->]. by exists [], rest.
  - intros Hf. destruct (IH Hf) as (before & after & -> & Hb & ->).
    exists (kvp :: before), after. simpl. by rewrite Hm.
Qed.

End Buckets.

(** ** The bucket vector *)

Section Tables.

Context {Tk Tv : Type} `{!StdHash Tk} `{!Element Tk Tv} {Allocator0 : Allocator}.

Local Abbreviation KVP := (KeyValuePair Tk Tv).
Local Abbreviation Map := (Hashmap Tk Tv).
Local Abbreviation hash_of := (λ kvp : KVP, GetHashcode (first kvp)).

Implicit Types (bucket : list KVP) (kvp : KVP) (m : Map) (hash : Z).

Lemma capacity_nonneg m : 0 ≤ capacity m.
Proof. unfold capacity. lia. Qed.

Lemma bucket_index_lt hash m :
  1 ≤ capacity m → (bucket_index hash m < length (m_Buckets m))%nat.
Proof.
  unfold bucket_index, capacity. intros Hc.
  pose proof (Z.mod_pos_bound hash (Z.of_nat (length (m_Buckets m)))). lia.
Qed.

Lemma bucket_at_lookup m i :
  (i < length (m_Buckets m))%nat → m_Buckets m !! i = Some (bucket_at m i).
Proof. intros Hi. unfold bucket_at. by apply list_lookup_lookup_total_lt. Qed.

Lemma GetAll_split m i :
  (i < length (m_Buckets m))%nat →
  GetAll m
  = concat (take i (m_Buckets m)) ++ bucket_at m i
    ++ concat (drop (S i) (m_Buckets m)).
Proof.
  intros Hi. unfold GetAll.
  rewrite <- (take_drop_middle _ _ _ (bucket_at_lookup m i Hi)) at 1.
  by rewrite concat_app, concat_cons.
Qed.

Lemma GetAll_insert m i bucket' count :
  (i < length (m_Buckets m))%nat →
  GetAll (mkHashmap (<[i := bucket']> (m_Buckets m)) count)
  = concat (take i (m_Buckets m)) ++ bucket'
    ++ concat (drop (S i) (m_Buckets m)).
Proof.
  intros Hi. unfold GetAll. simpl.
  by rewrite insert_take_drop, concat_app, concat_cons.
Qed.

Lemma capacity_insert m i bucket' count :
  capacity (mkHashmap (<[i := bucket']> (m_Buckets m)) count) = capacity m.
Proof. unfold capacity. simpl. by rewrite length_insert. Qed.

Lemma bucket_index_insert hash m i bucket' count :
  bucket_index hash (mkHashmap (<[i := bucket']> (m_Buckets m)) count)
  = bucket_index hash m.
Proof. unfold bucket_index. by rewrite capacity_insert. Qed.

(** The scan of the addressed bucket sees what a scan of the whole table
    would see. *)
Lemma find_concat {A} (P : A → bool) (ls : list (list A)) (i : nat) l :
  ls !! i = Some l →
  (∀ j l', j ≠ i → ls !! j = Some l' → find P l' = None) →
  find P (concat ls) = find P l.
Proof.
  revert i. induction ls as [|l0 ls IH]; intros i Hi Hothers; [done|].
  simpl. rewrite find_app. destruct i as [|i]; simpl in Hi.
  - injection Hi as ->. destruct (find P l); [done|].
    assert (Hnone : ∀ l', l' ∈ ls → find P l' = None).
    { intros l' [j Hj]%list_elem_of_lookup. by apply (Hothers (S j)). }
    clear -Hnone. induction ls as [|l1 ls IH]; simpl; [done|].
    rewrite find_app, Hnone by left. apply IH. intros. apply Hnone. by right.
  - rewrite (Hothers 0%nat l0) by done.
    apply (IH i); [done|]. intros j l' Hj. apply (Hothers (S j)). lia.
Qed.

Lemma lookup_hash_placed hash m :
  placed m → 1 ≤ capacity m →
  lookup_hash hash m
  = find (hash_matches hash) (bucket_at m (bucket_index hash m)).
Proof.
  intros Hp Hc. unfold lookup_hash, GetAll.
  apply (find_concat _ _ (bucket_index hash m)).
  - by apply bucket_at_lookup, bucket_index_lt.
  - intros j l' Hj Hl'. destruct (find (hash_matches hash) l') as [kvp|] eqn:Hf; [|done].
    apply find_Some_hash in Hf as [Hin Hh].
    pose proof (Hp j l' kvp Hl' Hin). congruence.
Qed.

Lemma placed_insert m i bucket' count :
  placed m →
  (∀ kvp, kvp ∈ bucket' → bucket_index (GetHashcode (first kvp)) m = i) →
  placed (mkHashmap (<[i := bucket']> (m_Buckets m)) count).
Proof.
  intros Hp Hb j bucket kvp Hj Hin. rewrite bucket_index_insert.
  simpl in Hj. destruct (decide (i = j)) as [<-|Hne].
  - apply list_lookup_insert_Some in Hj as [(_ & -> & _)|[? _]]; [by apply Hb|done].
  - rewrite list_lookup_insert_ne in Hj by done. by apply (Hp j bucket).
Qed.

Lemma placed_bucket m i kvp :
  placed m → (i < length (m_Buckets m))%nat → kvp ∈ bucket_at m i →
  bucket_index (GetHashcode (first kvp)) m = i.
Proof. intros Hp Hi Hin. apply (Hp i (bucket_at m i)); [by apply bucket_at_lookup|done]. Qed.

Lemma lookup_hash_None hash m :
  lookup_hash hash m = None ↔ hash ∉ hash_of <$> GetAll m.
Proof. apply find_None_iff. Qed.

Lemma lookup_hash_distinct m kvp :
  distinct m → kvp ∈ GetAll m →
  lookup_hash (GetHashcode (first kvp)) m = Some kvp.
Proof. intros Hd Hin. by apply find_NoDup. Qed.

Lemma GetAll_replicate n count :
  GetAll (mkHashmap (replicate n ([] : list KVP)) count) = [].
Proof. unfold GetAll. simpl. induction n as [|n IH]; simpl; done. Qed.

Lemma well_formed_replicate n :
  well_formed (mkHashmap (replicate n ([] : list KVP)) 0).
Proof.
  split.
  - intros i bucket kvp [-> _]%lookup_replicate Hin. by apply elem_of_nil in Hin.
  - unfold distinct. rewrite GetAll_replicate. constructor.
  - unfold counted. by rewrite GetAll_replicate.
Qed.

Lemma placed_from_sound m i0 buckets :
  placed_from m i0 buckets = true →
  ∀ j bucket kvp, buckets !! j = Some bucket → kvp ∈ bucket →
    bucket_index (GetHashcode (first kvp)) m = (i0 + j)%nat.
Proof.
  revert i0. induction buckets as [|b rest IH]; simpl; intros i0 Hp j bucket kvp Hj Hin; [done|].
  apply andb_true_iff in Hp as [Hb Hrest]. destruct j as [|j]; simpl in Hj.
  - injection Hj as ->. rewrite forallb_forall in Hb.
    apply list_elem_of_In, Hb, Nat.eqb_eq in Hin. lia.
  - rewrite (IH (S i0) Hrest j bucket kvp Hj Hin). lia.
Qed.

Lemma well_formed_b_sound m : well_formed_b m = true → well_formed m.
Proof.
  unfold well_formed_b. intros [[Hp Hd]%andb_true_iff Hc]%andb_true_iff.
  split.
  - intros i bucket kvp Hi Hin. by apply (placed_from_sound m 0 _ Hp i bucket).
  - by apply bool_decide_eq_true in Hd.
  - by apply Z.eqb_eq in Hc.
Qed.

Lemma Remove_absent k m :
  1 ≤ capacity m →
  find (hash_matches (GetHashcode k))
       (bucket_at m (bucket_index (GetHashcode k) m)) = None →
  ContainsKey k m = Defined false ∧ Remove k m = Defined (false, m).
Proof.
  intros Hc Hnone. unfold ContainsKey, Remove.
  destruct (Z.eqb_spec (capacity m) 0) as [|_]; [lia|].
  rewrite existsb_find, Hnone. apply erase_in_bucket_None in Hnone. by rewrite Hnone.
Qed.

Lemma trim_scan_bounds (buckets : list (list KVP)) (i trimStart : nat) :
  (trimStart ≤ S i)%nat →
  (trimStart ≤ trim_scan buckets (S i) trimStart ≤ S i + length buckets)%nat.
Proof.
  revert i trimStart. induction buckets as [|bucket rest IH]; intros i t Ht; simpl; [lia|].
  destruct (length bucket =? 0)%nat.
  - specialize (IH (S i) t ltac:(lia)). lia.
  - specialize (IH (S i) (S (S i)) ltac:(lia)). lia.
Qed.

(** Every bucket from [trimStart] on is empty. *)
Lemma trim_scan_empty (buckets : list (list KVP)) (i trimStart : nat) j bucket :
  (trimStart ≤ S i)%nat →
  buckets !! j = Some bucket →
  (trim_scan buckets (S i) trimStart ≤ S i + j)%nat →
  bucket = [].
Proof.
  revert i trimStart j. induction buckets as [|b rest IH]; intros i t j Ht Hj Hr; [done|].
  simpl in Hr. destruct j as [|j]; simpl in Hj.
  - injection Hj as ->. destruct bucket; [done|]. simpl in Hr.
    pose proof (trim_scan_bounds rest (S i) (S (S i)) ltac:(lia)). lia.
  - destruct (length b =? 0)%nat.
    + apply (IH (S i) t j); [lia|done|lia].
    + apply (IH (S i) (S (S i)) j); [lia|done|lia].
Qed.

(** [Trim] erases at most one bucket, an empty one after the first: the
    entries, their order, the count and the buckets before [trimStart]
    stay. *)
Lemma Trim_keeps_entries m :
  GetAll (Trim m) = GetAll m ∧ size (Trim m) = size m
  ∧ capacity m - 1 ≤ capacity (Trim m) ≤ capacity m
  ∧ (1 ≤ capacity m → 1 ≤ capacity (Trim m))
  ∧ (let trimStart := trim_scan (drop 1 (m_Buckets m)) 1 1 in
     take trimStart (m_Buckets (Trim m)) = take trimStart (m_Buckets m)).
Proof.
  unfold Trim. set (trimStart := trim_scan _ 1 1).
  pose proof (trim_scan_bounds (drop 1 (m_Buckets m)) 0 1 ltac:(lia)) as Hb.
  fold trimStart in Hb.
  destruct (Nat.ltb_spec trimStart (length (m_Buckets m))) as [Hlt|Hge];
    [|split_and!; try done; lia].
  destruct (lookup_lt_is_Some_2 (m_Buckets m) trimStart Hlt) as [bucket Hbucket].
  assert (bucket = []) as ->.
  { apply (trim_scan_empty (drop 1 (m_Buckets m)) 0 1 (trimStart - 1)); [lia| |].
    - rewrite lookup_drop. by replace (1 + (trimStart - 1))%nat with trimStart by lia.
    - fold trimStart. lia. }
  unfold GetAll, size, capacity. simpl.
  rewrite length_delete by eauto. split_and!; try done; try lia.
  - rewrite delete_take_drop. rewrite <- (take_drop_middle _ _ _ Hbucket) at 3.
    by rewrite !concat_app.
  - rewrite delete_take_drop. apply take_app_length'. rewrite length_take. lia.
Qed.

End Tables.

(** ** One insertion or overwrite, without a resize *)

Section Upsert.

Context {Tk Tv : Type} `{!StdHash Tk} `{!Element Tk Tv} {Allocator0 : Allocator}.

Local Abbreviation KVP := (KeyValuePair Tk Tv).
Local Abbreviation Map := (Hashmap Tk Tv).
Local Abbreviation hash_of := (λ kvp : KVP, GetHashcode (first kvp)).

Implicit Types (bucket : list KVP) (kvp : KVP) (m : Map) (hash : Z).

Lemma appended_GetAll k v m :
  1 ≤ capacity m → GetAll (appended k v m) ≡ₚ mkKeyValuePair k v :: GetAll m.
Proof.
  intros Hc. unfold appended.
  pose proof (bucket_index_lt (GetHashcode k) m Hc) as Hi.
  rewrite GetAll_insert, (GetAll_split m _ Hi) by done.
  rewrite <- !app_assoc. simpl.
  rewrite (Permutation_middle _ (bucket_at _ _ ++ _)).
  by rewrite <- Permutation_middle.
Qed.

Lemma appended_well_formed k v m :
  well_formed m → 1 ≤ capacity m → lookup_hash (GetHashcode k) m = None →
  well_formed (appended k v m).
Proof.
  intros [Hp Hd Hn] Hc Hfresh.
  pose proof (bucket_index_lt (GetHashcode k) m Hc) as Hi.
  split.
  - apply placed_insert; [done|]. intros kvp [Hin| ->%list_elem_of_singleton]%elem_of_app.
    + by apply placed_bucket.
    + done.
  - unfold distinct. rewrite (appended_GetAll k v m Hc). simpl.
    apply NoDup_cons. split; [by apply lookup_hash_None|done].
  - unfold counted in *. rewrite (appended_GetAll k v m Hc). simpl.
    rewrite Hn, wrap_succ. f_equal. lia.
Qed.

Lemma appended_lookup k v m hash :
  well_formed m → 1 ≤ capacity m → lookup_hash (GetHashcode k) m = None →
  lookup_hash hash (appended k v m)
  = absorb (λ h, lookup_hash h m) (mkKeyValuePair k v) hash.
Proof.
  intros Hwf Hc Hfresh.
  pose proof (appended_well_formed k v m Hwf Hc Hfresh) as [Hp' _ _].
  destruct Hwf as [Hp _ _].
  pose proof (bucket_index_lt (GetHashcode k) m Hc) as Hi.
  rewrite lookup_hash_placed by (done || unfold appended; by rewrite capacity_insert).
  unfold appended at 1 2. rewrite bucket_index_insert. unfold bucket_at at 1. simpl.
  unfold absorb. simpl.
  destruct (decide (bucket_index (GetHashcode k) m = bucket_index hash m)) as [Heq|Hne].
  - rewrite Heq at 1. rewrite list_lookup_total_insert_eq by (rewrite <- Heq; done).
    rewrite find_app. simpl. unfold hash_matches at 2. simpl.
    rewrite (lookup_hash_placed hash m Hp Hc), <- Heq.
    destruct (Z.eqb_spec (GetHashcode k) hash) as [<-|Hk].
    + rewrite (lookup_hash_placed _ m Hp Hc) in Hfresh. by rewrite Hfresh.
    + by destruct (find _ _).
  - rewrite list_lookup_total_insert_ne by done.
    destruct (Z.eqb_spec (GetHashcode k) hash) as [<-|Hk]; [done|].
    by rewrite (lookup_hash_placed hash m Hp Hc).
Qed.

Lemma overwritten_keys k v bucket' m :
  1 ≤ capacity m →
  assign_in_bucket (GetHashcode k) v
    (bucket_at m (bucket_index (GetHashcode k) m)) = Some bucket' →
  first <$> GetAll (overwritten k bucket' m) = first <$> GetAll m.
Proof.
  intros Hc Ha. pose proof (bucket_index_lt (GetHashcode k) m Hc) as Hi.
  unfold overwritten. rewrite GetAll_insert, (GetAll_split m _ Hi) by done.
  rewrite !fmap_app. apply assign_in_bucket_Some in Ha as [-> _]. done.
Qed.

Lemma overwritten_well_formed k v bucket' m :
  well_formed m → 1 ≤ capacity m →
  assign_in_bucket (GetHashcode k) v
    (bucket_at m (bucket_index (GetHashcode k) m)) = Some bucket' →
  well_formed (overwritten k bucket' m).
Proof.
  intros [Hp Hd Hn] Hc Ha.
  pose proof (bucket_index_lt (GetHashcode k) m Hc) as Hi.
  pose proof (overwritten_keys k v bucket' m Hc Ha) as Hkeys.
  split.
  - apply placed_insert; [done|]. intros kvp Hin.
    apply assign_in_bucket_Some in Ha as [Hk _].
    apply (list_elem_of_fmap_2 first) in Hin. rewrite Hk in Hin.
    apply list_elem_of_fmap in Hin as (kvp0 & -> & Hin0). by apply placed_bucket.
  - unfold distinct in *.
    assert (Hcomp : ∀ l : list KVP, hash_of <$> l = GetHashcode <$> (first <$> l)).
    { intros l. by rewrite <- list_fmap_compose. }
    rewrite Hcomp in Hd |- *. by rewrite Hkeys.
  - unfold counted in *. simpl.
    by rewrite <- (length_fmap first), Hkeys, length_fmap.
Qed.

Lemma overwritten_lookup k v bucket' m hash :
  well_formed m → 1 ≤ capacity m →
  assign_in_bucket (GetHashcode k) v
    (bucket_at m (bucket_index (GetHashcode k) m)) = Some bucket' →
  lookup_hash hash (overwritten k bucket' m)
  = absorb (λ h, lookup_hash h m) (mkKeyValuePair k v) hash.
Proof.
  intros Hwf Hc Ha.
  pose proof (overwritten_well_formed k v bucket' m Hwf Hc Ha) as [Hp' _ _].
  destruct Hwf as [Hp _ _].
  pose proof (bucket_index_lt (GetHashcode k) m Hc) as Hi.
  rewrite lookup_hash_placed by (done || unfold overwritten; by rewrite capacity_insert).
  unfold overwritten at 1 2. rewrite bucket_index_insert. unfold bucket_at at 1. simpl.
  unfold absorb. simpl.
  apply assign_in_bucket_Some in Ha as (_ & old & Hold & Hnew & Hother).
  destruct (Z.eqb_spec (GetHashcode k) hash) as [<-|Hk].
  - rewrite list_lookup_total_insert_eq by done.
    by rewrite (lookup_hash_placed _ m Hp Hc), Hold, Hnew.
  - rewrite (lookup_hash_placed hash m Hp Hc).
    destruct (decide (bucket_index (GetHashcode k) m = bucket_index hash m)) as [Heq|Hne].
    + rewrite Heq at 1. rewrite list_lookup_total_insert_eq by (rewrite <- Heq; done).
      rewrite <- Heq. by apply Hother.
    + by rewrite list_lookup_total_insert_ne.
Qed.

(** Two well-formed tables with the same view by hash have the same
    number of entries. *)
Lemma same_view_length m1 m2 :
  distinct m1 → distinct m2 →
  (∀ hash, lookup_hash hash m1 = None ↔ lookup_hash hash m2 = None) →
  length (GetAll m1) = length (GetAll m2).
Proof.
  intros Hd1 Hd2 Hv.
  rewrite <- (length_fmap hash_of (GetAll m1)), <- (length_fmap hash_of (GetAll m2)).
  apply Permutation_length, NoDup_Permutation; [done..|].
  intros hash. specialize (Hv hash). rewrite !lookup_hash_None in Hv.
  destruct (decide (hash ∈ hash_of <$> GetAll m1)), (decide (hash ∈ hash_of <$> GetAll m2));
    tauto.
Qed.

End Upsert.

(** ** The two branches of Resize *)

Section Allocation.

Context {Tk Tv : Type} `{!StdHash Tk} `{!Element Tk Tv} {Allocator0 : Allocator}.

Local Abbreviation KVP := (KeyValuePair Tk Tv).
Local Abbreviation Map := (Hashmap Tk Tv).

(** A request that [m_Buckets.resize] accepts: the table is rebuilt. *)
Lemma Resize_fuel_allocates (fuel : nat) (n : Z) (m : Map) :
  Z.max n 1 ≤ bucket_limit →
  Resize_fuel (S fuel) n m
  = '(cpy, m1, thrown) ←
      reinsert (Assign_with (Resize_fuel fuel) true) (m_Buckets m)
        (mkHashmap (replicate (Z.to_nat (if 0 <? n then n else 1)) []) 0);
    match thrown with
    | None => Some (m1, None)
    | Some std_exception => Some (mkHashmap cpy (m_Size m1), None)
    | Some other_exception => Some (m1, Some other_exception)
    end.
Proof.
  intros Hn. cbn [Resize_fuel].
  destruct (Z.ltb_spec bucket_limit (if 0 <? n then n else 1)) as [Hfail|_]; [|done].
  destruct (Z.ltb_spec 0 n); lia.
Qed.

(** A request above [bucket_limit]: the buckets are put back and the
    count is zero. *)
Lemma Resize_fuel_cannot_allocate (fuel : nat) (n : Z) (m : Map) :
  bucket_limit < Z.max n 1 →
  Resize_fuel (S fuel) n m = Some (mkHashmap (m_Buckets m) 0, None).
Proof.
  intros Hn. cbn [Resize_fuel].
  destruct (Z.ltb_spec bucket_limit (if 0 <? n then n else 1)) as [_|Hfits]; [done|].
  destruct (Z.ltb_spec 0 n); lia.
Qed.

End Allocation.

(** ** Resize, Assign and Add when no copy throws *)

Section NoThrow.

Context {Tk Tv : Type} `{!StdHash Tk} `{!Element Tk Tv} {Allocator0 : Allocator}.

Hypothesis no_throw : ∀ (k : Tk) (v : Tv), copy_throws k v = None.

Local Abbreviation KVP := (KeyValuePair Tk Tv).
Local Abbreviation Map := (Hashmap Tk Tv).
Local Abbreviation hash_of := (λ kvp : KVP, GetHashcode (first kvp)).
Local Abbreviation no_view := (λ _ : Z, None : option KVP).

Implicit Types (bucket : list KVP) (kvp : KVP) (m : Map) (hash : Z).

Lemma absorb_ext (view1 view2 : Z → option KVP) kvp hash :
  view1 hash = view2 hash → absorb view1 kvp hash = absorb view2 kvp hash.
Proof. intros Hv. unfold absorb. by rewrite Hv. Qed.

(** Re-inserting entries with pairwise distinct hashes into an empty
    table gives back each of them. *)
Lemma foldl_absorb_distinct (l : list KVP) hash :
  NoDup (hash_of <$> l) →
  foldl absorb no_view l hash = find (hash_matches hash) l.
Proof.
  induction l as [|kvp l IH] using rev_ind; [done|].
  rewrite fmap_app, foldl_snoc, find_app. simpl.
  intros [Hl [Hdisj _]]%NoDup_app. specialize (IH Hl).
  unfold hash_matches at 2. rewrite (absorb_ext _ (λ h, find (hash_matches h) l)) by done.
  unfold absorb.
  destruct (Z.eqb_spec (GetHashcode (first kvp)) hash) as [Heq|Hne].
  - destruct (find (hash_matches hash) l) as [old|] eqn:Hf; [|done].
    apply find_Some_hash in Hf as [Hin Hh]. destruct (Hdisj hash).
    + rewrite <- Hh. by apply (list_elem_of_fmap_2 hash_of).
    + rewrite <- Heq. by left.
  - by destruct (find (hash_matches hash) l).
Qed.

(** The loops of [Resize], as long as no re-insertion reports an
    exception: an invariant [I] of the entries done so far and the table. *)
Lemma reinsert_bucket_inv
    (assign : Tk → Tv → Map → option (Map * Tv * exception_ptr))
    (I : list KVP → Map → Prop) (N : nat) :
  (∀ done kvp m, (length done < N)%nat → I done m →
     ∃ m' v', assign (first kvp) (second kvp) m = Some (m', v', None)
              ∧ I (done ++ [kvp]) m') →
  ∀ bucket done m, (length done + length bucket ≤ N)%nat → I done m →
    ∃ bucket' m', reinsert_bucket assign bucket m = Some (bucket', m', None)
                  ∧ I (done ++ bucket) m'.
Proof.
  intros Hstep. induction bucket as [|kvp rest IH]; intros done m Hlen HI; simpl in *.
  - exists [], m. by rewrite app_nil_r.
  - destruct (Hstep done kvp m ltac:(lia) HI) as (m1 & v' & -> & HI1). simpl.
    destruct (IH (done ++ [kvp]) m1) as (rest' & m2 & -> & HI2); [|done|].
    + rewrite length_app. simpl. lia.
    + simpl. eexists _, m2. split; [done|]. by rewrite <- app_assoc in HI2.
Qed.

Lemma reinsert_inv
    (assign : Tk → Tv → Map → option (Map * Tv * exception_ptr))
    (I : list KVP → Map → Prop) (N : nat) :
  (∀ done kvp m, (length done < N)%nat → I done m →
     ∃ m' v', assign (first kvp) (second kvp) m = Some (m', v', None)
              ∧ I (done ++ [kvp]) m') →
  ∀ cpy done m, (length done + length (concat cpy) ≤ N)%nat → I done m →
    ∃ cpy' m', reinsert assign cpy m = Some (cpy', m', None)
               ∧ I (done ++ concat cpy) m'.
Proof.
  intros Hstep. induction cpy as [|bucket rest IH]; intros done m Hlen HI; simpl in *.
  - exists [], m. by rewrite app_nil_r.
  - rewrite length_app in Hlen.
    destruct (reinsert_bucket_inv assign I N Hstep bucket done m ltac:(lia) HI)
      as (bucket' & m1 & -> & HI1). simpl.
    destruct (IH (done ++ bucket) m1) as (rest' & m2 & -> & HI2); [|done|].
    + rewrite length_app. lia.
    + simpl. eexists _, m2. split; [done|]. by rewrite <- app_assoc in HI2.
Qed.

Lemma well_formed_size_nonneg m : well_formed m → 0 ≤ m_Size m < SizeT.modulus.
Proof. intros [_ _ ->]. apply wrap_range. Qed.

(** [grow_if_full], given that [resize] does its work on this table. *)
Lemma grow_if_full_spec (resize : Z → Map → option (Map * exception_ptr)) m :
  well_formed m →
  2 * Z.of_nat (length (GetAll m)) ≤ bucket_limit →
  (∀ n, Z.max n 1 ≤ bucket_limit →
        ∃ m1, resize n m = Some (m1, None) ∧ well_formed m1 ∧ 1 ≤ capacity m1
              ∧ (∀ hash, lookup_hash hash m1 = lookup_hash hash m)
              ∧ (2 * Z.of_nat (length (GetAll m)) < SizeT.modulus →
                 Z.max n 1 ≤ capacity m1)) →
  ∃ m1, grow_if_full resize m = Some (m1, None) ∧ well_formed m1
        ∧ 1 ≤ capacity m1 ∧ capacity m1 > m_Size m1 - SizeT.modulus
        ∧ length (GetAll m1) = length (GetAll m)
        ∧ m_Size m1 = m_Size m
        ∧ (m_Size m < capacity m → m1 = m)
        ∧ (∀ hash, lookup_hash hash m1 = lookup_hash hash m)
        ∧ (2 * Z.of_nat (length (GetAll m)) < SizeT.modulus →
           capacity m ≤ capacity m1).
Proof.
  intros Hwf Hmax Hres. unfold grow_if_full.
  pose proof (well_formed_size_nonneg m Hwf) as Hsz.
  pose proof bucket_limit_bounds as [Hmax1 Hmax2].
  destruct (Z.leb_spec (capacity m) (m_Size m)) as [Hfull|Hroom].
  - destruct (Hres (SizeT.wrap (capacity m * 2))) as (m1 & -> & Hwf1 & Hc1 & Hv & Hcap).
    { pose proof (capacity_nonneg m).
      pose proof (wrap_le (capacity m * 2) ltac:(lia)).
      destruct Hwf as [_ _ Hn]. rewrite Hn in Hfull.
      pose proof (wrap_le (Z.of_nat (length (GetAll m))) ltac:(lia)). lia. }
    assert (Hlen : length (GetAll m1) = length (GetAll m)).
    { apply same_view_length; [apply Hwf1|apply Hwf|]. intros hash. by rewrite Hv. }
    exists m1. split_and!; try done.
    + pose proof (well_formed_size_nonneg m1 Hwf1). lia.
    + destruct Hwf1 as [_ _ ->], Hwf as [_ _ ->]. by rewrite Hlen.
    + lia.
    + intros Hlim. specialize (Hcap Hlim).
      destruct Hwf as [_ _ Hn]. rewrite Hn in Hfull.
      pose proof (wrap_le (Z.of_nat (length (GetAll m))) ltac:(lia)).
      pose proof (capacity_nonneg m).
      rewrite wrap_small in Hcap by lia. lia.
  - exists m. split_and!; try done; lia.
Qed.

Lemma Assign_with_spec (resize : Z → Map → option (Map * exception_ptr))
    by_move k v m :
  well_formed m →
  2 * Z.of_nat (length (GetAll m)) ≤ bucket_limit →
  (∀ n, Z.max n 1 ≤ bucket_limit →
        ∃ m1, resize n m = Some (m1, None) ∧ well_formed m1 ∧ 1 ≤ capacity m1
              ∧ (∀ hash, lookup_hash hash m1 = lookup_hash hash m)
              ∧ (2 * Z.of_nat (length (GetAll m)) < SizeT.modulus →
                 Z.max n 1 ≤ capacity m1)) →
  ∃ m' v', Assign_with resize by_move k v m = Some (m', v', None)
    ∧ well_formed m' ∧ 1 ≤ capacity m'
    ∧ (length (GetAll m') ≤ S (length (GetAll m)))%nat
    ∧ (∀ hash, lookup_hash hash m'
               = absorb (λ h, lookup_hash h m) (mkKeyValuePair k v) hash)
    ∧ (2 * Z.of_nat (length (GetAll m)) < SizeT.modulus →
       capacity m ≤ capacity m').
Proof.
  intros Hwf Hmax Hres.
  destruct (grow_if_full_spec resize m Hwf Hmax Hres)
    as (m1 & Hgrow & Hwf1 & Hc1 & _ & Hlen & _ & _ & Hv & Hcap).
  unfold Assign_with. rewrite Hgrow. simpl.
  destruct (assign_in_bucket _ _ _) as [bucket'|] eqn:Ha.
  - eexists _, _. split; [done|].
    split; [by eapply overwritten_well_formed|].
    split; [unfold overwritten; by rewrite capacity_insert|].
    split_and!.
    + rewrite <- (length_fmap first), (overwritten_keys k v) by done.
      rewrite length_fmap. lia.
    + intros hash. rewrite (overwritten_lookup k v) by done. by apply absorb_ext.
    + unfold overwritten. by rewrite capacity_insert.
  - rewrite no_throw. apply assign_in_bucket_None in Ha.
    rewrite <- lookup_hash_placed in Ha by (done || apply Hwf1).
    eexists _, _. split; [done|].
    split; [by apply appended_well_formed|].
    split; [unfold appended; by rewrite capacity_insert|].
    split_and!.
    + rewrite (appended_GetAll k v m1 Hc1). simpl. lia.
    + intros hash. rewrite appended_lookup by done. by apply absorb_ext.
    + unfold appended. by rewrite capacity_insert.
Qed.

(** [Resize] with enough fuel rebuilds any table into a well-formed one
    that holds, for each hash, the first key and the last value the old
    table had for it, in at least the requested number of buckets (as
    long as twice the number of entries is a [size_t]). *)
Lemma Resize_fuel_spec fuel : ∀ n m,
  (length (GetAll m) < fuel)%nat →
  Z.max n 1 ≤ bucket_limit →
  2 * Z.of_nat (length (GetAll m)) ≤ bucket_limit →
  ∃ m', Resize_fuel fuel n m = Some (m', None)
    ∧ well_formed m' ∧ 1 ≤ capacity m'
    ∧ (length (GetAll m') ≤ length (GetAll m))%nat
    ∧ (∀ hash, lookup_hash hash m' = foldl absorb no_view (GetAll m) hash)
    ∧ (2 * Z.of_nat (length (GetAll m)) < SizeT.modulus →
       Z.max n 1 ≤ capacity m').
Proof.
  induction fuel as [|fuel IH]; intros n m Hfuel Hn Hmax; [lia|].
  rewrite Resize_fuel_allocates by done.
  set (cleared := mkHashmap (replicate _ []) 0).
  pose (I := λ (done : list KVP) (s : Map),
          well_formed s ∧ 1 ≤ capacity s
          ∧ (length (GetAll s) ≤ length done)%nat
          ∧ (∀ hash, lookup_hash hash s = foldl absorb no_view done hash)
          ∧ (2 * Z.of_nat (length (GetAll m)) < SizeT.modulus →
             Z.max n 1 ≤ capacity s)).
  destruct (reinsert_inv (Assign_with (Resize_fuel fuel) true) I
              (length (GetAll m))) with (cpy := m_Buckets m) (done := @nil KVP) (m := cleared)
    as (cpy' & m' & -> & Hwf' & Hc' & Hlen' & Hv' & Hcap').
  - intros done kvp s Hdone (Hwf & Hc & Hlen & Hv & Hcap).
    destruct (Assign_with_spec (Resize_fuel fuel) true (first kvp) (second kvp) s Hwf)
      as (s' & v' & Ha & Hwf' & Hc' & Hlen' & Hv' & Hcap'); [lia| |].
    { intros n' Hn'.
      destruct (IH n' s ltac:(lia) Hn' ltac:(lia)) as (s1 & Hr & Hwf1 & Hc1 & _ & Hv1 & Hcap1).
      exists s1. split_and!; try done.
      intros hash. rewrite Hv1. apply foldl_absorb_distinct, Hwf. }
    exists s', v'. split; [done|]. unfold I. split_and!; try done.
    + rewrite length_app. simpl. lia.
    + intros hash. rewrite Hv', foldl_snoc. destruct kvp. by apply absorb_ext.
    + intros Hlim. specialize (Hcap Hlim). specialize (Hcap' ltac:(lia)). lia.
  - simpl. unfold GetAll. lia.
  - unfold I; split_and!.
    + apply well_formed_replicate.
    + unfold capacity, cleared. simpl. rewrite length_replicate.
      destruct (Z.ltb_spec 0 n); lia.
    + unfold cleared. by rewrite GetAll_replicate.
    + intros hash. unfold lookup_hash, cleared. by rewrite GetAll_replicate.
    + intros _. unfold capacity, cleared. simpl. rewrite length_replicate.
      destruct (Z.ltb_spec 0 n); lia.
  - simpl. exists m'. unfold GetAll in *. done.
Qed.

(** [Resize] terminates and, on a well-formed table, keeps every entry
    and the count. *)
Lemma Resize_spec n m :
  well_formed m →
  Z.max n 1 ≤ bucket_limit →
  2 * Z.of_nat (length (GetAll m)) ≤ bucket_limit →
  ∃ m', Resize n m = Some (m', None) ∧ well_formed m' ∧ 1 ≤ capacity m'
    ∧ (∀ hash, lookup_hash hash m' = lookup_hash hash m)
    ∧ (2 * Z.of_nat (length (GetAll m)) < SizeT.modulus →
       Z.max n 1 ≤ capacity m').
Proof.
  intros Hwf Hn Hmax. unfold Resize.
  destruct (Resize_fuel_spec (S (length (GetAll m))) n m ltac:(lia) Hn Hmax)
    as (m' & Hr & Hwf' & Hc' & _ & Hv' & Hcap').
  exists m'. split_and!; try done.
  intros hash. rewrite Hv'. apply foldl_absorb_distinct, Hwf.
Qed.

Lemma Get_lookup_hash k m :
  placed m → 1 ≤ capacity m →
  Get k m = second <$> lookup_hash (GetHashcode k) m.
Proof.
  intros Hp Hc. unfold Get. rewrite lookup_hash_placed by done.
  destruct (Z.eqb_spec (capacity m) 0); [lia|done].
Qed.

Lemma ContainsKey_lookup_hash k m :
  placed m → 1 ≤ capacity m →
  ContainsKey k m
  = Defined (match lookup_hash (GetHashcode k) m with Some _ => true | None => false end).
Proof.
  intros Hp Hc. unfold ContainsKey. rewrite lookup_hash_placed, existsb_find by done.
  destruct (Z.eqb_spec (capacity m) 0); [lia|done].
Qed.

Lemma grow_if_full_Resize m :
  well_formed m →
  2 * Z.of_nat (length (GetAll m)) ≤ bucket_limit →
  ∃ m1, grow_if_full Resize m = Some (m1, None) ∧ well_formed m1
        ∧ 1 ≤ capacity m1 ∧ capacity m1 > m_Size m1 - SizeT.modulus
        ∧ length (GetAll m1) = length (GetAll m)
        ∧ m_Size m1 = m_Size m
        ∧ (m_Size m < capacity m → m1 = m)
        ∧ ∀ hash, lookup_hash hash m1 = lookup_hash hash m.
Proof.
  intros Hwf Hmax.
  destruct (grow_if_full_spec Resize m Hwf Hmax)
    as (m1 & H1 & H2 & H3 & H4 & H5 & H6 & H7 & H8 & _).
  { intros n Hn. by apply Resize_spec. }
  by exists m1.
Qed.

(** [Assign], in terms of the table [m1] that the resize check leaves. *)
Lemma Assign_e_spec k v m :
  well_formed m →
  2 * Z.of_nat (length (GetAll m)) ≤ bucket_limit →
  ∃ m1 m', grow_if_full Resize m = Some (m1, None)
    ∧ Assign_e k v m = Some (m', None)
    ∧ well_formed m' ∧ 1 ≤ capacity m'
    ∧ m' = match assign_in_bucket (GetHashcode k) v
                   (bucket_at m1 (bucket_index (GetHashcode k) m1)) with
           | Some bucket' => overwritten k bucket' m1
           | None => appended k v m1
           end
    ∧ ∀ hash, lookup_hash hash m'
              = absorb (λ h, lookup_hash h m) (mkKeyValuePair k v) hash.
Proof.
  intros Hwf Hmax.
  destruct (grow_if_full_Resize m Hwf Hmax) as (m1 & Hgrow & _).
  destruct (Assign_with_spec Resize false k v m Hwf Hmax)
    as (m' & v' & Ha & Hwf' & Hc' & _ & Hv' & _).
  { intros n Hn. by apply Resize_spec. }
  exists m1, m'. unfold Assign_e. rewrite Ha. simpl. split_and!; try done.
  unfold Assign_with in Ha. rewrite Hgrow in Ha. simpl in Ha.
  destruct (assign_in_bucket _ _ _); [congruence|].
  rewrite no_throw in Ha. congruence.
Qed.

(** [Add], in terms of the table [m1] that the resize check leaves. *)
Lemma Add_e_spec k v m :
  well_formed m →
  2 * Z.of_nat (length (GetAll m)) ≤ bucket_limit →
  ∃ m1, grow_if_full Resize m = Some (m1, None)
    ∧ well_formed m1 ∧ 1 ≤ capacity m1
    ∧ (∀ hash, lookup_hash hash m1 = lookup_hash hash m)
    ∧ m_Size m1 = m_Size m
    ∧ Add_e k v m
      = Some (match lookup_hash (GetHashcode k) m with
              | Some _ => (false, m1, None)
              | None => (true, appended k v m1, None)
              end).
Proof.
  intros Hwf Hmax.
  destruct (grow_if_full_Resize m Hwf Hmax)
    as (m1 & Hgrow & Hwf1 & Hc1 & _ & _ & Hsz & _ & Hv).
  exists m1. split_and!; try done.
  unfold Add_e. rewrite Hgrow. simpl.
  rewrite existsb_find, <- lookup_hash_placed, Hv by (done || apply Hwf1).
  destruct (lookup_hash (GetHashcode k) m); [done|]. by rewrite no_throw.
Qed.

End NoThrow.

(** ** Resize when the copy of one entry throws *)

Section Rollback.

Context {Tk Tv : Type} `{!StdHash Tk} `{!Element Tk Tv} {Allocator0 : Allocator}.

Local Abbreviation KVP := (KeyValuePair Tk Tv).
Local Abbreviation Map := (Hashmap Tk Tv).
Local Abbreviation hash_of := (λ kvp : KVP, GetHashcode (first kvp)).
Local Abbreviation no_view := (λ _ : Z, None : option KVP).

Implicit Types (bucket : list KVP) (kvp : KVP) (m s : Map) (hash : Z).

(** The loops of [Resize] over the entries [all] of the snapshot, each
    step knowing its position: [I] holds while no exception is reported,
    [Q] of the table and the exception once one is. The snapshot is
    returned as it was when no re-insertion finds its hash in the table. *)
Lemma reinsert_bucket_at
    (assign : Tk → Tv → Map → option (Map * Tv * exception_ptr))
    (I : list KVP → Map → Prop) (Q : Map → exception → Prop) (all : list KVP) :
  (∀ done kvp rest s, all = done ++ kvp :: rest → I done s →
     ∃ s' thrown, assign (first kvp) (second kvp) s = Some (s', second kvp, thrown)
       ∧ match thrown with None => I (done ++ [kvp]) s' | Some e => Q s' e end) →
  ∀ bucket done rest s, all = done ++ bucket ++ rest → I done s →
    ∃ s' thrown, reinsert_bucket assign bucket s = Some (bucket, s', thrown)
      ∧ match thrown with None => I (done ++ bucket) s' | Some e => Q s' e end.
Proof.
  intros Hstep. induction bucket as [|kvp bucket IH]; intros done rest s Hall HI; simpl.
  - exists s, None. by rewrite app_nil_r.
  - destruct (Hstep done kvp (bucket ++ rest) s Hall HI) as (s1 & thrown & -> & H1).
    simpl. destruct kvp as [k v]; simpl in *. destruct thrown as [e|].
    + by exists s1, (Some e).
    + destruct (IH (done ++ [mkKeyValuePair k v]) rest s1) as (s2 & thrown & -> & H2);
        [by rewrite <- app_assoc|done|].
      simpl. exists s2, thrown. split; [done|].
      destruct thrown; [done|]. by rewrite <- app_assoc in H2.
Qed.

Lemma reinsert_at
    (assign : Tk → Tv → Map → option (Map * Tv * exception_ptr))
    (I : list KVP → Map → Prop) (Q : Map → exception → Prop) (all : list KVP) :
  (∀ done kvp rest s, all = done ++ kvp :: rest → I done s →
     ∃ s' thrown, assign (first kvp) (second kvp) s = Some (s', second kvp, thrown)
       ∧ match thrown with None => I (done ++ [kvp]) s' | Some e => Q s' e end) →
  ∀ cpy done s, all = done ++ concat cpy → I done s →
    ∃ s' thrown, reinsert assign cpy s = Some (cpy, s', thrown)
      ∧ match thrown with None => I (done ++ concat cpy) s' | Some e => Q s' e end.
Proof.
  intros Hstep. induction cpy as [|bucket cpy IH]; intros done s Hall HI; simpl in *.
  - exists s, None. by rewrite app_nil_r.
  - destruct (reinsert_bucket_at assign I Q all Hstep bucket done (concat cpy) s Hall HI)
      as (s1 & thrown & -> & H1).
    simpl. destruct thrown as [e|].
    + by exists s1, (Some e).
    + destruct (IH (done ++ bucket) s1) as (s2 & thrown & -> & H2);
        [by rewrite <- app_assoc|done|].
      simpl. exists s2, thrown. split; [done|].
      destruct thrown; [done|]. by rewrite <- app_assoc in H2.
Qed.

(** [Assign] of a key whose hash the table does not hold, where the copy
    of the entry does not throw: the entry is appended and the argument
    is left as it was. *)
Lemma Assign_with_fresh (resize : Z → Map → option (Map * exception_ptr))
    by_move k v m :
  well_formed m →
  2 * Z.of_nat (length (GetAll m)) ≤ bucket_limit →
  (∀ n, Z.max n 1 ≤ bucket_limit →
        ∃ m1, resize n m = Some (m1, None) ∧ well_formed m1 ∧ 1 ≤ capacity m1
              ∧ (∀ hash, lookup_hash hash m1 = lookup_hash hash m)
              ∧ (2 * Z.of_nat (length (GetAll m)) < SizeT.modulus →
                 Z.max n 1 ≤ capacity m1)) →
  lookup_hash (GetHashcode k) m = None →
  copy_throws k v = None →
  ∃ m', Assign_with resize by_move k v m = Some (m', v, None)
    ∧ well_formed m' ∧ 1 ≤ capacity m'
    ∧ length (GetAll m') = S (length (GetAll m))
    ∧ (∀ hash, lookup_hash hash m'
               = absorb (λ h, lookup_hash h m) (mkKeyValuePair k v) hash)
    ∧ (2 * Z.of_nat (length (GetAll m)) < SizeT.modulus →
       capacity m ≤ capacity m').
Proof.
  intros Hwf Hmax Hres Hfresh Hquiet.
  destruct (grow_if_full_spec resize m Hwf Hmax Hres)
    as (m1 & Hgrow & Hwf1 & Hc1 & _ & Hlen & _ & _ & Hv & Hcap).
  unfold Assign_with. rewrite Hgrow. simpl.
  rewrite <- Hv in Hfresh.
  pose proof Hfresh as Hscan.
  rewrite lookup_hash_placed in Hscan by (done || apply Hwf1).
  apply (assign_in_bucket_None _ v) in Hscan. rewrite Hscan, Hquiet.
  eexists. split; [done|].
  split; [by apply appended_well_formed|].
  split; [unfold appended; by rewrite capacity_insert|].
  split_and!.
  - rewrite (appended_GetAll k v m1 Hc1). simpl. by rewrite Hlen.
  - intros hash. rewrite appended_lookup by done. by apply absorb_ext.
  - unfold appended. by rewrite capacity_insert.
Qed.

(** The same call where the copy of the entry throws: the buckets are
    those the resize check left, and the count has gone up by one. *)
Lemma Assign_with_throws (resize : Z → Map → option (Map * exception_ptr))
    by_move k v m e :
  well_formed m →
  2 * Z.of_nat (length (GetAll m)) ≤ bucket_limit →
  (∀ n, Z.max n 1 ≤ bucket_limit →
        ∃ m1, resize n m = Some (m1, None) ∧ well_formed m1 ∧ 1 ≤ capacity m1
              ∧ (∀ hash, lookup_hash hash m1 = lookup_hash hash m)
              ∧ (2 * Z.of_nat (length (GetAll m)) < SizeT.modulus →
                 Z.max n 1 ≤ capacity m1)) →
  lookup_hash (GetHashcode k) m = None →
  copy_throws k v = Some e →
  ∃ m1, grow_if_full resize m = Some (m1, None)
    ∧ well_formed m1 ∧ 1 ≤ capacity m1
    ∧ (∀ hash, lookup_hash hash m1 = lookup_hash hash m)
    ∧ Assign_with resize by_move k v m
      = Some (mkHashmap (m_Buckets m1) (SizeT.wrap (m_Size m + 1)), v, Some e).
Proof.
  intros Hwf Hmax Hres Hfresh Hthrows.
  destruct (grow_if_full_spec resize m Hwf Hmax Hres)
    as (m1 & Hgrow & Hwf1 & Hc1 & _ & _ & Hsz & _ & Hv & _).
  exists m1. split_and!; try done.
  unfold Assign_with. rewrite Hgrow. simpl.
  rewrite <- Hv, lookup_hash_placed in Hfresh by (done || apply Hwf1).
  apply (assign_in_bucket_None _ v) in Hfresh. by rewrite Hfresh, Hthrows, Hsz.
Qed.

(** Entries with pairwise distinct hashes, none of which throws when it
    is copied: [Resize] rebuilds the table with the same entries, and
    asks nothing of the other copies. *)
Lemma Resize_fuel_fresh fuel : ∀ n m,
  (length (GetAll m) < fuel)%nat →
  Z.max n 1 ≤ bucket_limit →
  2 * Z.of_nat (length (GetAll m)) ≤ bucket_limit →
  NoDup (hash_of <$> GetAll m) →
  (∀ kvp, kvp ∈ GetAll m → copy_throws (first kvp) (second kvp) = None) →
  ∃ m', Resize_fuel fuel n m = Some (m', None)
    ∧ well_formed m' ∧ 1 ≤ capacity m'
    ∧ length (GetAll m') = length (GetAll m)
    ∧ (∀ hash, lookup_hash hash m' = lookup_hash hash m)
    ∧ (2 * Z.of_nat (length (GetAll m)) < SizeT.modulus →
       Z.max n 1 ≤ capacity m').
Proof.
  induction fuel as [|fuel IH]; intros n m Hfuel Hn Hmax Hnd Hquiet; [lia|].
  rewrite Resize_fuel_allocates by done.
  set (cleared := mkHashmap (replicate _ []) 0).
  pose (I := λ (done : list KVP) (s : Map),
          well_formed s ∧ 1 ≤ capacity s
          ∧ length (GetAll s) = length done
          ∧ (∀ hash, lookup_hash hash s = find (hash_matches hash) done)
          ∧ (2 * Z.of_nat (length (GetAll m)) < SizeT.modulus →
             Z.max n 1 ≤ capacity s)).
  destruct (reinsert_at (Assign_with (Resize_fuel fuel) true) I (λ _ _, False)
              (GetAll m)) with (cpy := m_Buckets m) (done := @nil KVP) (s := cleared)
    as (s' & thrown & -> & H').
  - intros done kvp rest s Hall (Hwf & Hc & Hlen & Hv & Hcap).
    assert (Hlt : (length done < length (GetAll m))%nat).
    { rewrite Hall, length_app. simpl. lia. }
    assert (Hnd' : NoDup (hash_of <$> done ++ [kvp])).
    { rewrite Hall in Hnd. rewrite (app_assoc done [kvp] rest : done ++ kvp :: rest = _) in Hnd.
      rewrite fmap_app in Hnd. by apply NoDup_app in Hnd as [? _]. }
    assert (Hfresh : lookup_hash (GetHashcode (first kvp)) s = None).
    { rewrite Hv. apply find_None_iff.
      rewrite fmap_app in Hnd'. apply NoDup_app in Hnd' as (_ & Hdisj & _).
      intros Hin. apply (Hdisj _ Hin). simpl. by left. }
    destruct (Assign_with_fresh (Resize_fuel fuel) true (first kvp) (second kvp) s Hwf)
      as (s1 & Ha & Hwf1 & Hc1 & Hlen1 & Hv1 & Hcap1); [lia| |done|..].
    { intros n' Hn'. destruct (IH n' s) as (s1 & Hr & Hwf1 & Hc1 & _ & Hv1 & Hcap1).
      - lia.
      - done.
      - lia.
      - apply Hwf.
      - intros x Hx. apply Hquiet. rewrite Hall.
        apply (lookup_hash_distinct s x) in Hx; [|apply Hwf].
        rewrite Hv in Hx. apply find_Some_hash in Hx as [Hx _].
        apply elem_of_app. by left.
      - by exists s1. }
    { apply Hquiet. rewrite Hall. apply elem_of_app. right. by left. }
    exists s1, None. split; [done|]. unfold I. split_and!; try done.
    + rewrite length_app. simpl. lia.
    + intros hash. rewrite Hv1, <- (foldl_absorb_distinct (done ++ [kvp])), foldl_snoc by done.
      destruct kvp. simpl. apply absorb_ext. rewrite Hv.
      symmetry. apply foldl_absorb_distinct.
      rewrite fmap_app in Hnd'. by apply NoDup_app in Hnd' as [? _].
    + intros Hlim. specialize (Hcap Hlim). specialize (Hcap1 ltac:(lia)). lia.
  - by unfold GetAll.
  - unfold I; split_and!.
    + apply well_formed_replicate.
    + unfold capacity, cleared. simpl. rewrite length_replicate.
      destruct (Z.ltb_spec 0 n); lia.
    + unfold cleared. by rewrite GetAll_replicate.
    + intros hash. unfold lookup_hash, cleared. by rewrite GetAll_replicate.
    + intros _. unfold capacity, cleared. simpl. rewrite length_replicate.
      destruct (Z.ltb_spec 0 n); lia.
  - destruct thrown as [e|]; [done|]. simpl in H'.
    fold (GetAll m) in H'. destruct H' as (Hwf' & Hc' & Hlen' & Hv' & Hcap').
    simpl. exists s'. by split_and!.
Qed.

(** The loops of [Resize] up to the first entry whose copy throws. The
    entries are re-inserted in the order of [GetAll]; let [bad] be the
    first one whose copy throws, after the entries [pre], all hashes so
    far distinct. The loops stop there with the snapshot as it was and a
    table that holds the entries [pre] and counts one more. *)
Lemma reinsert_until_throw n m pre bad post e :
  GetAll m = pre ++ bad :: post →
  2 * Z.of_nat (length pre) ≤ bucket_limit →
  NoDup (hash_of <$> pre ++ [bad]) →
  (∀ kvp, kvp ∈ pre → copy_throws (first kvp) (second kvp) = None) →
  copy_throws (first bad) (second bad) = Some e →
  ∃ s,
    reinsert (Assign_with (Resize_fuel (length (GetAll m))) true) (m_Buckets m)
      (mkHashmap (replicate (Z.to_nat (if 0 <? n then n else 1)) []) 0)
    = Some (m_Buckets m, s, Some e)
    ∧ m_Size s = SizeT.wrap (Z.of_nat (length pre) + 1)
    ∧ 1 ≤ capacity s ∧ placed s
    ∧ ∀ hash, lookup_hash hash s = find (hash_matches hash) pre.
Proof.
  intros Hall Hmax Hnd Hquiet Hbad.
  set (fuel := length (GetAll m)).
  set (cleared := mkHashmap (replicate _ []) 0).
  pose (I := λ (done : list KVP) (s : Map),
          (length done ≤ length pre)%nat
          ∧ well_formed s
          ∧ length (GetAll s) = length done
          ∧ (∀ hash, lookup_hash hash s = find (hash_matches hash) done)).
  pose (Q := λ (s : Map) (e' : exception),
          e' = e
          ∧ m_Size s = SizeT.wrap (Z.of_nat (length pre) + 1)
          ∧ 1 ≤ capacity s ∧ placed s
          ∧ ∀ hash, lookup_hash hash s = find (hash_matches hash) pre).
  assert (Hpre : NoDup (hash_of <$> pre)).
  { rewrite fmap_app in Hnd. by apply NoDup_app in Hnd as [? _]. }
  assert (Hresize : ∀ done s, I done s → (∀ x, x ∈ done → x ∈ pre) →
            ∀ n', Z.max n' 1 ≤ bucket_limit →
              ∃ m1, Resize_fuel fuel n' s = Some (m1, None)
              ∧ well_formed m1 ∧ 1 ≤ capacity m1
              ∧ (∀ hash, lookup_hash hash m1 = lookup_hash hash s)
              ∧ (2 * Z.of_nat (length (GetAll s)) < SizeT.modulus →
                 Z.max n' 1 ≤ capacity m1)).
  { intros done s (Hlen & Hwf & Hlen' & Hv) Hsub n' Hn'.
    destruct (Resize_fuel_fresh fuel n' s) as (m1 & Hr & Hwf1 & Hc1 & _ & Hv1 & Hcap1).
    - unfold fuel. rewrite Hall, length_app. simpl. lia.
    - done.
    - lia.
    - apply Hwf.
    - intros x Hx. apply Hquiet, Hsub.
      apply (lookup_hash_distinct s x) in Hx; [|apply Hwf].
      rewrite Hv in Hx. by apply find_Some_hash in Hx as [Hx _].
    - by exists m1. }
  destruct (reinsert_at (Assign_with (Resize_fuel fuel) true) I Q
              (GetAll m)) with (cpy := m_Buckets m) (done := @nil KVP) (s := cleared)
    as (s' & thrown & -> & H').
  - intros done kvp rest s Hall' HI.
    pose proof HI as (Hlen & Hwf & Hlen' & Hv).
    rewrite Hall in Hall'. apply app_eq_app in Hall' as [l [[Hl1 Hl2]|[Hl1 Hl2]]].
    + (* [done] is a prefix of [pre] *)
      destruct l as [|x l]; simpl in Hl2.
      * (* the entry is [bad] *)
        injection Hl2 as <- <-. rewrite app_nil_r in Hl1. subst done.
        assert (Hfresh : lookup_hash (GetHashcode (first kvp)) s = None).
        { rewrite Hv. apply find_None_iff.
          rewrite fmap_app in Hnd. apply NoDup_app in Hnd as (_ & Hdisj & _).
          intros Hin. apply (Hdisj _ Hin). simpl. by left. }
        destruct (Assign_with_throws (Resize_fuel fuel) true (first kvp) (second kvp) s
                    e Hwf) as (m1 & _ & Hwf1 & Hc1 & Hv1 & ->); [lia| |done..|].
        { by apply (Hresize pre). }
        eexists _, (Some e). split; [done|]. split; [done|]. simpl.
        split_and!; try done.
        -- destruct Hwf as [_ _ ->]. by rewrite Hlen', wrap_succ.
        -- apply Hwf1.
        -- intros hash. rewrite <- Hv. apply Hv1.
      * (* the entry is one of [pre] *)
        injection Hl2 as <- ->. subst pre.
        assert (Hnd' : NoDup (hash_of <$> done ++ [kvp])).
        { rewrite (app_assoc done [kvp] l : done ++ kvp :: l = _), fmap_app in Hpre.
          by apply NoDup_app in Hpre as [? _]. }
        assert (Hfresh : lookup_hash (GetHashcode (first kvp)) s = None).
        { rewrite Hv. apply find_None_iff.
          rewrite fmap_app in Hnd'. apply NoDup_app in Hnd' as (_ & Hdisj & _).
          intros Hin. apply (Hdisj _ Hin). simpl. by left. }
        destruct (Assign_with_fresh (Resize_fuel fuel) true (first kvp) (second kvp) s Hwf)
          as (s1 & Ha & Hwf1 & _ & Hlen1 & Hv1 & _);
          [rewrite length_app in Hmax; simpl in Hmax; lia| |done|..].
        { apply (Hresize done); [done|]. intros x Hx. apply elem_of_app. by left. }
        { apply Hquiet, elem_of_app. right. by left. }
        exists s1, None. split; [done|]. unfold I. split_and!; try done.
        -- rewrite !length_app. simpl. lia.
        -- rewrite length_app. simpl. lia.
        -- intros hash.
           rewrite Hv1, <- (foldl_absorb_distinct (done ++ [kvp])), foldl_snoc by done.
           destruct kvp. simpl. apply absorb_ext. rewrite Hv.
           symmetry. apply foldl_absorb_distinct.
           rewrite fmap_app in Hnd'. by apply NoDup_app in Hnd' as [? _].
    + (* [done] is not longer than [pre] *)
      rewrite Hl1, length_app in Hlen. destruct l as [|x l]; [|simpl in Hlen; lia].
      simpl in Hl2. injection Hl2 as <- <-. rewrite app_nil_r in Hl1. subst done.
      assert (Hfresh : lookup_hash (GetHashcode (first bad)) s = None).
      { rewrite Hv. apply find_None_iff.
        rewrite fmap_app in Hnd. apply NoDup_app in Hnd as (_ & Hdisj & _).
        intros Hin. apply (Hdisj _ Hin). simpl. by left. }
      destruct (Assign_with_throws (Resize_fuel fuel) true (first bad) (second bad) s
                  e Hwf) as (m1 & _ & Hwf1 & Hc1 & Hv1 & ->); [lia| |done..|].
      { by apply (Hresize pre). }
      eexists _, (Some e). split; [done|]. split; [done|]. simpl.
      split_and!; try done.
      * destruct Hwf as [_ _ ->]. by rewrite Hlen', wrap_succ.
      * apply Hwf1.
      * intros hash. rewrite <- Hv. apply Hv1.
  - by unfold GetAll.
  - unfold I; split_and!.
    + simpl. lia.
    + apply well_formed_replicate.
    + unfold cleared. by rewrite GetAll_replicate.
    + intros hash. unfold lookup_hash, cleared. by rewrite GetAll_replicate.
  - destruct thrown as [e'|].
    + destruct H' as (-> & Hsz & Hc & Hp & Hv). by exists s'.
    + simpl in H'. fold (GetAll m) in H'. destruct H' as (Hlen & _).
      rewrite Hall, length_app in Hlen. simpl in Hlen. lia.
Qed.

(** The rollback of [Resize], once the new buckets are allocated. The
    entries are re-inserted in the order of [GetAll]; let [bad] be the
    first one whose copy throws an exception derived from
    [std::exception], after the entries [pre], all hashes so far
    distinct. Then [Resize] reports nothing and puts the buckets back as
    they were, but the count is the number of entries re-inserted before
    the exception, plus one: the count the table had is lost. *)
Lemma Resize_rollback n m pre bad post :
  Z.max n 1 ≤ bucket_limit →
  2 * Z.of_nat (length pre) ≤ bucket_limit →
  GetAll m = pre ++ bad :: post →
  NoDup (hash_of <$> pre ++ [bad]) →
  (∀ kvp, kvp ∈ pre → copy_throws (first kvp) (second kvp) = None) →
  copy_throws (first bad) (second bad) = Some std_exception →
  Resize n m
  = Some (mkHashmap (m_Buckets m) (SizeT.wrap (Z.of_nat (length pre) + 1)), None).
Proof.
  intros Hn Hmax Hall Hnd Hquiet Hbad. unfold Resize.
  rewrite Resize_fuel_allocates by done.
  destruct (reinsert_until_throw n m pre bad post std_exception Hall Hmax Hnd Hquiet Hbad)
    as (s & -> & Hsz & _). simpl. by rewrite Hsz.
Qed.

(** X21. The rollback of [Resize] on a well-formed table, for a request
    that [m_Buckets.resize] accepts and a table of at most half of
    [bucket_limit] entries. When the copy of an entry throws an exception
    derived from [std::exception], the copies before it not throwing,
    [Resize] reports nothing and puts the buckets back as they were, but
    the count it leaves is short by the number of entries that came after
    the one that threw: it is right only when that entry is the last. *)
Lemma Resize_rollback_count_lost n m pre bad post :
  well_formed m →
  Z.max n 1 ≤ bucket_limit →
  2 * Z.of_nat (length (GetAll m)) ≤ bucket_limit →
  GetAll m = pre ++ bad :: post →
  (∀ kvp, kvp ∈ pre → copy_throws (first kvp) (second kvp) = None) →
  copy_throws (first bad) (second bad) = Some std_exception →
  ∃ m', Resize n m = Some (m', None)
    ∧ m_Buckets m' = m_Buckets m
    ∧ size m' = size m - Z.of_nat (length post).
Proof.
  intros [_ Hd Hn] Hreq Hmax Hall Hquiet Hbad.
  pose proof bucket_limit_bounds as [_ Hmax2].
  assert (Hlim : Z.of_nat (length (GetAll m)) < SizeT.modulus) by lia.
  eexists. split; [|split].
  - apply (Resize_rollback n m pre bad post); try done.
    { rewrite Hall, length_app in Hmax. lia. }
    unfold distinct in Hd. rewrite Hall in Hd.
    rewrite (app_assoc pre [bad] post : pre ++ bad :: post = _), fmap_app in Hd.
    by apply NoDup_app in Hd as [? _].
  - done.
  - unfold size. simpl. rewrite Hn.
    rewrite Hall, length_app in Hlim |- *. simpl in Hlim |- *.
    rewrite !wrap_small by lia. lia.
Qed.

End Rollback.


(** ** Termination and safety, whatever the copies throw *)

Section Safety.

Context {Tk Tv : Type} `{!StdHash Tk} `{!Element Tk Tv} {Allocator0 : Allocator}.

Local Abbreviation KVP := (KeyValuePair Tk Tv).
Local Abbreviation Map := (Hashmap Tk Tv).

Implicit Types (bucket : list KVP) (kvp : KVP) (m s : Map) (hash : Z).

Lemma overwritten_length k v bucket' m :
  1 ≤ capacity m →
  assign_in_bucket (GetHashcode k) v
    (bucket_at m (bucket_index (GetHashcode k) m)) = Some bucket' →
  length (GetAll (overwritten k bucket' m)) = length (GetAll m).
Proof.
  intros Hc Ha.
  by rewrite <- (length_fmap first), (overwritten_keys k v), length_fmap.
Qed.

(** The resize check asks for twice the number of buckets, or for none
    when there is no bucket: a request that can only fail on a table that
    has buckets to go back to. *)
Lemma grow_if_full_safe (resize : Z → Map → option (Map * exception_ptr)) s :
  0 ≤ m_Size s < SizeT.modulus →
  (∀ n, 1 ≤ capacity s ∨ Z.max n 1 ≤ bucket_limit →
        ∃ m1 e, resize n s = Some (m1, e) ∧ safe (length (GetAll s)) m1) →
  ∃ m1 e, grow_if_full resize s = Some (m1, e) ∧ safe (length (GetAll s)) m1.
Proof.
  intros Hsz Hres. unfold grow_if_full.
  destruct (Z.leb_spec (capacity s) (m_Size s)) as [Hfull|Hroom].
  - apply Hres. pose proof (capacity_nonneg s). pose proof bucket_limit_bounds.
    destruct (decide (capacity s = 0)) as [->|]; [right; change (Z.max (SizeT.wrap (0 * 2)) 1) with 1; lia|left; lia].
  - exists s, None. unfold safe in *; split_and!; try done; lia.
Qed.

Lemma Assign_with_safe (resize : Z → Map → option (Map * exception_ptr))
    by_move k v s :
  0 ≤ m_Size s < SizeT.modulus →
  (∀ n, 1 ≤ capacity s ∨ Z.max n 1 ≤ bucket_limit →
        ∃ m1 e, resize n s = Some (m1, e) ∧ safe (length (GetAll s)) m1) →
  ∃ s' v' e, Assign_with resize by_move k v s = Some (s', v', e)
             ∧ safe (S (length (GetAll s))) s'.
Proof.
  intros Hsz Hres.
  destruct (grow_if_full_safe resize s Hsz Hres) as (m1 & e & Hgrow & Hc1 & Hlen1 & Hsz1).
  unfold Assign_with. rewrite Hgrow. simpl.
  destruct e as [e|].
  { eexists _, _, _. split; [done|]. unfold safe in *; split_and!; try done; lia. }
  destruct (assign_in_bucket _ _ _) as [bucket'|] eqn:Ha.
  { eexists _, _, _. split; [done|]. unfold safe in *; split_and!; try (simpl; lia).
    - unfold overwritten. by rewrite capacity_insert.
    - rewrite (overwritten_length k v) by done. lia. }
  destruct (copy_throws k v).
  - eexists _, _, _. split; [done|]. unfold safe in *; split_and!; try done; try apply wrap_range.
    unfold GetAll in *. simpl. lia.
  - eexists _, _, _. split; [done|]. unfold safe in *; split_and!; try apply wrap_range.
    + unfold appended. by rewrite capacity_insert.
    + rewrite (appended_GetAll k v m1 Hc1). simpl. lia.
Qed.

Lemma Add_e_safe k v s :
  0 ≤ m_Size s < SizeT.modulus →
  (∀ n, 1 ≤ capacity s ∨ Z.max n 1 ≤ bucket_limit →
        ∃ m1 e, Resize n s = Some (m1, e) ∧ safe (length (GetAll s)) m1) →
  ∃ result s' e, Add_e k v s = Some (result, s', e)
                 ∧ safe (S (length (GetAll s))) s'.
Proof.
  intros Hsz Hres.
  destruct (grow_if_full_safe Resize s Hsz Hres) as (m1 & e & Hgrow & Hc1 & Hlen1 & Hsz1).
  unfold Add_e. rewrite Hgrow. simpl.
  destruct e as [e|].
  { eexists _, _, _. split; [done|]. unfold safe in *; split_and!; try done; lia. }
  destruct (existsb _ _).
  { eexists _, _, _. split; [done|]. unfold safe in *; split_and!; try done; lia. }
  destruct (copy_throws k v).
  - eexists _, _, _. split; [done|]. unfold safe in *; split_and!; try done; try apply wrap_range.
    unfold GetAll in *. simpl. lia.
  - eexists _, _, _. split; [done|]. unfold safe in *; split_and!; try apply wrap_range.
    + unfold appended. by rewrite capacity_insert.
    + rewrite (appended_GetAll k v m1 Hc1). simpl. lia.
Qed.

(** The loops of [Resize]: they end, with or without an exception, and
    leave the snapshot its shape. *)
Lemma reinsert_bucket_safe
    (assign : Tk → Tv → Map → option (Map * Tv * exception_ptr)) (N : nat) :
  (∀ j k v s, (j < N)%nat → safe j s →
     ∃ s' v' e, assign k v s = Some (s', v', e) ∧ safe (S j) s') →
  ∀ bucket j s, (j + length bucket ≤ N)%nat → safe j s →
    ∃ bucket' s' e, reinsert_bucket assign bucket s = Some (bucket', s', e)
      ∧ safe (j + length bucket)%nat s' ∧ length bucket' = length bucket.
Proof.
  intros Hstep. induction bucket as [|kvp rest IH]; intros j s Hlen Hs; simpl in *.
  - exists [], s, None. split; [done|]. unfold safe in *; split_and!; try done; lia.
  - destruct (Hstep j (first kvp) (second kvp) s ltac:(lia) Hs)
      as (s1 & v' & e & -> & Hs1). simpl. destruct e as [e|].
    + eexists _, _, _. split; [done|]. simpl. unfold safe in *; split_and!; try done; lia.
    + destruct (IH (S j) s1 ltac:(lia) Hs1) as (rest' & s2 & e2 & -> & Hs2 & Hl).
      simpl. eexists _, _, _. split; [done|]. simpl.
      replace (j + S (length rest))%nat with (S j + length rest)%nat by lia.
      unfold safe in *. split; [done|]. by rewrite Hl.
Qed.

Lemma reinsert_safe
    (assign : Tk → Tv → Map → option (Map * Tv * exception_ptr)) (N : nat) :
  (∀ j k v s, (j < N)%nat → safe j s →
     ∃ s' v' e, assign k v s = Some (s', v', e) ∧ safe (S j) s') →
  ∀ cpy j s, (j + length (concat cpy) ≤ N)%nat → safe j s →
    ∃ cpy' s' e, reinsert assign cpy s = Some (cpy', s', e)
      ∧ safe (j + length (concat cpy))%nat s'
      ∧ length cpy' = length cpy
      ∧ length (concat cpy') = length (concat cpy)
      ∧ (is_Some e → cpy ≠ []).
Proof.
  intros Hstep. induction cpy as [|bucket rest IH]; intros j s Hlen Hs; simpl in *.
  - exists [], s, None. split; [done|]. unfold safe in *; split_and!; try done; try lia.
  - rewrite length_app in Hlen.
    destruct (reinsert_bucket_safe assign N Hstep bucket j s ltac:(lia) Hs)
      as (bucket' & s1 & e & -> & Hs1 & Hl1). simpl. destruct e as [e|].
    + eexists _, _, _. split; [done|]. simpl. rewrite !length_app, Hl1.
      unfold safe in *; split_and!; try done; lia.
    + destruct (IH (j + length bucket)%nat s1 ltac:(lia) Hs1)
        as (rest' & s2 & e2 & -> & Hs2 & Hl2 & Hl3 & _).
      simpl. eexists _, _, _. split; [done|]. simpl. rewrite !length_app, Hl1, Hl2, Hl3.
      rewrite Nat.add_assoc. unfold safe in *. destruct Hs2 as (? & ? & ? & ?).
      split_and!; done.
Qed.

(** [Resize] with enough fuel returns, and its table has no more entries
    than before, and at least one bucket unless there was none and the
    request was above [bucket_limit]. *)
Lemma Resize_fuel_safe fuel : ∀ n m,
  (length (GetAll m) < fuel)%nat →
  1 ≤ capacity m ∨ Z.max n 1 ≤ bucket_limit →
  ∃ m' e, Resize_fuel fuel n m = Some (m', e) ∧ safe (length (GetAll m)) m'.
Proof.
  induction fuel as [|fuel IH]; intros n m Hfuel Hcan; [lia|].
  destruct (Z.le_gt_cases (Z.max n 1) bucket_limit) as [Hn|Hn].
  2: { rewrite Resize_fuel_cannot_allocate by lia. eexists _, _. split; [done|].
       destruct Hcan as [Hc|]; [|lia]. by unfold safe, GetAll. }
  rewrite Resize_fuel_allocates by done.
  set (cleared := mkHashmap (replicate _ []) 0).
  destruct (reinsert_safe (Assign_with (Resize_fuel fuel) true) (length (GetAll m)))
    with (cpy := m_Buckets m) (j := 0%nat) (s := cleared)
    as (cpy' & m' & e & -> & (Hc' & Hlen' & Hsz') & Hl1 & Hl2 & Hne).
  - intros j k v s Hj (Hc & Hlen & Hsz).
    destruct (Assign_with_safe (Resize_fuel fuel) true k v s Hsz)
      as (s' & v' & e & Ha & Hc' & Hlen' & Hsz').
    { intros n' Hcan'. apply IH; [lia|done]. }
    exists s', v', e. split; [done|]. unfold safe in *; split_and!; try done; lia.
  - simpl. unfold GetAll. lia.
  - unfold safe in *; split_and!.
    + unfold capacity, cleared. simpl. rewrite length_replicate.
      destruct (Z.ltb_spec 0 n); lia.
    + unfold cleared. by rewrite GetAll_replicate.
    + done.
    + by unfold SizeT.modulus.
  - simpl in *. destruct e as [[]|]; eexists _, _; (split; [done|]).
    + assert (m_Buckets m ≠ []) as Hnil by (by apply Hne).
      unfold safe, capacity, GetAll. simpl. rewrite Hl1, Hl2.
      split_and!; try done; try lia.
      destruct (m_Buckets m); [done|simpl; lia].
    + by unfold safe, GetAll.
    + by unfold safe, GetAll.
Qed.

Lemma Resize_safe n m :
  1 ≤ capacity m ∨ Z.max n 1 ≤ bucket_limit →
  ∃ m' e, Resize n m = Some (m', e) ∧ safe (length (GetAll m)) m'.
Proof. apply Resize_fuel_safe. lia. Qed.


(** After the resize check [Add] and [Assign] have a bucket to address:
    their [hash % m_Buckets.size()] is never a division by zero. *)
Lemma grow_if_full_positive m :
  0 ≤ m_Size m < SizeT.modulus →
  ∃ m1 e, grow_if_full Resize m = Some (m1, e) ∧ 1 ≤ capacity m1.
Proof.
  intros Hsz. destruct (grow_if_full_safe Resize m Hsz) as (m1 & e & Hg & Hc & _).
  - intros n. apply Resize_safe.
  - by exists m1, e.
Qed.

Lemma reinsert_bucket_first_throws
    (assign : Tk → Tv → Map → option (Map * Tv * exception_ptr))
    kvp rest s s1 e :
  assign (first kvp) (second kvp) s = Some (s1, second kvp, Some e) →
  reinsert_bucket assign (kvp :: rest) s = Some (kvp :: rest, s1, Some e).
Proof. intros Ha. simpl. rewrite Ha. simpl. by destruct kvp. Qed.

Lemma reinsert_first_throws
    (assign : Tk → Tv → Map → option (Map * Tv * exception_ptr))
    cpy kvp rest s s1 e :
  concat cpy = kvp :: rest →
  assign (first kvp) (second kvp) s = Some (s1, second kvp, Some e) →
  reinsert assign cpy s = Some (cpy, s1, Some e).
Proof.
  intros Hcpy Ha. induction cpy as [|bucket cpy IH]; [done|].
  simpl in *. destruct bucket as [|kvp0 bucket]; simpl in *.
  - by rewrite (IH Hcpy).
  - injection Hcpy as -> _. rewrite Ha. simpl. by destruct kvp.
Qed.

(** When the copy of the first entry throws (an exception derived from
    [std::exception]), [Resize] puts the buckets back and leaves the
    count at 1, whatever it was. *)
Lemma Resize_rollback_count n m kvp rest :
  Z.max n 1 ≤ bucket_limit →
  GetAll m = kvp :: rest →
  copy_throws (first kvp) (second kvp) = Some std_exception →
  Resize n m = Some (mkHashmap (m_Buckets m) 1, None).
Proof.
  intros Hn Hall Hthrow. unfold Resize. rewrite Resize_fuel_allocates by done.
  set (cleared := mkHashmap (replicate _ []) 0).
  rewrite (reinsert_first_throws _ _ kvp rest cleared
             (mkHashmap (m_Buckets cleared) (SizeT.wrap (0 + 1))) std_exception);
    [done|done|].
  unfold Assign_with, grow_if_full.
  assert (Hc : 1 ≤ capacity cleared).
  { unfold capacity, cleared. simpl. rewrite length_replicate.
    destruct (Z.ltb_spec 0 n); lia. }
  destruct (Z.leb_spec (capacity cleared) (m_Size cleared)) as [Hle|_];
    [simpl in Hle; lia|]. simpl.
  assert (Hempty : bucket_at cleared (bucket_index (GetHashcode (first kvp)) cleared) = []).
  { unfold bucket_at. apply list_lookup_total_correct, lookup_replicate_2.
    pose proof (bucket_index_lt (GetHashcode (first kvp)) cleared Hc) as Hi.
    unfold cleared in Hi at 2. simpl in Hi. by rewrite length_replicate in Hi. }
  rewrite Hempty. simpl. by rewrite Hthrow.
Qed.


(** The constructor from a list of pairs returns a table with at least
    one bucket, whatever the copies throw. *)
Lemma Hashmap_items_safe (items : list KVP) (c : Z) :
  ∃ m, Hashmap_items items c = Some m
       ∧ 1 ≤ capacity m ∧ 0 ≤ m_Size m < SizeT.modulus.
Proof.
  unfold Hashmap_items.
  set (m0 := mkHashmap (replicate _ []) 0).
  assert (Hc0 : 1 ≤ capacity m0).
  { unfold capacity, m0. simpl. rewrite length_replicate.
    destruct (Z.ltb_spec c 1); lia. }
  assert (Hsz0 : 0 ≤ m_Size m0 < SizeT.modulus) by done.
  revert Hc0 Hsz0. generalize m0. clear m0.
  induction items as [|item rest IH]; intros m0 Hc0 Hsz0; simpl.
  - by exists m0.
  - destruct (Assign_with_safe Resize false (first item) (second item) m0 Hsz0)
      as (m1 & v' & e & Ha & Hc1 & _ & Hsz1).
    { intros n. apply Resize_safe. }
    unfold Assign, Assign_e. rewrite Ha. simpl. by apply IH.
Qed.


(** Every table built without [Clear] has at least one bucket, and its
    count is a [size_t], whatever the copies throw. *)
Lemma built_safe with_Trim m :
  built with_Trim false m → 1 ≤ capacity m ∧ 0 ≤ m_Size m < SizeT.modulus.
Proof.
  induction 1 as [n Hn|items n m Hm|k v m m' result e _ [Hc Hsz] Hm
                  |k v m m' e _ [Hc Hsz] Hm|k m m' result _ [Hc Hsz] Hm
                  |n m m' e _ [Hc Hsz] Hm|m _ _ [Hc Hsz]|m Hclear _ _].
  - split; [|done]. unfold capacity, Hashmap_capacity. simpl.
    rewrite length_replicate. lia.
  - destruct (Hashmap_items_safe items n) as (m0 & Hm0 & ?). by simplify_eq.
  - destruct (Add_e_safe k v m Hsz) as (r0 & m0 & e0 & Hm0 & Hc0 & _ & Hsz0).
    { intros n. apply Resize_safe. }
    by simplify_eq.
  - destruct (Assign_with_safe Resize false k v m Hsz) as (m0 & v0 & e0 & Hm0 & Hc0 & _ & Hsz0).
    { intros n. apply Resize_safe. }
    unfold Assign_e in Hm. rewrite Hm0 in Hm. by simplify_eq/=.
  - unfold Remove in Hm. destruct (capacity m =? 0); [done|].
    destruct (erase_in_bucket _ _); simplify_eq; [|done].
    rewrite capacity_insert. split; [done|]. apply wrap_range.
  - unfold Reserve in Hm. destruct (m_Size m <? n); [|by simplify_eq].
    destruct (Resize_safe n m (or_introl Hc)) as (m0 & e0 & Hm0 & Hc0 & _ & Hsz0).
    by simplify_eq.
  - split; [by apply Trim_keeps_entries|].
    unfold Trim. by destruct (_ <? _)%nat.
  - done.
Qed.


End Safety.

(** ** No operation puts two entries with one hash into a bucket *)

Section Chains.

Context {Tk Tv : Type} `{!StdHash Tk} `{!Element Tk Tv} {Allocator0 : Allocator}.

Local Abbreviation KVP := (KeyValuePair Tk Tv).
Local Abbreviation Map := (Hashmap Tk Tv).
Local Abbreviation hash_of := (λ kvp : KVP, GetHashcode (first kvp)).

Implicit Types (bucket : list KVP) (kvp : KVP) (m s : Map) (hash : Z).

Lemma hashes_of_keys (l1 l2 : list KVP) :
  first <$> l1 = first <$> l2 → hash_of <$> l1 = hash_of <$> l2.
Proof.
  intros Hk.
  assert (Hcomp : ∀ l : list KVP, hash_of <$> l = GetHashcode <$> (first <$> l)).
  { intros l. by rewrite <- list_fmap_compose. }
  by rewrite !Hcomp, Hk.
Qed.

Lemma chains_distinct_bucket_at m i :
  chains_distinct m → NoDup (hash_of <$> bucket_at m i).
Proof.
  intros Hm. unfold bucket_at. rewrite list_lookup_total_alt.
  destruct (m_Buckets m !! i) as [bucket|] eqn:Hi; simpl; [|constructor].
  by apply (Forall_lookup_1 _ _ _ _ Hm Hi).
Qed.

Lemma chains_distinct_overwritten k v bucket' m :
  chains_distinct m →
  assign_in_bucket (GetHashcode k) v
    (bucket_at m (bucket_index (GetHashcode k) m)) = Some bucket' →
  chains_distinct (overwritten k bucket' m).
Proof.
  intros Hm Ha. apply Forall_insert; [done|].
  apply assign_in_bucket_Some in Ha as [Hk _].
  rewrite (hashes_of_keys _ _ Hk). by apply chains_distinct_bucket_at.
Qed.

Lemma chains_distinct_appended k v m :
  chains_distinct m →
  find (hash_matches (GetHashcode k))
       (bucket_at m (bucket_index (GetHashcode k) m)) = None →
  chains_distinct (appended k v m).
Proof.
  intros Hm Hnone. apply Forall_insert; [done|].
  rewrite fmap_app. simpl. apply NoDup_app. split_and!.
  - by apply chains_distinct_bucket_at.
  - intros hash Hin ->%list_elem_of_singleton. by apply find_None_iff in Hnone.
  - apply NoDup_singleton.
Qed.

Lemma Assign_with_chains (resize : Z → Map → option (Map * exception_ptr))
    by_move k v s s' v' e :
  (∀ n m1 e1, resize n s = Some (m1, e1) → chains_distinct m1) →
  chains_distinct s →
  Assign_with resize by_move k v s = Some (s', v', e) →
  chains_distinct s'.
Proof.
  intros Hres Hs. unfold Assign_with, grow_if_full.
  assert (Hgrow : ∀ m1 e1,
            (if capacity s <=? m_Size s
             then resize (SizeT.wrap (capacity s * 2)) s else Some (s, None))
            = Some (m1, e1) → chains_distinct m1).
  { intros m1 e1. destruct (capacity s <=? m_Size s); [apply Hres|]. by intros [= <- _]. }
  destruct (if capacity s <=? m_Size s then _ else _) as [[m1 e1]|]; [|done].
  specialize (Hgrow m1 e1 eq_refl). simpl.
  destruct e1; [by intros [= <- _ _]|].
  destruct (assign_in_bucket _ _ _) eqn:Ha.
  - intros [= <- _ _]. by eapply chains_distinct_overwritten.
  - apply assign_in_bucket_None in Ha.
    destruct (copy_throws k v); intros [= <- _ _]; [done|].
    by apply chains_distinct_appended.
Qed.

Lemma reinsert_bucket_chains
    (assign : Tk → Tv → Map → option (Map * Tv * exception_ptr))
    (P : Map → Prop) :
  (∀ k v s s' v' e, P s → assign k v s = Some (s', v', e) → P s') →
  ∀ bucket s bucket' s' e,
    P s → reinsert_bucket assign bucket s = Some (bucket', s', e) →
    P s' ∧ first <$> bucket' = first <$> bucket.
Proof.
  intros Hstep. induction bucket as [|kvp rest IH]; simpl; intros s bucket' s' e Hs.
  - by intros [= <- <- _].
  - destruct (assign (first kvp) (second kvp) s) as [[[s1 v1] e1]|] eqn:Ha; [|done].
    simpl. pose proof (Hstep _ _ _ _ _ _ Hs Ha) as Hs1. destruct e1.
    + by intros [= <- <- _].
    + destruct (reinsert_bucket assign rest s1) as [[[rest' s2] e2]|] eqn:Hr; [|done].
      simpl. intros [= <- <- _]. destruct (IH _ _ _ _ Hs1 Hr) as [Hs2 Hk].
      split; [done|]. by rewrite fmap_cons, Hk.
Qed.

Lemma reinsert_chains
    (assign : Tk → Tv → Map → option (Map * Tv * exception_ptr))
    (P : Map → Prop) :
  (∀ k v s s' v' e, P s → assign k v s = Some (s', v', e) → P s') →
  ∀ cpy s cpy' s' e,
    P s → reinsert assign cpy s = Some (cpy', s', e) →
    P s' ∧ Forall2 (λ bucket' bucket, first <$> bucket' = first <$> bucket) cpy' cpy.
Proof.
  intros Hstep. induction cpy as [|bucket rest IH]; simpl; intros s cpy' s' e Hs.
  - intros [= <- <- _]. by split.
  - destruct (reinsert_bucket assign bucket s) as [[[bucket' s1] e1]|] eqn:Hb; [|done].
    simpl. destruct (reinsert_bucket_chains assign P Hstep _ _ _ _ _ Hs Hb) as [Hs1 Hk].
    destruct e1.
    + intros [= <- <- _]. split; [done|]. constructor; [done|].
      clear. induction rest; by constructor.
    + destruct (reinsert assign rest s1) as [[[rest' s2] e2]|] eqn:Hr; [|done].
      simpl. intros [= <- <- _]. destruct (IH _ _ _ _ Hs1 Hr) as [Hs2 Hks].
      split; [done|]. by constructor.
Qed.

Lemma Resize_fuel_chains fuel : ∀ n m m' e,
  chains_distinct m → Resize_fuel fuel n m = Some (m', e) → chains_distinct m'.
Proof.
  induction fuel as [|fuel IH]; intros n m m' e Hm; [done|].
  destruct (Z.le_gt_cases (Z.max n 1) bucket_limit) as [Hn|Hn].
  2: { rewrite Resize_fuel_cannot_allocate by lia. by intros [= <- _]. }
  rewrite Resize_fuel_allocates by done.
  set (cleared := mkHashmap (replicate _ []) 0).
  destruct (reinsert _ _ cleared) as [[[cpy' m1] e1]|] eqn:Hr; [|done]. simpl.
  destruct (reinsert_chains (Assign_with (Resize_fuel fuel) true) chains_distinct)
    with (cpy := m_Buckets m) (s := cleared) (cpy' := cpy') (s' := m1) (e := e1)
    as [Hm1 Hkeys]; [| |done|].
  - intros k v s s' v' e' Hs. apply Assign_with_chains; [|done].
    intros n' s1 e1'. by apply IH.
  - apply Forall_forall. intros bucket [-> _]%elem_of_replicate. constructor.
  - destruct e1 as [[]|]; intros [= <- _]; [|done..].
    unfold chains_distinct in *. simpl.
    apply Forall_lookup_2. intros i bucket' Hi.
    destruct (Forall2_lookup_l _ _ _ _ _ Hkeys Hi) as (bucket & Hbucket & Hk).
    rewrite (hashes_of_keys _ _ Hk). by apply (Forall_lookup_1 _ _ _ _ Hm Hbucket).
Qed.

(** Every operation of the interface keeps [chains_distinct], whatever
    the copies throw. *)
Lemma chains_distinct_kept m :
  chains_distinct m →
  (∀ k v result m' e, Add_e k v m = Some (result, m', e) → chains_distinct m')
  ∧ (∀ k v m' e, Assign_e k v m = Some (m', e) → chains_distinct m')
  ∧ (∀ n m' e, Reserve n m = Some (m', e) → chains_distinct m')
  ∧ (∀ k result m', Remove k m = Defined (result, m') → chains_distinct m')
  ∧ chains_distinct (Trim m)
  ∧ chains_distinct (Clear m).
Proof.
  intros Hm. split_and!.
  - intros k v result m' e. unfold Add_e, grow_if_full.
    assert (Hgrow : ∀ m1 e1,
              (if capacity m <=? m_Size m
               then Resize (SizeT.wrap (capacity m * 2)) m else Some (m, None))
              = Some (m1, e1) → chains_distinct m1).
    { intros m1 e1. destruct (capacity m <=? m_Size m); [by apply Resize_fuel_chains|].
      by intros [= <- _]. }
    destruct (if capacity m <=? m_Size m then _ else _) as [[m1 e1]|]; [|done].
    specialize (Hgrow m1 e1 eq_refl). simpl.
    destruct e1; [by intros [= _ <- _]|].
    rewrite existsb_find. destruct (find _ _) eqn:Hf; [by intros [= _ <- _]|].
    destruct (copy_throws k v); intros [= _ <- _]; [done|].
    by apply chains_distinct_appended.
  - intros k v m' e. unfold Assign_e.
    destruct (Assign_with Resize false k v m) as [[[s' v'] e']|] eqn:Ha; [|done].
    simpl. intros [= <- _]. eapply Assign_with_chains; [|done..].
    intros n' m1 e1. by apply Resize_fuel_chains.
  - intros n m' e. unfold Reserve. destruct (m_Size m <? n).
    + by apply Resize_fuel_chains.
    + by intros [= <- _].
  - intros k result m'. unfold Remove. destruct (capacity m =? 0); [done|].
    destruct (erase_in_bucket _ _) as [bucket'|] eqn:He; intros [= _ <-]; [|done].
    apply Forall_insert; [done|].
    destruct (erase_in_bucket_Some _ _ _ He) as (before & kvp & after & Hb & -> & _).
    pose proof (chains_distinct_bucket_at m (bucket_index (GetHashcode k) m) Hm) as Hnd.
    rewrite Hb, fmap_app, fmap_cons in Hnd. rewrite fmap_app.
    apply NoDup_app in Hnd as (Hbefore & Hdisj & [_ Hafter]%NoDup_cons).
    apply NoDup_app. split_and!; [done| |done].
    intros hash Hin Hin'. apply (Hdisj hash Hin). by right.
  - unfold Trim. destruct (_ <? _)%nat; [|done].
    unfold chains_distinct. simpl. rewrite delete_take_drop.
    apply Forall_app. split; [by apply Forall_take|by apply Forall_drop].
  - constructor.
Qed.

Lemma Hashmap_items_chains (items : list KVP) (c : Z) m :
  Hashmap_items items c = Some m → chains_distinct m.
Proof.
  unfold Hashmap_items.
  set (m0 := mkHashmap (replicate _ []) 0).
  assert (H0 : chains_distinct m0).
  { apply Forall_forall. intros bucket [-> _]%elem_of_replicate. constructor. }
  revert H0. generalize m0. clear m0.
  induction items as [|item rest IH]; intros m0 H0; simpl.
  - by intros [= <-].
  - unfold Assign, Assign_e.
    destruct (Assign_with Resize false (first item) (second item) m0)
      as [[[m1 v1] e1]|] eqn:Ha; simpl.
    + apply IH. eapply Assign_with_chains; [|done..].
      intros n m2 e2. by apply Resize_fuel_chains.
    + clear. induction rest as [|item' rest IH]; simpl; [done|apply IH].
Qed.

(** Every table the interface builds, with [Trim] and [Clear] and
    whatever the copies throw, has no two entries with one hash in a
    bucket. *)
Lemma built_chains_distinct with_Trim with_Clear m :
  built with_Trim with_Clear m → chains_distinct m.
Proof.
  induction 1 as [n Hn|items n m Hm|k v m m' result e _ IH Hm
                  |k v m m' e _ IH Hm|k m m' result _ IH Hm
                  |n m m' e _ IH Hm|m _ _ IH|m _ _ IH].
  - apply Forall_forall. intros bucket [-> _]%elem_of_replicate. constructor.
  - by eapply Hashmap_items_chains.
  - destruct (chains_distinct_kept m IH) as (Hadd & _). by eapply Hadd.
  - destruct (chains_distinct_kept m IH) as (_ & Hassign & _). by eapply Hassign.
  - destruct (chains_distinct_kept m IH) as (_ & _ & _ & Hremove & _). by eapply Hremove.
  - destruct (chains_distinct_kept m IH) as (_ & _ & Hreserve & _). by eapply Hreserve.
  - by destruct (chains_distinct_kept m IH) as (_ & _ & _ & _ & Htrim & _).
  - constructor.
Qed.

End Chains.

(** ** The invariants are kept (by everything but Trim) *)

Section Preservation.

Context {Tk Tv : Type} `{!StdHash Tk} `{!Element Tk Tv} {Allocator0 : Allocator}.

Hypothesis no_throw : ∀ (k : Tk) (v : Tv), copy_throws k v = None.

Local Abbreviation KVP := (KeyValuePair Tk Tv).
Local Abbreviation Map := (Hashmap Tk Tv).
Local Abbreviation hash_of := (λ kvp : KVP, GetHashcode (first kvp)).
Local Abbreviation no_view := (λ _ : Z, None : option KVP).

Implicit Types (bucket : list KVP) (kvp : KVP) (m : Map) (hash : Z).

Lemma Hashmap_capacity_well_formed n : well_formed (Hashmap_capacity n : Map).
Proof. apply well_formed_replicate. Qed.

Lemma Clear_well_formed m : well_formed (Clear m).
Proof. split; [by intros i bucket kvp Hi|constructor|done]. Qed.

Lemma Add_well_formed k v m :
  well_formed m →
  2 * Z.of_nat (length (GetAll m)) ≤ bucket_limit →
  ∃ result m', Add k v m = Some (result, m') ∧ well_formed m' ∧ 1 ≤ capacity m'.
Proof.
  intros Hwf Hmax.
  destruct (Add_e_spec no_throw k v m Hwf Hmax) as (m1 & _ & Hwf1 & Hc1 & Hv & _ & Ha).
  unfold Add. rewrite Ha.
  destruct (lookup_hash (GetHashcode k) m) eqn:Hl; simpl; eexists _, _; (split; [done|]).
  - done.
  - rewrite <- Hv in Hl. split; [by apply appended_well_formed|].
    unfold appended. by rewrite capacity_insert.
Qed.

Lemma Assign_well_formed k v m :
  well_formed m →
  2 * Z.of_nat (length (GetAll m)) ≤ bucket_limit →
  ∃ m', Assign k v m = Some m' ∧ well_formed m' ∧ 1 ≤ capacity m'
    ∧ (∀ hash, lookup_hash hash m'
               = absorb (λ h, lookup_hash h m) (mkKeyValuePair k v) hash)
    ∧ (length (GetAll m') ≤ S (length (GetAll m)))%nat.
Proof.
  intros Hwf Hmax.
  destruct (Assign_with_spec no_throw Resize false k v m Hwf Hmax)
    as (m' & v' & Ha & Hwf' & Hc' & Hlen & Hv & _).
  { intros n Hn. by apply Resize_spec. }
  exists m'. unfold Assign, Assign_e. by rewrite Ha.
Qed.

Lemma Reserve_well_formed n m :
  well_formed m →
  Z.max n 1 ≤ bucket_limit →
  2 * Z.of_nat (length (GetAll m)) ≤ bucket_limit →
  ∃ m', Reserve n m = Some (m', None) ∧ well_formed m'
    ∧ ∀ hash, lookup_hash hash m' = lookup_hash hash m.
Proof.
  intros Hwf Hn Hmax. unfold Reserve. destruct (m_Size m <? n); [|by exists m].
  destruct (Resize_spec no_throw n m Hwf Hn Hmax) as (m' & Hr & Hwf' & _ & Hv & _).
  by exists m'.
Qed.

Lemma Remove_well_formed k m result m' :
  well_formed m → Remove k m = Defined (result, m') → well_formed m'.
Proof.
  intros Hwf. unfold Remove.
  destruct (Z.eqb_spec (capacity m) 0) as [|Hc]; [done|].
  assert (Hc1 : 1 ≤ capacity m) by (pose proof (capacity_nonneg m); lia).
  pose proof (bucket_index_lt (GetHashcode k) m Hc1) as Hi.
  destruct (erase_in_bucket _ _) as [bucket'|] eqn:He; [|by intros [= _ <-]].
  intros [= _ <-].
  destruct (erase_in_bucket_Some _ _ _ He) as (before & kvp & after & Hb & -> & _ & _).
  destruct Hwf as [Hp Hd Hn].
  set (m' := mkHashmap _ _).
  assert (Hperm : GetAll m ≡ₚ kvp :: GetAll m').
  { unfold m'. rewrite GetAll_insert, (GetAll_split m _ Hi), Hb by done.
    rewrite <- !app_assoc. simpl.
    rewrite <- Permutation_middle. by rewrite <- Permutation_middle. }
  split.
  - apply placed_insert; [done|]. intros x Hx. apply (placed_bucket m); [done..|].
    rewrite Hb. apply elem_of_app in Hx as [Hx|Hx]; apply elem_of_app; [by left|].
    right. by right.
  - unfold distinct in *. rewrite Hperm in Hd. simpl in Hd. by apply NoDup_cons in Hd as [_ ?].
  - unfold counted in *. change (m_Size m') with (SizeT.wrap (m_Size m - 1)).
    rewrite Hn, Hperm. simpl.
    unfold SizeT.wrap. rewrite Zminus_mod_idemp_l. f_equal. lia.
Qed.

(** The constructor from a list of pairs (of at most half of
    [bucket_limit] pairs): for each hash the first key and the last
    value. *)
Lemma Hashmap_items_spec (items : list KVP) (c : Z) :
  2 * Z.of_nat (length items) ≤ bucket_limit →
  ∃ m, Hashmap_items items c = Some m ∧ well_formed m ∧ 1 ≤ capacity m
    ∧ ∀ hash, lookup_hash hash m = foldl absorb no_view items hash.
Proof.
  intros Hmax. unfold Hashmap_items.
  set (m0 := mkHashmap (replicate _ []) 0).
  assert (Hwf0 : well_formed m0) by apply well_formed_replicate.
  assert (Hc0 : 1 ≤ capacity m0).
  { unfold capacity, m0. simpl. rewrite length_replicate.
    destruct (Z.ltb_spec c 1); lia. }
  assert (Hv0 : ∀ hash, lookup_hash hash m0 = no_view hash).
  { intros hash. unfold lookup_hash, m0. by rewrite GetAll_replicate. }
  assert (Hlen0 : 2 * Z.of_nat (length (GetAll m0) + length items) ≤ bucket_limit).
  { unfold m0. rewrite GetAll_replicate. simpl. lia. }
  clear Hmax. revert Hwf0 Hc0 Hv0 Hlen0. generalize m0 no_view. clear m0.
  induction items as [|item rest IH]; intros m0 view Hwf0 Hc0 Hv0 Hlen0; simpl.
  - by exists m0.
  - simpl in Hlen0.
    destruct (Assign_well_formed (first item) (second item) m0 Hwf0 ltac:(lia))
      as (m1 & -> & Hwf1 & Hc1 & Hv1 & Hlen1).
    apply IH; [done..| |lia]. intros hash. rewrite Hv1. destruct item.
    by apply absorb_ext.
Qed.

Lemma foldl_absorb_other (view : Z → option KVP) (l : list KVP) hash :
  hash ∉ hash_of <$> l → foldl absorb view l hash = view hash.
Proof.
  revert view. induction l as [|kvp l IH]; intros view Hnot; simpl; [done|].
  apply not_elem_of_cons in Hnot as [Hne Hnot]. rewrite IH by done.
  unfold absorb. by destruct (Z.eqb_spec (GetHashcode (first kvp)) hash).
Qed.

(** Of the pairs with one hash, the value of the last is the one that
    [Get] finds after construction. *)
Lemma Hashmap_items_last_wins (before after : list KVP) (last : KVP) (c : Z) k :
  2 * Z.of_nat (length (before ++ last :: after)) ≤ bucket_limit →
  GetHashcode k = GetHashcode (first last) →
  GetHashcode k ∉ hash_of <$> after →
  ∃ m, Hashmap_items (before ++ last :: after) c = Some m
       ∧ Get k m = Some (second last).
Proof.
  intros Hmax Hk Hafter.
  destruct (Hashmap_items_spec (before ++ last :: after) c Hmax)
    as (m & Hm & Hwf & Hc & Hv).
  exists m. split; [done|].
  rewrite Get_lookup_hash, Hv by (done || apply Hwf).
  rewrite foldl_app. simpl. rewrite foldl_absorb_other by done.
  unfold absorb. rewrite Hk, Z.eqb_refl. simpl. by destruct (foldl _ _ _ _).
Qed.

(** Without [Reserve] and [Trim] the number of buckets never goes down:
    [Add] and [Assign] keep or raise it, [Remove] keeps it, and a
    [Reserve] of at least the current number, and at most [bucket_limit],
    keeps or raises it. (The table holds at most half of [bucket_limit]
    entries.) *)
Lemma capacity_never_decreases k v m :
  well_formed m →
  2 * Z.of_nat (length (GetAll m)) ≤ bucket_limit →
  (∃ result m', Add k v m = Some (result, m') ∧ capacity m ≤ capacity m')
  ∧ (∃ m', Assign k v m = Some m' ∧ capacity m ≤ capacity m')
  ∧ (∀ result m', Remove k m = Defined (result, m') → capacity m' = capacity m)
  ∧ (∀ n, capacity m ≤ n → Z.max n 1 ≤ bucket_limit →
       ∃ m', Reserve n m = Some (m', None) ∧ capacity m ≤ capacity m').
Proof.
  intros Hwf Hmax.
  pose proof bucket_limit_bounds as [_ Hmax2].
  assert (Hlim : 2 * Z.of_nat (length (GetAll m)) < SizeT.modulus) by lia.
  destruct (grow_if_full_spec Resize m Hwf Hmax)
    as (m1 & Hgrow & Hwf1 & Hc1 & _ & _ & _ & _ & Hv & Hcap).
  { intros n Hn. by apply Resize_spec. }
  specialize (Hcap Hlim). split_and!.
  - destruct (Add_e_spec no_throw k v m Hwf Hmax) as (m1_ & Hgrow_ & _ & _ & _ & _ & Ha).
    assert (m1_ = m1) as -> by congruence.
    unfold Add. rewrite Ha. destruct (lookup_hash _ _); simpl; eexists _, _; (split; [done|]).
    + done.
    + unfold appended. by rewrite capacity_insert.
  - destruct (Assign_with_spec no_throw Resize false k v m Hwf Hmax)
      as (m' & v' & Ha & _ & _ & _ & _ & Hcap').
    { intros n Hn. by apply Resize_spec. }
    exists m'. unfold Assign, Assign_e. rewrite Ha. split; [done|]. by apply Hcap'.
  - intros result m'. unfold Remove. destruct (capacity m =? 0); [done|].
    destruct (erase_in_bucket _ _); intros [= _ <-]; [|done]. by rewrite capacity_insert.
  - intros n Hn Hreq. unfold Reserve. destruct (m_Size m <? n); [|by exists m].
    destruct (Resize_spec no_throw n m Hwf Hreq Hmax) as (m' & Hr & _ & _ & _ & Hcap').
    exists m'. split; [done|]. specialize (Hcap' Hlim). lia.
Qed.


End Preservation.

(** ** The claims of the specification *)

Section Claims.

Context {Tk Tv : Type} `{!StdHash Tk} `{!Element Tk Tv} {Allocator0 : Allocator}.

Local Abbreviation KVP := (KeyValuePair Tk Tv).
Local Abbreviation Map := (Hashmap Tk Tv).
Local Abbreviation hash_of := (λ kvp : KVP, GetHashcode (first kvp)).

Implicit Types (bucket : list KVP) (kvp : KVP) (m : Map) (hash : Z).

(** C3. [ContainsKey] and [Remove] take the hash modulo the number of
    buckets without checking that there is a bucket: on a table whose
    bucket vector is empty, and so on any table right after [Clear], both
    divide by zero, whatever the key. [Get] and [Return] check first:
    [Get] answers [std::nullopt] and [Return] throws. *)
Theorem ContainsKey_Remove_divide_by_zero (count : Z) (m : Map) (k : Tk) :
  m_Buckets (Clear m) = []
  ∧ ContainsKey k (Clear m) = Undefined
  ∧ Remove k (Clear m) = Undefined
  ∧ let no_buckets : Map := mkHashmap [] count in
    ContainsKey k no_buckets = Undefined
    ∧ Remove k no_buckets = Undefined
    ∧ Get k no_buckets = None
    ∧ Return k no_buckets = inr std_exception.
Proof. by split_and!. Qed.

(** C9. On a table with at least one bucket, [Remove] returns true
    exactly when the scan of the addressed bucket finds an entry whose
    hash matches. It then erases that one entry, the first match, and
    nothing else, subtracts one from the count and leaves the number of
    buckets alone; when nothing matches it returns false and the table is
    unchanged. When the addressed bucket holds no two entries with the
    same hash, [ContainsKey] is false afterwards and a second [Remove]
    returns false. *)
Theorem Remove_erases_one (k : Tk) (m : Map) :
  1 ≤ capacity m →
  let hash := GetHashcode k in
  let i := bucket_index hash m in
  match find (hash_matches hash) (bucket_at m i) with
  | None => Remove k m = Defined (false, m)
  | Some kvp =>
      ∃ before after,
        bucket_at m i = before ++ kvp :: after
        ∧ find (hash_matches hash) before = None
        ∧ let m' := mkHashmap (<[i := before ++ after]> (m_Buckets m))
                              (SizeT.wrap (m_Size m - 1)) in
          Remove k m = Defined (true, m')
          ∧ capacity m' = capacity m
          ∧ size m' = SizeT.wrap (size m - 1)
          ∧ (0 < size m < SizeT.modulus → size m' = size m - 1)
          ∧ (NoDup (hash_of <$> bucket_at m i) →
             ContainsKey k m' = Defined false
             ∧ Remove k m' = Defined (false, m'))
  end.
Proof.
  intros Hc hash i. unfold Remove. fold hash. fold i.
  destruct (Z.eqb_spec (capacity m) 0) as [|_]; [lia|].
  destruct (erase_in_bucket hash (bucket_at m i)) as [bucket'|] eqn:He.
  - destruct (erase_in_bucket_Some _ _ _ He) as (before & kvp & after & Hb & -> & Hm & Hnone).
    rewrite Hb, find_app, Hnone. simpl. rewrite Hm.
    exists before, after. split; [done|]. split; [done|]. simpl.
    assert (Hi : (i < length (m_Buckets m))%nat) by by apply bucket_index_lt.
    split; [done|]. split; [by rewrite capacity_insert|]. split; [done|].
    split; [intros ?; unfold size in *; simpl; apply wrap_small; lia|].
    intros Hnd. rewrite fmap_app, fmap_cons in Hnd.
    apply NoDup_app in Hnd as (_ & Hdisj & [Hk _]%NoDup_cons).
    assert (Hgone : find (hash_matches hash) (before ++ after) = None).
    { rewrite find_app, Hnone. apply find_None_iff. apply Z.eqb_eq in Hm. by rewrite <- Hm. }
    apply Remove_absent; [by rewrite capacity_insert|].
    rewrite bucket_index_insert. fold hash. fold i.
    unfold bucket_at. simpl. by rewrite list_lookup_total_insert_eq.
  - apply erase_in_bucket_None in He. by rewrite He.
Qed.


(** C10. [Assign] upserts. Let [m1] be the table after the resize check
    (the table itself when it is not full, else the resized table, with
    the same entries by hash and the same count). When the addressed
    bucket of [m1] has an entry whose hash matches, the first such entry
    keeps its key and place and gets the new value, and the count is
    unchanged; otherwise the new entry is appended to that bucket and the
    count goes up by one. [Get] then yields the value, and a second
    [Assign] of the same key and value leaves [size()] unchanged and
    [Get] still yields the value. (No copy throws; the table is
    well-formed: every entry in the bucket its hash addresses, no two
    entries with one hash, the count equal to the number of entries; and
    it holds fewer than half of [bucket_limit] entries.) *)
Theorem Assign_upserts (k : Tk) (v : Tv) (m : Map) :
  (∀ (k : Tk) (v : Tv), copy_throws k v = None) →
  well_formed m →
  2 * Z.of_nat (length (GetAll m)) + 2 ≤ bucket_limit →
  ∃ m1 m' m'',
    grow_if_full Resize m = Some (m1, None)
    ∧ size m1 = size m
    ∧ (∀ hash, lookup_hash hash m1 = lookup_hash hash m)
    ∧ Assign k v m = Some m'
    ∧ (let i := bucket_index (GetHashcode k) m1 in
       match find (hash_matches (GetHashcode k)) (bucket_at m1 i) with
       | Some old =>
           ∃ before after,
             bucket_at m1 i = before ++ old :: after
             ∧ find (hash_matches (GetHashcode k)) before = None
             ∧ m_Buckets m'
               = <[i := before ++ mkKeyValuePair (first old) v :: after]>
                   (m_Buckets m1)
             ∧ size m' = size m
       | None =>
           m_Buckets m'
           = <[i := bucket_at m1 i ++ [mkKeyValuePair k v]]> (m_Buckets m1)
           ∧ size m' = SizeT.wrap (size m + 1)
       end)
    ∧ Get k m' = Some v
    ∧ Assign k v m' = Some m''
    ∧ size m'' = size m'
    ∧ Get k m'' = Some v.
Proof.
  intros no_throw Hwf Hmax.
  assert (Hmax0 : 2 * Z.of_nat (length (GetAll m)) ≤ bucket_limit) by lia.
  destruct (Assign_e_spec no_throw k v m Hwf Hmax0)
    as (m1 & m' & Hgrow & Ha & Hwf' & Hc' & Hm' & Hv').
  destruct (grow_if_full_Resize no_throw m Hwf Hmax0)
    as (m1_ & Hgrow_ & _ & _ & _ & _ & Hsz1 & _ & Hv1).
  assert (m1_ = m1) as -> by congruence.
  assert (Hmax' : 2 * Z.of_nat (length (GetAll m')) ≤ bucket_limit).
  { destruct (Assign_well_formed no_throw k v m Hwf Hmax0) as (m'_ & Ha_ & _ & _ & _ & Hlen).
    unfold Assign in Ha_. rewrite Ha in Ha_. simpl in Ha_. injection Ha_ as <-. lia. }
  destruct (Assign_e_spec no_throw k v m' Hwf' Hmax')
    as (m2 & m'' & Hgrow2 & Ha2 & Hwf'' & Hc'' & Hm'' & Hv'').
  destruct (grow_if_full_Resize no_throw m' Hwf' Hmax')
    as (m2_ & Hgrow2_ & Hwf2 & Hc2 & _ & _ & Hsz2 & _ & Hv2).
  assert (m2_ = m2) as -> by congruence.
  assert (Hfound : ∃ kvp, lookup_hash (GetHashcode k) m' = Some kvp ∧ second kvp = v).
  { rewrite Hv'. unfold absorb. simpl. rewrite Z.eqb_refl.
    destruct (lookup_hash (GetHashcode k) m); eauto. }
  destruct Hfound as (kvp & Hkvp & Hval).
  exists m1, m', m''. unfold Assign, size. rewrite Ha, Ha2. simpl.
  split_and!; try done.
  - destruct (find _ _) as [old|] eqn:Hf.
    + destruct (assign_in_bucket_split _ v _ _ Hf) as (before & after & Hb & Hnone & Hab).
      rewrite Hab in Hm'. exists before, after. subst m'. simpl. by rewrite Hsz1.
    + apply (assign_in_bucket_None _ v) in Hf. rewrite Hf in Hm'. subst m'. simpl.
      by rewrite Hsz1.
  - rewrite Get_lookup_hash, Hkvp by (done || apply Hwf'). simpl. by f_equal.
  - rewrite <- Hv2, lookup_hash_placed in Hkvp by (done || apply Hwf2).
    destruct (assign_in_bucket_split _ v _ _ Hkvp) as (before & after & _ & _ & Hab).
    rewrite Hab in Hm''. subst m''. simpl. by rewrite Hsz2.
  - rewrite Get_lookup_hash, Hv'' by (done || apply Hwf''). unfold absorb. simpl.
    rewrite Z.eqb_refl. simpl. by destruct (lookup_hash _ _).
Qed.

(** C7. [Add] never overwrites. After an [Add] of a key that returned
    true on a well-formed table (every entry in the bucket its hash
    addresses, no two entries with one hash, the count equal to the
    number of entries) of fewer than half of [bucket_limit] entries, a
    second [Add] of that key (no copy throwing) finds an entry with the
    hash in the addressed bucket, returns false and inserts nothing: the
    count, the number of entries and every entry by hash are as they
    were (the table itself, when it is not full), and [Get] yields the
    first value before and after. *)
Theorem Add_never_overwrites (k : Tk) (v1 v2 : Tv) (m m1 : Map) :
  (∀ (k : Tk) (v : Tv), copy_throws k v = None) →
  well_formed m →
  2 * Z.of_nat (length (GetAll m)) + 2 ≤ bucket_limit →
  Add k v1 m = Some (true, m1) →
  ∃ m2,
    Add k v2 m1 = Some (false, m2)
    ∧ existsb (hash_matches (GetHashcode k))
              (bucket_at m2 (bucket_index (GetHashcode k) m2)) = true
    ∧ size m2 = size m1
    ∧ length (GetAll m2) = length (GetAll m1)
    ∧ (∀ hash, lookup_hash hash m2 = lookup_hash hash m1)
    ∧ (size m1 < capacity m1 → m2 = m1)
    ∧ Get k m1 = Some v1
    ∧ Get k m2 = Some v1.
Proof.
  intros no_throw Hwf Hmax Hadd.
  assert (Hmax0 : 2 * Z.of_nat (length (GetAll m)) ≤ bucket_limit) by lia.
  destruct (Add_e_spec no_throw k v1 m Hwf Hmax0) as (g & Hgrow & Hwfg & Hcg & Hvg & _ & Ha).
  destruct (grow_if_full_Resize no_throw m Hwf Hmax0)
    as (g_ & Hgrow_ & _ & _ & _ & Hleng & _).
  assert (g_ = g) as -> by congruence.
  unfold Add in Hadd. rewrite Ha in Hadd.
  destruct (lookup_hash (GetHashcode k) m) eqn:Hfresh; [done|].
  simpl in Hadd. injection Hadd as <-.
  rewrite <- Hvg in Hfresh.
  pose proof (appended_well_formed k v1 g Hwfg Hcg Hfresh) as Hwf1.
  assert (Hk1 : lookup_hash (GetHashcode k) (appended k v1 g) = Some (mkKeyValuePair k v1)).
  { rewrite appended_lookup by done. unfold absorb. simpl. by rewrite Z.eqb_refl, Hfresh. }
  assert (Hc1 : 1 ≤ capacity (appended k v1 g)).
  { unfold appended. by rewrite capacity_insert. }
  assert (Hmax1 : 2 * Z.of_nat (length (GetAll (appended k v1 g))) ≤ bucket_limit).
  { rewrite (appended_GetAll k v1 g Hcg). simpl. lia. }
  destruct (Add_e_spec no_throw k v2 _ Hwf1 Hmax1)
    as (m2 & Hgrow2 & Hwf2 & Hc2 & Hv2 & Hsz2 & Ha2).
  destruct (grow_if_full_Resize no_throw _ Hwf1 Hmax1)
    as (m2_ & Hgrow2_ & _ & _ & _ & Hlen2 & _ & Hsame & _).
  assert (m2_ = m2) as -> by congruence.
  rewrite Hk1 in Ha2. exists m2. unfold Add. rewrite Ha2. simpl.
  split_and!; try done.
  - by rewrite existsb_find, <- lookup_hash_placed, Hv2, Hk1 by (done || apply Hwf2).
  - by rewrite Get_lookup_hash, Hk1 by (done || apply Hwf1).
  - by rewrite Get_lookup_hash, Hv2, Hk1 by (done || apply Hwf2).
Qed.


(** C2, as the code has it. Every table built from a constructor by
    operations other than [Clear] has at least one bucket, whatever the
    copies throw. [Clear] leaves the count 0 and no bucket at all, not a
    single empty bucket; the next [Add] or [Assign] first grows the
    cleared table to one bucket and leaves at least one. *)
Theorem capacity_positive_except_Clear
    (with_Trim : bool) (k : Tk) (v : Tv) (m : Map) :
  built with_Trim false m →
  1 ≤ capacity m
  ∧ (size (Clear m) = 0 ∧ m_Buckets (Clear m) = [] ∧ capacity (Clear m) = 0)
  ∧ (∃ result m' e, Add_e k v (Clear m) = Some (result, m', e)
                    ∧ 1 ≤ capacity m')
  ∧ (∃ m' e, Assign_e k v (Clear m) = Some (m', e) ∧ 1 ≤ capacity m').
Proof.
  intros Hbuilt. destruct (built_safe _ _ Hbuilt) as [Hc _].
  assert (Hclear : 0 ≤ m_Size (Clear m) < SizeT.modulus) by done.
  split_and!; try done.
  - destruct (Add_e_safe k v (Clear m) Hclear) as (r & s' & e & Ha & Hc' & _).
    + intros n. apply Resize_safe.
    + by exists r, s', e.
  - destruct (Assign_with_safe Resize false k v (Clear m) Hclear)
      as (s' & v' & e & Ha & Hc' & _).
    + intros n. apply Resize_safe.
    + exists s', e. unfold Assign_e. by rewrite Ha.
Qed.

End Claims.

(** ** Instances of the claims that have hypotheses *)

Lemma Remove_erases_one_witness :
  1 ≤ capacity one_two_three
  ∧ let hash := GetHashcode 1 in
    let i := bucket_index hash one_two_three in
    match find (hash_matches hash) (bucket_at one_two_three i) with
    | None => Remove 1 one_two_three = Defined (false, one_two_three)
    | Some kvp =>
        ∃ before after,
          bucket_at one_two_three i = before ++ kvp :: after
          ∧ find (hash_matches hash) before = None
          ∧ let m' := mkHashmap (<[i := before ++ after]> (m_Buckets one_two_three))
                                (SizeT.wrap (m_Size one_two_three - 1)) in
            Remove 1 one_two_three = Defined (true, m')
            ∧ capacity m' = capacity one_two_three
            ∧ size m' = SizeT.wrap (size one_two_three - 1)
            ∧ (0 < size one_two_three < SizeT.modulus → size m' = size one_two_three - 1)
            ∧ (NoDup ((λ kvp, GetHashcode (first kvp)) <$> bucket_at one_two_three i) →
               ContainsKey 1 m' = Defined false
               ∧ Remove 1 m' = Defined (false, m'))
    end.
Proof.
  assert (H : 1 ≤ capacity one_two_three) by (vm_compute; discriminate).
  split; [exact H | exact (Remove_erases_one 1 one_two_three H)].
Defined.


Lemma Assign_upserts_witness :
  (∀ (k : Z) (v : string), copy_throws k v = None)
  ∧ well_formed one_two_three
  ∧ 2 * Z.of_nat (length (GetAll one_two_three)) + 2 ≤ bucket_limit
  ∧ ∃ m1 m' m'',
      grow_if_full Resize one_two_three = Some (m1, None)
      ∧ size m1 = size one_two_three
      ∧ (∀ hash, lookup_hash hash m1 = lookup_hash hash one_two_three)
      ∧ Assign 1 "New One" one_two_three = Some m'
      ∧ (let i := bucket_index (GetHashcode 1) m1 in
         match find (hash_matches (GetHashcode 1)) (bucket_at m1 i) with
         | Some old =>
             ∃ before after,
               bucket_at m1 i = before ++ old :: after
               ∧ find (hash_matches (GetHashcode 1)) before = None
               ∧ m_Buckets m'
                 = <[i := before ++ mkKeyValuePair (first old) "New One" :: after]>
                     (m_Buckets m1)
               ∧ size m' = size one_two_three
         | None =>
             m_Buckets m'
             = <[i := bucket_at m1 i ++ [mkKeyValuePair 1 "New One"]]> (m_Buckets m1)
             ∧ size m' = SizeT.wrap (size one_two_three + 1)
         end)
      ∧ Get 1 m' = Some "New One"
      ∧ Assign 1 "New One" m' = Some m''
      ∧ size m'' = size m'
      ∧ Get 1 m'' = Some "New One".
Proof.
  assert (H1 : ∀ (k : Z) (v : string), copy_throws k v = None) by reflexivity.
  assert (H2 : well_formed one_two_three)
    by (apply well_formed_b_sound; vm_compute; reflexivity).
  assert (H3 : 2 * Z.of_nat (length (GetAll one_two_three)) + 2 ≤ bucket_limit)
    by (vm_compute; discriminate).
  exact (conj H1 (conj H2 (conj H3
           (Assign_upserts 1 "New One" one_two_three H1 H2 H3)))).
Defined.

Lemma Add_never_overwrites_witness :
  (∀ (k : Z) (v : string), copy_throws k v = None)
  ∧ well_formed (Hashmap_capacity 1 : Hashmap Z string)
  ∧ 2 * Z.of_nat (length (GetAll (Hashmap_capacity 1 : Hashmap Z string))) + 2
    ≤ bucket_limit
  ∧ Add 1 "One" (Hashmap_capacity 1) = Some (true, mkHashmap [[entry 1 "One"]] 1)
  ∧ ∃ m2,
      Add 1 "Duplicate" (mkHashmap [[entry 1 "One"]] 1) = Some (false, m2)
      ∧ existsb (hash_matches (GetHashcode 1))
                (bucket_at m2 (bucket_index (GetHashcode 1) m2)) = true
      ∧ size m2 = size (mkHashmap [[entry 1 "One"]] 1)
      ∧ length (GetAll m2) = length (GetAll (mkHashmap [[entry 1 "One"]] 1))
      ∧ (∀ hash, lookup_hash hash m2
                 = lookup_hash hash (mkHashmap [[entry 1 "One"]] 1))
      ∧ (size (mkHashmap [[entry 1 "One"]] 1)
         < capacity (mkHashmap [[entry 1 "One"]] 1) →
         m2 = mkHashmap [[entry 1 "One"]] 1)
      ∧ Get 1 (mkHashmap [[entry 1 "One"]] 1) = Some "One"
      ∧ Get 1 m2 = Some "One".
Proof.
  assert (H1 : ∀ (k : Z) (v : string), copy_throws k v = None) by reflexivity.
  assert (H2 : well_formed (Hashmap_capacity 1 : Hashmap Z string))
    by (apply well_formed_b_sound; vm_compute; reflexivity).
  assert (H3 : 2 * Z.of_nat (length (GetAll (Hashmap_capacity 1 : Hashmap Z string))) + 2
               ≤ bucket_limit) by (vm_compute; discriminate).
  assert (H4 : Add 1 "One" (Hashmap_capacity 1)
               = Some (true, mkHashmap [[entry 1 "One"]] 1)) by reflexivity.
  exact (conj H1 (conj H2 (conj H3 (conj H4
           (Add_never_overwrites 1 "One" "Duplicate" _ _ H1 H2 H3 H4))))).
Defined.

Lemma capacity_positive_except_Clear_witness :
  built true false (Hashmap_capacity 1 : Hashmap Z string)
  ∧ 1 ≤ capacity (Hashmap_capacity 1 : Hashmap Z string)
  ∧ (size (Clear (Hashmap_capacity 1 : Hashmap Z string)) = 0
     ∧ m_Buckets (Clear (Hashmap_capacity 1 : Hashmap Z string)) = []
     ∧ capacity (Clear (Hashmap_capacity 1 : Hashmap Z string)) = 0)
  ∧ (∃ result m' e,
       Add_e 4 "Four" (Clear (Hashmap_capacity 1)) = Some (result, m', e)
       ∧ 1 ≤ capacity m')
  ∧ (∃ m' e,
       Assign_e 4 "Four" (Clear (Hashmap_capacity 1)) = Some (m', e)
       ∧ 1 ≤ capacity m').
Proof.
  assert (H : built true false (Hashmap_capacity 1 : Hashmap Z string))
    by (apply built_capacity; lia).
  exact (conj H (capacity_positive_except_Clear true 4 "Four" _ H)).
Defined.

(** ** The scenario of [tests/basic.cpp] *)

Example basic_tests :
  ∃ m1 m2 m3 m4 m5,
    Add 1 "One" (Hashmap_capacity 1) = Some (true, m1)
    ∧ Add 2 "Two" m1 = Some (true, m2)
    ∧ Add 3 "Three" m2 = Some (true, m3)
    ∧ m3 = one_two_three
    ∧ size m3 = 3
    ∧ ContainsKey 1 m3 = Defined true
    ∧ ContainsKey 2 m3 = Defined true
    ∧ ContainsKey 3 m3 = Defined true
    ∧ Get 1 m3 = Some "One"
    ∧ Get 2 m3 = Some "Two"
    ∧ Get 3 m3 = Some "Three"
    ∧ Assign 1 "New One" m3 = Some m4
    ∧ Get 1 m4 = Some "New One"
    ∧ size m4 = 3
    ∧ Remove 1 m4 = Defined (true, m5)
    ∧ ContainsKey 1 m5 = Defined false
    ∧ size m5 = 2
    ∧ size (Clear m5) = 0.
Proof. do 5 eexists. split_and!; reflexivity. Qed.

(** ** Where the code and the specification part *)

(** C2, as the specification states it, fails: [Clear] on the default
    table leaves no bucket, so the number of buckets is zero, not one. *)
Lemma Clear_leaves_no_bucket :
  let m : Hashmap Z string := Clear (Hashmap_capacity 1) in
  capacity m = 0
  ∧ ¬ (1 ≤ capacity m ∧ size m = 0 ∧ m_Buckets m = [[]]).
Proof. split; [reflexivity|]. intros (Hc & _). vm_compute in Hc. by apply Hc. Qed.

(** C7, as the specification states it, fails on a table that [Trim]
    has shortened. [Hashmap(4)], [Add(6,"a")], [Add(5,"x")] and [Trim()]
    leave three buckets with the entry of key 6 in bucket 2, where
    [6 % 3 = 0] does not look. [Add(6,"b")] then returns true and
    [Get(6)] yields "b". [Add(6,"c")] returns false, but the resize that
    opens it merges the two entries of key 6: [size()] goes from 3 to 2
    and [Get(6)] yields "a". *)
Lemma Add_overwrites_after_Trim :
  ∃ m1 m2 : Hashmap Z string,
    (s1 ← Add 6 "a" (Hashmap_capacity 4);
     s2 ← Add 5 "x" s1.2;
     Add 6 "b" (Trim s2.2)) = Some (true, m1)
    ∧ Get 6 m1 = Some "b"
    ∧ Add 6 "c" m1 = Some (false, m2)
    ∧ size m1 = 3 ∧ size m2 = 2
    ∧ Get 6 m2 = Some "a"
    ∧ ¬ (size m2 = size m1 ∧ Get 6 m2 = Get 6 m1).
Proof.
  do 2 eexists. split_and!; [vm_compute; reflexivity..|].
  intros [H _]. by vm_compute in H.
Qed.


(** C10, as the specification states it, fails after [Trim] too.
    [Hashmap(4)], [Add(6,"a")], [Trim()], [Add(6,"b")] leave two entries
    of key 6 in three buckets. [Assign(7,"v")] appends and makes the
    table full, [size()] is 3; the same [Assign] again resizes first,
    which merges the two entries of key 6, and then overwrites:
    [size()] is 2. *)
Lemma Assign_twice_changes_size_after_Trim :
  ∃ m m' m'' : Hashmap Z string,
    (s1 ← Add 6 "a" (Hashmap_capacity 4);
     Add 6 "b" (Trim s1.2)) = Some (true, m)
    ∧ m_Buckets m = [[entry 6 "b"]; []; [entry 6 "a"]]
    ∧ Assign 7 "v" m = Some m'
    ∧ Assign 7 "v" m' = Some m''
    ∧ size m' = 3 ∧ size m'' = 2
    ∧ size m'' ≠ size m'.
Proof. do 3 eexists. split_and!; [vm_compute; reflexivity..|]. by vm_compute. Qed.

(** C1. A re-insertion that throws makes [Resize] put the buckets back,
    but not the count. The table holds three entries in four buckets;
    under [throwing_element] the operations of the interface build it.
    [Reserve(8)] resizes, the copy of the second entry throws after
    [m_Size++], the [catch] clause restores [m_Buckets] to the snapshot
    and leaves [m_Size] at 2: [size()] was 3 before the call. *)
Theorem Resize_rollback_loses_count :
  (m1 ← Add (Element0 := throwing_element) 1 "One" (Hashmap_capacity 1);
   m2 ← Add (Element0 := throwing_element) 2 "2" m1.2;
   m3 ← Add (Element0 := throwing_element) 3 "Three" m2.2;
   Assign (Element0 := throwing_element) 2 "Two" m3.2) = Some one_two_three
  ∧ well_formed one_two_three
  ∧ size one_two_three = 3
  ∧ Reserve (Element0 := throwing_element) 8 one_two_three
    = Resize (Element0 := throwing_element) 8 one_two_three
  ∧ Resize (Element0 := throwing_element) 8 one_two_three
    = Some (mkHashmap (m_Buckets one_two_three) 2, None).
Proof.
  split_and!; try reflexivity.
  apply well_formed_b_sound. vm_compute. reflexivity.
Qed.

(** The snapshot itself is not safe from [Resize]: when it holds two
    entries with one hash (in different buckets, as [Trim] can bring
    about), the second is moved into the first, and a rollback puts back
    the moved-from value. *)
Lemma Resize_rollback_moved_value :
  Resize (Element0 := throwing_element) 8
    (mkHashmap [[]; [entry 5 "a"]; [entry 5 "b"]; [entry 3 "Two"]] 3)
  = Some (mkHashmap [[]; [entry 5 "a"]; [entry 5 ""]; [entry 3 "Two"]] 2, None).
Proof. reflexivity. Qed.

(** An exception that is not derived from [std::exception] passes the
    [catch] clause of [Resize]: there is no rollback at all, the
    exception leaves [Reserve], and the table stays as the failed
    rebuild left it, with one entry of three. *)
Lemma Resize_without_rollback :
  Reserve (Element0 := throwing_other_element) 8 one_two_three
  = Some (mkHashmap [[]; [entry 1 "One"]; []; []; []; []; []; []] 2,
          Some other_exception).
Proof. reflexivity. Qed.

(** No copy needs to throw for the count to be lost. When the buckets
    that are asked for cannot be allocated, [m_Buckets.resize] throws
    inside the [try] block, after [m_Size = 0U], and the [catch] clause
    puts back the buckets only: with memory for four buckets,
    [Reserve(8)] leaves [size()] at 0 and three entries in the table,
    and so does [Reserve(2^63)], a request above [max_size()], with any
    memory. *)
Lemma Resize_cannot_allocate :
  Reserve (Allocator0 := scarce_memory) 8 one_two_three
  = Some (mkHashmap (m_Buckets one_two_three) 0, None)
  ∧ ∀ memory : Allocator,
      Reserve (Allocator0 := memory) (2 ^ 63) one_two_three
      = Some (mkHashmap (m_Buckets one_two_three) 0, None).
Proof.
  split; [vm_compute; reflexivity|]. intros memory.
  pose proof (bucket_limit_max_size (Allocator0 := memory)) as Hlimit.
  assert (SizeT.max_size < 2 ^ 63) by (by vm_compute).
  unfold Reserve, Resize. change (m_Size one_two_three <? 2 ^ 63) with true. cbv iota.
  apply Resize_fuel_cannot_allocate. lia.
Qed.

(** C4. The constructor from a list of pairs inserts with [Assign], so a
    later pair with the same hash overwrites the value of an earlier one:
    the last occurrence wins, not the first. *)
Theorem Hashmap_items_last_value_wins :
  let m : Hashmap Z string :=
    mkHashmap [[]; [entry 1 "second"]] 1 in
  Hashmap_items [entry 1 "first"; entry 1 "second"] 0 = Some m
  ∧ Get 1 m = Some "second"
  ∧ Get 1 m ≠ Some "first".
Proof. by split_and!. Qed.

(** C5. [Trim] erases the one bucket at [trimStart], not every bucket
    from there on: of three empty buckets two are left, not one. And
    since the entries are not re-addressed for the new number of buckets,
    an entry can be lost to [Get]: hash 5 is in bucket 1 of four, and is
    looked for in bucket 2 of three. *)
Theorem Trim_erases_a_single_bucket :
  let empty3 : Hashmap Z string := Hashmap_capacity 3 in
  let m : Hashmap Z string := mkHashmap [[]; [entry 5 "Five"]; []; []] 1 in
  capacity (Trim empty3) = 2
  ∧ Add 5 "Five" (Hashmap_capacity 4) = Some (true, m)
  ∧ Get 5 m = Some "Five"
  ∧ Trim m = mkHashmap [[]; [entry 5 "Five"]; []] 1
  ∧ Get 5 (Trim m) = None.
Proof. by split_and!. Qed.

(** C6. [Reserve] resizes whenever the count is below the request, also
    when the request is below the number of buckets: a table of eight
    buckets with one entry is rebuilt with two. *)
Theorem Reserve_shrinks :
  let m : Hashmap Z string :=
    mkHashmap [[]; [entry 1 "One"]; []; []; []; []; []; []] 1 in
  Add 1 "One" (Hashmap_capacity 8) = Some (true, m)
  ∧ capacity m = 8
  ∧ Reserve 2 m = Some (mkHashmap [[]; [entry 1 "One"]] 1, None)
  ∧ capacity (mkHashmap [[]; [entry 1 "One"]] 1 : Hashmap Z string) = 2.
Proof. by split_and!. Qed.

(** * Further properties of the interface *)

Section Interface.

Context {Tk Tv : Type} `{!StdHash Tk} `{!Element Tk Tv} {Allocator0 : Allocator}.

Local Abbreviation KVP := (KeyValuePair Tk Tv).
Local Abbreviation Map := (Hashmap Tk Tv).
Local Abbreviation hash_of := (λ kvp : KVP, GetHashcode (first kvp)).
Local Abbreviation no_view := (λ _ : Z, None : option KVP).

Implicit Types (bucket : list KVP) (kvp : KVP) (m : Map) (hash : Z).

(** ** Lookup *)

Lemma no_buckets m : capacity m = 0 → m_Buckets m = [].
Proof. unfold capacity. destruct (m_Buckets m); simpl; [done|lia]. Qed.

(** [Get] is the lookup by hash, also on a table without buckets. *)
Lemma Get_lookup k m :
  placed m → Get k m = second <$> lookup_hash (GetHashcode k) m.
Proof.
  intros Hp. destruct (Z.eqb_spec (capacity m) 0) as [Hc|Hc].
  - unfold Get, lookup_hash, GetAll.
    by rewrite (proj2 (Z.eqb_eq _ _) Hc), (no_buckets m Hc).
  - apply Get_lookup_hash; [done|]. pose proof (capacity_nonneg m). lia.
Qed.

(** The key is used through its hash only. *)
Lemma Get_hash k k' m : GetHashcode k = GetHashcode k' → Get k m = Get k' m.
Proof. unfold Get. by intros ->. Qed.

Lemma hashes_of_Keys m : GetHashcode <$> Keys m = hash_of <$> GetAll m.
Proof. unfold Keys. by rewrite <- list_fmap_compose. Qed.

(** Two tables without repeated hashes that hold the same entries for a
    hash answer the same for it. *)
Lemma lookup_hash_same_entries m1 m2 hash :
  distinct m1 → distinct m2 →
  (∀ kvp, GetHashcode (first kvp) = hash → kvp ∈ GetAll m1 ↔ kvp ∈ GetAll m2) →
  lookup_hash hash m1 = lookup_hash hash m2.
Proof.
  intros Hd1 Hd2 Hsame.
  destruct (lookup_hash hash m1) as [x|] eqn:H1.
  - apply find_Some_hash in H1 as [Hin Hh]. apply (Hsame x Hh) in Hin.
    rewrite <- Hh. symmetry. by apply lookup_hash_distinct.
  - destruct (lookup_hash hash m2) as [y|] eqn:H2; [|done].
    apply find_Some_hash in H2 as [Hin Hh]. apply (Hsame y Hh) in Hin.
    apply (lookup_hash_distinct m1 y Hd1) in Hin. congruence.
Qed.

(** ** Remove *)

Lemma Remove_spec k m :
  well_formed m → 1 ≤ capacity m →
  ∃ m', Remove k m = Defined (optional_ref.has_value (Get k m), m')
    ∧ well_formed m' ∧ capacity m' = capacity m
    ∧ lookup_hash (GetHashcode k) m' = None
    ∧ (∀ hash, hash ≠ GetHashcode k → lookup_hash hash m' = lookup_hash hash m)
    ∧ size m' = (if optional_ref.has_value (Get k m)
                 then SizeT.wrap (size m - 1) else size m)
    ∧ length (GetAll m)
      = (if optional_ref.has_value (Get k m)
         then S (length (GetAll m')) else length (GetAll m')).
Proof.
  intros Hwf Hc.
  pose proof (bucket_index_lt (GetHashcode k) m Hc) as Hi.
  destruct (Remove k m) as [[result m']|] eqn:HR; unfold Remove in HR;
    destruct (Z.eqb_spec (capacity m) 0) as [|_]; try lia; try done.
  2: { by destruct (erase_in_bucket _ _). }
  pose proof HR as HR'.
  destruct (erase_in_bucket _ _) as [bucket'|] eqn:He; injection HR as <- <-.
  - destruct (erase_in_bucket_Some _ _ _ He) as (before & kvp & after & Hb & -> & Hk & Hbefore).
    assert (HG : Get k m = Some (second kvp)).
    { unfold Get. destruct (Z.eqb_spec (capacity m) 0) as [|_]; [lia|].
      by rewrite Hb, find_app, Hbefore; simpl; rewrite Hk. }
    rewrite HG. simpl. eexists. split; [done|].
    set (m' := mkHashmap _ _).
    assert (Hwf' : well_formed m').
    { apply (Remove_well_formed k m true m' Hwf). unfold Remove.
      destruct (Z.eqb_spec (capacity m) 0) as [|_]; [lia|]. by rewrite He. }
    assert (Hperm : GetAll m ≡ₚ kvp :: GetAll m').
    { unfold m'. rewrite GetAll_insert, (GetAll_split m _ Hi), Hb by done.
      rewrite <- !app_assoc. simpl.
      rewrite <- Permutation_middle. by rewrite <- Permutation_middle. }
    apply Z.eqb_eq in Hk.
    assert (Hnot : GetHashcode k ∉ hash_of <$> GetAll m').
    { destruct Hwf as [_ Hd _]. unfold distinct in Hd. rewrite Hperm in Hd.
      simpl in Hd. apply NoDup_cons in Hd as [Hd _]. by rewrite <- Hk. }
    split_and!; try done.
    + unfold m'. by rewrite capacity_insert.
    + by apply lookup_hash_None.
    + intros hash Hne. apply lookup_hash_same_entries; [apply Hwf'|apply Hwf|].
      intros x Hx. rewrite Hperm, elem_of_cons. split; [by right|].
      intros [->|?]; [congruence|done].
    + by rewrite Hperm.
  - apply erase_in_bucket_None in He.
    assert (HG : Get k m = None).
    { unfold Get. destruct (Z.eqb_spec (capacity m) 0) as [|_]; [lia|]. by rewrite He. }
    rewrite HG. simpl. exists m. split_and!; try done.
    rewrite lookup_hash_placed by (done || apply Hwf). done.
Qed.

(** ** Add and Assign when no copy throws *)

Lemma Add_spec k v m :
  (∀ (k : Tk) (v : Tv), copy_throws k v = None) →
  well_formed m →
  2 * Z.of_nat (length (GetAll m)) ≤ bucket_limit →
  ∃ m', Add k v m = Some (negb (optional_ref.has_value (Get k m)), m')
    ∧ well_formed m' ∧ 1 ≤ capacity m'
    ∧ (∀ hash, lookup_hash hash m'
               = if optional_ref.has_value (Get k m) then lookup_hash hash m
                 else absorb (λ h, lookup_hash h m) (mkKeyValuePair k v) hash)
    ∧ size m' = (if optional_ref.has_value (Get k m)
                 then size m else SizeT.wrap (size m + 1))
    ∧ (length (GetAll m') ≤ S (length (GetAll m)))%nat.
Proof.
  intros no_throw Hwf Hmax.
  destruct (Add_e_spec no_throw k v m Hwf Hmax) as (m1 & Hgrow & Hwf1 & Hc1 & Hv & Hsz & Ha).
  destruct (grow_if_full_Resize no_throw m Hwf Hmax)
    as (m1_ & Hgrow_ & _ & _ & _ & Hlen & _).
  assert (m1_ = m1) as -> by congruence.
  unfold Add. rewrite Ha, (Get_lookup k m) by apply Hwf.
  destruct (lookup_hash (GetHashcode k) m) eqn:Hl; simpl.
  - exists m1. split_and!; try done. lia.
  - rewrite <- Hv in Hl. eexists. split; [done|]. split_and!.
    + by apply appended_well_formed.
    + unfold appended. by rewrite capacity_insert.
    + intros hash. rewrite appended_lookup by done. by apply absorb_ext.
    + unfold size, appended. simpl. by rewrite Hsz.
    + rewrite (appended_GetAll k v m1 Hc1). simpl. lia.
Qed.

Lemma absorb_same (view : Z → option KVP) k v :
  second <$> absorb view (mkKeyValuePair k v) (GetHashcode k) = Some v.
Proof. unfold absorb. simpl. rewrite Z.eqb_refl. by destruct (view _). Qed.

Lemma absorb_other (view : Z → option KVP) k v hash :
  hash ≠ GetHashcode k → absorb view (mkKeyValuePair k v) hash = view hash.
Proof.
  intros Hne. unfold absorb. simpl.
  by destruct (Z.eqb_spec (GetHashcode k) hash).
Qed.

Lemma Assign_spec k v m :
  (∀ (k : Tk) (v : Tv), copy_throws k v = None) →
  well_formed m →
  2 * Z.of_nat (length (GetAll m)) ≤ bucket_limit →
  ∃ m', Assign k v m = Some m' ∧ well_formed m' ∧ 1 ≤ capacity m'
    ∧ (∀ hash, lookup_hash hash m'
               = absorb (λ h, lookup_hash h m) (mkKeyValuePair k v) hash)
    ∧ size m' = (if optional_ref.has_value (Get k m)
                 then size m else SizeT.wrap (size m + 1)).
Proof.
  intros no_throw Hwf Hmax.
  destruct (Assign_e_spec no_throw k v m Hwf Hmax)
    as (m1 & m' & Hgrow & Ha & Hwf' & Hc' & Hm' & Hv').
  destruct (grow_if_full_Resize no_throw m Hwf Hmax)
    as (m1_ & Hgrow_ & Hwf1 & Hc1 & _ & _ & Hsz & _ & Hv1).
  assert (m1_ = m1) as -> by congruence.
  exists m'. unfold Assign. rewrite Ha. split_and!; try done.
  rewrite (Get_lookup k m), <- Hv1, lookup_hash_placed by (done || apply Hwf || apply Hwf1).
  rewrite Hm'.
  destruct (find _ _) as [old|] eqn:Hf; simpl.
  - apply (assign_in_bucket_split _ v) in Hf as (before & after & _ & _ & ->). done.
  - apply (assign_in_bucket_None _ v) in Hf. rewrite Hf.
    unfold size, appended. simpl. by rewrite Hsz.
Qed.

(** ** The load factor *)

Lemma grow_if_full_room (resize : Z → Map → option (Map * exception_ptr)) m :
  m_Size m < capacity m → grow_if_full resize m = Some (m, None).
Proof.
  intros Hroom. unfold grow_if_full.
  destruct (Z.leb_spec (capacity m) (m_Size m)); [lia|done].
Qed.

(** [Assign] on a table with room: no resize, whatever [resize] is. *)
Lemma Assign_with_room (resize : Z → Map → option (Map * exception_ptr))
    by_move k v m :
  copy_throws k v = None →
  well_formed m → m_Size m < capacity m →
  ∃ m' v', Assign_with resize by_move k v m = Some (m', v', None)
    ∧ well_formed m' ∧ capacity m' = capacity m
    ∧ (length (GetAll m') ≤ S (length (GetAll m)))%nat
    ∧ (∀ hash, lookup_hash hash m'
               = absorb (λ h, lookup_hash h m) (mkKeyValuePair k v) hash).
Proof.
  intros Hquiet Hwf Hroom.
  pose proof (well_formed_size_nonneg m Hwf) as Hsz.
  assert (Hc : 1 ≤ capacity m) by lia.
  unfold Assign_with. rewrite grow_if_full_room by done. simpl.
  destruct (assign_in_bucket _ _ _) as [bucket'|] eqn:Ha.
  - eexists _, _. split; [done|].
    split; [by eapply overwritten_well_formed|].
    split; [unfold overwritten; by rewrite capacity_insert|].
    split.
    + rewrite <- (length_fmap first), (overwritten_keys k v) by done.
      rewrite length_fmap. lia.
    + intros hash. by rewrite (overwritten_lookup k v).
  - rewrite Hquiet. apply assign_in_bucket_None in Ha.
    rewrite <- lookup_hash_placed in Ha by (done || apply Hwf).
    eexists _, _. split; [done|].
    split; [by apply appended_well_formed|].
    split; [unfold appended; by rewrite capacity_insert|].
    split.
    + rewrite (appended_GetAll k v m Hc). simpl. lia.
    + intros hash. by rewrite appended_lookup.
Qed.

(** [Resize] to a number of buckets that is not below the number of
    entries: no nested resize, the table has exactly that many buckets. *)
Lemma Resize_exact n m :
  (∀ (k : Tk) (v : Tv), copy_throws k v = None) →
  Z.max n 1 ≤ bucket_limit →
  Z.of_nat (length (GetAll m)) ≤ Z.max n 1 →
  ∃ m', Resize n m = Some (m', None) ∧ well_formed m'
    ∧ capacity m' = Z.max n 1
    ∧ ∀ hash, lookup_hash hash m' = foldl absorb no_view (GetAll m) hash.
Proof.
  intros no_throw Hn Hfit. unfold Resize. rewrite Resize_fuel_allocates by done.
  set (fuel := length (GetAll m)).
  set (cleared := mkHashmap (replicate _ []) 0).
  pose (I := λ (done : list KVP) (s : Map),
          well_formed s ∧ capacity s = Z.max n 1
          ∧ (length (GetAll s) ≤ length done)%nat
          ∧ ∀ hash, lookup_hash hash s = foldl absorb no_view done hash).
  destruct (reinsert_inv (Assign_with (Resize_fuel fuel) true) I
              (length (GetAll m))) with (cpy := m_Buckets m) (done := @nil KVP) (m := cleared)
    as (cpy' & m' & -> & Hwf' & Hc' & _ & Hv').
  - intros done kvp s Hdone (Hwf & Hc & Hlen & Hv).
    destruct (Assign_with_room (Resize_fuel fuel) true (first kvp) (second kvp) s)
      as (s' & v' & Ha & Hwf' & Hc' & Hlen' & Hv'); [done..| |].
    { destruct Hwf as [_ _ ->].
      pose proof (wrap_le (Z.of_nat (length (GetAll s))) ltac:(lia)). lia. }
    exists s', v'. split; [done|]. unfold I. split_and!; try done.
    + congruence.
    + rewrite length_app. simpl. lia.
    + intros hash. rewrite Hv', foldl_snoc. destruct kvp. by apply absorb_ext.
  - simpl. unfold GetAll. lia.
  - unfold I; split_and!.
    + apply well_formed_replicate.
    + unfold capacity, cleared. simpl. rewrite length_replicate.
      destruct (Z.ltb_spec 0 n); lia.
    + unfold cleared. by rewrite GetAll_replicate.
    + intros hash. unfold lookup_hash, cleared. by rewrite GetAll_replicate.
  - simpl. exists m'. unfold GetAll in *. done.
Qed.

(** The resize check on a well-formed table with no more entries than
    buckets: when the table is full, the doubled number of buckets is
    allocated and holds every entry without a nested resize, or it is
    above [bucket_limit] and the buckets are put back with the count at
    zero. Either way there is room afterwards. *)
Lemma grow_if_full_load m :
  (∀ (k : Tk) (v : Tv), copy_throws k v = None) →
  well_formed m →
  size m ≤ capacity m →
  2 * Z.of_nat (length (GetAll m)) < SizeT.modulus →
  ∃ m1, grow_if_full Resize m = Some (m1, None)
    ∧ 0 ≤ m_Size m1 < capacity m1
    ∧ m_Size m1 ≤ m_Size m
    ∧ (m_Size m < capacity m → m1 = m)
    ∧ (capacity m ≤ m_Size m → 2 * capacity m ≤ bucket_limit →
       capacity m1 = Z.max (2 * capacity m) 1).
Proof.
  intros no_throw Hwf Hload Hlim. unfold size in Hload.
  pose proof (well_formed_size_nonneg m Hwf) as Hnn.
  pose proof (capacity_nonneg m) as Hcnn.
  pose proof bucket_limit_bounds as [Hmax1 Hmax2].
  destruct (Z.leb_spec (capacity m) (m_Size m)) as [Hfull|Hroom].
  2: { exists m. rewrite grow_if_full_room by done. split_and!; try done; lia. }
  unfold grow_if_full. rewrite (proj2 (Z.leb_le _ _) Hfull).
  assert (Hsz : m_Size m = Z.of_nat (length (GetAll m))).
  { destruct Hwf as [_ _ ->]. apply wrap_small. lia. }
  assert (Hn : SizeT.wrap (capacity m * 2) = 2 * capacity m).
  { rewrite wrap_small by lia. lia. }
  rewrite Hn.
  destruct (Z.le_gt_cases (Z.max (2 * capacity m) 1) bucket_limit) as [Hreq|Hreq].
  - destruct (Resize_exact (2 * capacity m) m no_throw Hreq ltac:(lia))
      as (m1 & -> & Hwf1 & Hc1 & Hv1).
    assert (Hlen : length (GetAll m1) = length (GetAll m)).
    { apply same_view_length; [apply Hwf1|apply Hwf|]. intros hash.
      by rewrite Hv1, (foldl_absorb_distinct (GetAll m)) by apply Hwf. }
    assert (Hsz1 : m_Size m1 = m_Size m).
    { destruct Hwf1 as [_ _ ->], Hwf as [_ _ ->]. by rewrite Hlen. }
    exists m1. rewrite Hsz1, Hc1. split_and!; try done; lia.
  - unfold Resize. rewrite Resize_fuel_cannot_allocate by done.
    eexists. split; [done|]. unfold capacity in *. simpl. split_and!; lia.
Qed.

(** A table and a list with the same entries by hash have the same
    number of them. *)
Lemma view_length m (l : list KVP) :
  distinct m → NoDup (hash_of <$> l) →
  (∀ hash, lookup_hash hash m = find (hash_matches hash) l) →
  length (GetAll m) = length l.
Proof.
  intros Hd Hnd Hv.
  rewrite <- (length_fmap hash_of (GetAll m)), <- (length_fmap hash_of l).
  apply Permutation_length, NoDup_Permutation; [done..|].
  intros hash. specialize (Hv hash).
  destruct (decide (hash ∈ hash_of <$> GetAll m)) as [Hin|Hin],
           (decide (hash ∈ hash_of <$> l)) as [Hin'|Hin']; try tauto.
  - apply find_None_iff in Hin'. rewrite <- Hv in Hin'.
    by apply lookup_hash_None in Hin'.
  - apply lookup_hash_None in Hin. rewrite Hv in Hin.
    by apply find_None_iff in Hin.
Qed.

(** The loop of the constructor from a list of pairs, on a table that
    has room for all of them: no resize. *)
Lemma Hashmap_items_room (items : list KVP) : ∀ (m0 : Map) (view : Z → option KVP),
  (∀ (k : Tk) (v : Tv), copy_throws k v = None) →
  well_formed m0 →
  Z.of_nat (length (GetAll m0) + length items) ≤ capacity m0 →
  (∀ hash, lookup_hash hash m0 = view hash) →
  ∃ m, foldl (λ acc item, m ← acc; Assign (first item) (second item) m)
             (Some m0) items = Some m
    ∧ well_formed m ∧ capacity m = capacity m0
    ∧ ∀ hash, lookup_hash hash m = foldl absorb view items hash.
Proof.
  induction items as [|item rest IH]; intros m0 view no_throw Hwf0 Hfit Hv0; simpl.
  - by exists m0.
  - destruct (Assign_with_room Resize false (first item) (second item) m0)
      as (m1 & v' & Ha & Hwf1 & Hc1 & Hlen1 & Hv1); [done..| |].
    { destruct Hwf0 as [_ _ ->].
      pose proof (wrap_le (Z.of_nat (length (GetAll m0))) ltac:(lia)).
      simpl in Hfit. lia. }
    unfold Assign at 2, Assign_e. rewrite Ha. simpl.
    destruct (IH m1 (absorb view item) no_throw Hwf1) as (m & Hm & Hwf & Hc & Hv).
    + simpl in Hfit. lia.
    + intros hash. rewrite Hv1. destruct item. by apply absorb_ext.
    + exists m. split_and!; try done. congruence.
Qed.

(** ** Trim *)

Lemma trim_scan_snoc (buckets : list (list KVP)) (b : list KVP) : ∀ i trimStart,
  trim_scan (buckets ++ [b]) i trimStart
  = if (length b =? 0)%nat then trim_scan buckets i trimStart
    else S (i + length buckets).
Proof.
  induction buckets as [|x rest IH]; intros i t; simpl.
  - destruct (length b =? 0)%nat; [done|lia].
  - rewrite IH. destruct (length b =? 0)%nat; [done|lia].
Qed.

(** ** Iteration *)

(** The search of [operator++] for the next bucket that is not empty
    skips no entry and ends within [m_Buckets]. *)
Lemma next_bucket_spec (buckets : list (list KVP)) : ∀ gap outer,
  (outer + gap = length buckets)%nat →
  ∃ outer' inner,
    next_bucket buckets gap outer = Defined (outer', inner)
    ∧ concat (drop outer buckets) = concat (drop outer' buckets)
    ∧ ((outer' = length buckets ∧ inner = singular)
       ∨ (inner = position 0
          ∧ ∃ kvp bucket, buckets !! outer' = Some (kvp :: bucket))).
Proof.
  induction gap as [|gap IH]; intros outer Hgap; simpl.
  - exists outer, singular. split_and!; try done. left. split; [lia|done].
  - destruct (lookup_lt_is_Some_2 buckets outer ltac:(lia)) as [b Hb].
    rewrite Hb. destruct b as [|kvp b].
    + destruct (IH (S outer) ltac:(lia)) as (outer' & inner & -> & Hcat & Hend).
      exists outer', inner. split_and!; try done.
      by rewrite (drop_S _ _ _ Hb).
    + exists outer, (position 0). split_and!; try done. right. split; [done|].
      by exists kvp, b.
Qed.

(** From a position that can be dereferenced, the loop of a range-based
    [for] visits the rest of the bucket and all later buckets. *)
Lemma visit_spec (buckets : list (list KVP)) : ∀ fuel outer offset bucket,
  buckets !! outer = Some bucket →
  (offset < length bucket)%nat →
  (length (drop offset bucket ++ concat (drop (S outer) buckets)) < fuel)%nat →
  visit buckets fuel
        (mk_const_iterator outer (length buckets) (position offset))
        (mk_const_iterator (length buckets) (length buckets) singular)
  = Some (Defined (drop offset bucket ++ concat (drop (S outer) buckets))).
Proof.
  induction fuel as [|fuel IH]; intros outer offset bucket Hb Hoff Hfuel; [lia|].
  pose proof (lookup_lt_Some _ _ _ Hb) as Houter.
  destruct (lookup_lt_is_Some_2 bucket offset Hoff) as [kvp Hkvp].
  rewrite (drop_S _ _ _ Hkvp) in Hfuel |- *.
  set (it := mk_const_iterator outer _ _). set (last := mk_const_iterator (length buckets) _ _).
  assert (Hneq : iterator_neq it last = Defined true).
  { unfold iterator_neq, iterator_eq, it, last. cbn [m_Outer m_Outer_End m_Inner].
    destruct (Nat.eqb_spec outer (length buckets)); [lia|done]. }
  assert (Hderef : dereference buckets it = Defined kvp).
  { unfold dereference, it. cbn [m_Outer m_Inner]. rewrite Hb.
    change (Some bucket ≫= (.!! offset)) with (bucket !! offset). by rewrite Hkvp. }
  assert (Hlast : last = mk_const_iterator (length buckets) (length buckets) singular)
    by done.
  cbn [visit]. rewrite Hneq, Hderef.
  unfold increment, it. cbn [m_Outer m_Outer_End m_Inner]. rewrite Hb.
  destruct (Nat.ltb_spec offset (length bucket)) as [_|]; [|lia].
  destruct (Nat.eqb_spec (S offset) (length bucket)) as [Hend|Hmore].
  - destruct (Nat.leb_spec (S outer) (length buckets)) as [_|]; [|lia].
    destruct (next_bucket_spec buckets (length buckets - S outer) (S outer) ltac:(lia))
      as (outer' & inner & -> & Hcat & Hstop).
    assert (Hnil : drop (S offset) bucket = []) by (apply drop_ge; lia).
    rewrite Hnil in Hfuel |- *. rewrite Hcat in Hfuel |- *.
    destruct Hstop as [[-> ->]|[-> (kvp' & bucket' & Hb')]].
    + rewrite drop_all. destruct fuel as [|fuel]; [simpl in Hfuel; lia|].
      cbn [visit]. fold last.
      assert (Hstop : iterator_neq last last = Defined false).
      { unfold iterator_neq, iterator_eq, last. cbn [m_Outer m_Outer_End m_Inner].
        by rewrite Nat.eqb_refl. }
      by rewrite Hstop.
    + rewrite (drop_S _ _ _ Hb') in Hfuel |- *.
      unfold last. rewrite (IH outer' 0%nat (kvp' :: bucket') Hb' ltac:(simpl; lia)); [done|].
      simpl in Hfuel |- *. lia.
  - unfold last. rewrite (IH outer (S offset) bucket Hb ltac:(lia)); [done|].
    simpl in Hfuel. lia.
Qed.

(** ** What a user of the table can rely on *)

(** X1. On a well-formed table [Get] yields a value exactly when the
    table holds an entry with the hash of the key and that value, and
    [std::nullopt] exactly when no stored key has the hash. *)
Theorem Get_finds_what_is_stored (k : Tk) (m : Map) :
  well_formed m →
  (∀ v, Get k m = Some v
        ↔ ∃ kvp, kvp ∈ GetAll m
                 ∧ GetHashcode (first kvp) = GetHashcode k ∧ second kvp = v)
  ∧ (Get k m = None ↔ GetHashcode k ∉ GetHashcode <$> Keys m).
Proof.
  intros [Hp Hd _]. rewrite (Get_lookup k m Hp). split.
  - intros v. split.
    + destruct (lookup_hash _ m) as [kvp|] eqn:Hl; [|done]. simpl. intros [= <-].
      apply find_Some_hash in Hl as [Hin Hh]. by exists kvp.
    + intros (kvp & Hin & Hh & <-).
      by rewrite <- Hh, (lookup_hash_distinct m kvp).
  - rewrite hashes_of_Keys, <- lookup_hash_None. apply fmap_None.
Qed.

(** X2. On a table with at least one bucket the four ways to look a key
    up agree: [ContainsKey] is true exactly when [Get] has a value, and
    [Return] and [operator[]] yield that value, or throw exactly when
    [ContainsKey] is false, as [value()] on the result of [Get] does. *)
Theorem ContainsKey_Get_Return_agree (k : Tk) (m : Map) :
  1 ≤ capacity m →
  ContainsKey k m = Defined (optional_ref.has_value (Get k m))
  ∧ Return k m = optional_ref.value (Get k m)
  ∧ subscript k m = optional_ref.value (Get k m)
  ∧ (ContainsKey k m = Defined false ↔ Return k m = inr std_exception).
Proof.
  intros Hc. unfold subscript, Return, ContainsKey, Get.
  destruct (Z.eqb_spec (capacity m) 0) as [|_]; [lia|]. rewrite existsb_find.
  destruct (find _ _); simpl; split_and!; try done; split; done.
Qed.

(** X3. Keys are told apart by their hash alone, never compared. On a
    well-formed table of fewer than half of [bucket_limit] entries, no copy
    throwing: once [Add] has inserted [k1], any key [k2] with the same
    hash is that entry: [Get] and [ContainsKey] find it, [Add] of [k2] is
    refused, and [Assign] of [k2] replaces the value of [k1], whose key
    stays. *)
Theorem keys_with_one_hash_are_one_key (k1 k2 : Tk) (v1 v2 : Tv) (m m1 : Map) :
  (∀ (k : Tk) (v : Tv), copy_throws k v = None) →
  well_formed m →
  2 * Z.of_nat (length (GetAll m)) + 2 ≤ bucket_limit →
  GetHashcode k1 = GetHashcode k2 →
  Add k1 v1 m = Some (true, m1) →
  Get k2 m1 = Some v1
  ∧ ContainsKey k2 m1 = Defined true
  ∧ (∃ m2, Add k2 v2 m1 = Some (false, m2)
           ∧ Get k1 m2 = Some v1 ∧ Get k2 m2 = Some v1)
  ∧ (∃ m3, Assign k2 v2 m1 = Some m3
           ∧ Get k1 m3 = Some v2
           ∧ lookup_hash (GetHashcode k2) m3 = Some (mkKeyValuePair k1 v2)).
Proof.
  intros no_throw Hwf Hmax Hh HAdd.
  destruct (Add_spec k1 v1 m no_throw Hwf ltac:(lia))
    as (m1_ & HAdd_ & Hwf1 & Hc1 & Hv1 & _ & Hlen1).
  rewrite HAdd in HAdd_. injection HAdd_ as Habsent <-.
  assert (Hmax1 : 2 * Z.of_nat (length (GetAll m1)) ≤ bucket_limit) by lia.
  destruct (optional_ref.has_value (Get k1 m)) eqn:Hhas; [done|].
  assert (Hnone : lookup_hash (GetHashcode k1) m = None).
  { rewrite (Get_lookup k1 m) in Hhas by apply Hwf.
    by destruct (lookup_hash (GetHashcode k1) m). }
  assert (Hl1 : lookup_hash (GetHashcode k1) m1 = Some (mkKeyValuePair k1 v1)).
  { rewrite Hv1. unfold absorb. simpl. by rewrite Z.eqb_refl, Hnone. }
  assert (HG : Get k2 m1 = Some v1).
  { rewrite <- (Get_hash k1 k2) by done.
    by rewrite (Get_lookup k1 m1), Hl1 by apply Hwf1. }
  split_and!; try done.
  - rewrite ContainsKey_lookup_hash by (done || apply Hwf1).
    by rewrite <- Hh, Hl1.
  - destruct (Add_spec k2 v2 m1 no_throw Hwf1 Hmax1) as (m2 & HAdd2 & Hwf2 & _ & Hv2 & _).
    rewrite HG in HAdd2, Hv2. simpl in HAdd2, Hv2.
    exists m2. split; [done|].
    assert (Get k1 m2 = Some v1)
      by (by rewrite (Get_lookup k1 m2), Hv2, Hl1 by apply Hwf2).
    split; [done|]. by rewrite <- (Get_hash k1 k2).
  - destruct (Assign_spec k2 v2 m1 no_throw Hwf1 Hmax1) as (m3 & HA & Hwf3 & _ & Hv3 & _).
    exists m3. split; [done|].
    assert (Hl3 : lookup_hash (GetHashcode k2) m3 = Some (mkKeyValuePair k1 v2)).
    { rewrite Hv3. unfold absorb. simpl. by rewrite Z.eqb_refl, <- Hh, Hl1. }
    split; [|done].
    by rewrite (Get_lookup k1 m3), Hh, Hl3 by apply Hwf3.
Qed.

(** X4. [Add] on a well-formed table of at most half of [bucket_limit]
    entries, no copy throwing, returns true exactly when [Get] had no
    value for the key. Afterwards [Get] yields the value that was there,
    or else the new one; the count goes up by one only in the second
    case, and keys with other hashes are as they were. *)
Theorem Add_returns_whether_absent (k : Tk) (v : Tv) (m : Map) :
  (∀ (k : Tk) (v : Tv), copy_throws k v = None) →
  well_formed m →
  2 * Z.of_nat (length (GetAll m)) ≤ bucket_limit →
  ∃ m', Add k v m = Some (negb (optional_ref.has_value (Get k m)), m')
    ∧ well_formed m'
    ∧ Get k m' = Some (optional_ref.value_or (Get k m) v)
    ∧ (∀ k', GetHashcode k' ≠ GetHashcode k → Get k' m' = Get k' m)
    ∧ size m' = (if optional_ref.has_value (Get k m)
                 then size m else SizeT.wrap (size m + 1)).
Proof.
  intros no_throw Hwf Hmax.
  destruct (Add_spec k v m no_throw Hwf Hmax) as (m' & HAdd & Hwf' & _ & Hv & Hsz & _).
  exists m'. split_and!; try done.
  - rewrite (Get_lookup k m'), Hv, (Get_lookup k m) by (apply Hwf || apply Hwf').
    destruct (lookup_hash (GetHashcode k) m) eqn:Hl; simpl.
    + done.
    + apply absorb_same.
  - intros k' Hne.
    rewrite (Get_lookup k' m'), Hv, (Get_lookup k' m) by (apply Hwf || apply Hwf').
    destruct (optional_ref.has_value (Get k m)); [done|]. by rewrite absorb_other.
Qed.

(** X5. [Assign] on a well-formed table of at most half of [bucket_limit]
    entries, no copy throwing: [Get] yields the new value, keys with
    other hashes are as they were, and the key that is stored for the
    hash is the one that was there before, if there was one. *)
Theorem Assign_leaves_other_keys (k : Tk) (v : Tv) (m : Map) :
  (∀ (k : Tk) (v : Tv), copy_throws k v = None) →
  well_formed m →
  2 * Z.of_nat (length (GetAll m)) ≤ bucket_limit →
  ∃ m', Assign k v m = Some m'
    ∧ well_formed m'
    ∧ Get k m' = Some v
    ∧ (∀ k', GetHashcode k' ≠ GetHashcode k → Get k' m' = Get k' m)
    ∧ lookup_hash (GetHashcode k) m'
      = Some (mkKeyValuePair
                (match lookup_hash (GetHashcode k) m with
                 | Some old => first old
                 | None => k
                 end) v)
    ∧ size m' = (if optional_ref.has_value (Get k m)
                 then size m else SizeT.wrap (size m + 1)).
Proof.
  intros no_throw Hwf Hmax.
  destruct (Assign_spec k v m no_throw Hwf Hmax) as (m' & HA & Hwf' & _ & Hv & Hsz).
  exists m'. split_and!; try done.
  - rewrite (Get_lookup k m'), Hv by apply Hwf'. apply absorb_same.
  - intros k' Hne.
    rewrite (Get_lookup k' m'), Hv, (Get_lookup k' m) by (apply Hwf || apply Hwf').
    by rewrite absorb_other.
  - rewrite Hv. unfold absorb. simpl. rewrite Z.eqb_refl.
    by destruct (lookup_hash (GetHashcode k) m).
Qed.

(** X6. [Remove] on a well-formed table with at least one bucket returns
    whether [Get] had a value for the key. Afterwards [Get] has none,
    keys with other hashes are as they were, the number of buckets is the
    same and the table is still well formed. *)
Theorem Remove_leaves_other_keys (k : Tk) (m : Map) :
  well_formed m →
  1 ≤ capacity m →
  ∃ m', Remove k m = Defined (optional_ref.has_value (Get k m), m')
    ∧ well_formed m'
    ∧ Get k m' = None
    ∧ (∀ k', GetHashcode k' ≠ GetHashcode k → Get k' m' = Get k' m)
    ∧ capacity m' = capacity m.
Proof.
  intros Hwf Hc.
  destruct (Remove_spec k m Hwf Hc) as (m' & HR & Hwf' & Hc' & Hnone & Hv & _).
  exists m'. split_and!; try done.
  - by rewrite (Get_lookup k m'), Hnone by apply Hwf'.
  - intros k' Hne.
    by rewrite (Get_lookup k' m'), Hv, (Get_lookup k' m) by (done || apply Hwf || apply Hwf').
Qed.

(** X7. On a well-formed table of at most half of [bucket_limit] entries,
    no copy throwing, adding a key that is not in the table and removing
    it again gives back the table as far as [Get] and [size] can tell
    (the number of buckets may have grown). *)
Theorem Add_then_Remove_restores (k : Tk) (v : Tv) (m : Map) :
  (∀ (k : Tk) (v : Tv), copy_throws k v = None) →
  well_formed m →
  2 * Z.of_nat (length (GetAll m)) ≤ bucket_limit →
  Get k m = None →
  ∃ m1 m2, Add k v m = Some (true, m1)
    ∧ Remove k m1 = Defined (true, m2)
    ∧ well_formed m2
    ∧ size m2 = size m
    ∧ ∀ k', Get k' m2 = Get k' m.
Proof.
  intros no_throw Hwf Hmax Habsent.
  destruct (Add_spec k v m no_throw Hwf Hmax) as (m1 & HAdd & Hwf1 & Hc1 & Hv1 & Hsz1 & _).
  rewrite Habsent in HAdd, Hv1, Hsz1. simpl in HAdd, Hv1, Hsz1.
  assert (HG1 : Get k m1 = Some v).
  { rewrite (Get_lookup k m1), Hv1 by apply Hwf1. apply absorb_same. }
  destruct (Remove_spec k m1 Hwf1 Hc1) as (m2 & HR & Hwf2 & _ & Hnone & Hv2 & Hsz2 & _).
  rewrite HG1 in HR, Hsz2. simpl in HR, Hsz2.
  exists m1, m2. split_and!; try done.
  - rewrite Hsz2, Hsz1. destruct Hwf as [_ _ Hn]. unfold size. rewrite Hn.
    unfold SizeT.wrap. rewrite Zminus_mod_idemp_l, Z.add_simpl_r.
    apply Zmod_mod.
  - intros k'. destruct (decide (GetHashcode k' = GetHashcode k)) as [Heq|Hne].
    + rewrite (Get_hash k' k m2), (Get_hash k' k m) by done.
      by rewrite (Get_lookup k m2), Hnone, Habsent by apply Hwf2.
    + rewrite (Get_lookup k' m2), Hv2, Hv1, absorb_other by (done || apply Hwf2).
      by rewrite (Get_lookup k' m) by apply Hwf.
Qed.

(** X8. On a well-formed table of at most half of [bucket_limit] entries
    [size()] is the number of entries, which is the length of [Keys()],
    [Values()] and [GetAll()]; no two keys are the same or have the same
    hash; and [empty()] is true exactly when there is no entry. The
    constructor with a capacity and [Clear] give a well-formed table,
    and, no copy throwing, [Add], [Assign], [Remove] and a [Reserve] of
    at most [bucket_limit] buckets leave the table well formed. *)
Theorem size_counts_the_entries (k : Tk) (v : Tv) (n : Z) (m : Map) :
  (∀ (k : Tk) (v : Tv), copy_throws k v = None) →
  well_formed m →
  2 * Z.of_nat (length (GetAll m)) ≤ bucket_limit →
  (size m = Z.of_nat (length (GetAll m))
   ∧ length (Keys m) = length (GetAll m)
   ∧ length (Values m) = length (GetAll m)
   ∧ NoDup (GetHashcode <$> Keys m)
   ∧ NoDup (Keys m)
   ∧ (empty m = true ↔ GetAll m = []))
  ∧ well_formed (Hashmap_capacity n : Map)
  ∧ well_formed (Clear m)
  ∧ (∃ result m', Add k v m = Some (result, m') ∧ well_formed m')
  ∧ (∃ m', Assign k v m = Some m' ∧ well_formed m')
  ∧ (∀ result m', Remove k m = Defined (result, m') → well_formed m')
  ∧ (n ≤ bucket_limit →
     ∃ m', Reserve n m = Some (m', None) ∧ well_formed m').
Proof.
  intros no_throw Hwf Hmax.
  pose proof bucket_limit_bounds as [Hmax1 Hmax2].
  pose proof Hwf as [_ Hd Hn].
  assert (Hsz : size m = Z.of_nat (length (GetAll m))).
  { unfold size. rewrite Hn. apply wrap_small. lia. }
  assert (Hhashes : NoDup (GetHashcode <$> Keys m)) by (by rewrite hashes_of_Keys).
  split_and!; try done.
  - unfold Keys. by rewrite length_fmap.
  - unfold Values. by rewrite length_fmap.
  - by apply NoDup_fmap_1 in Hhashes.
  - unfold empty. rewrite Hsz, Z.eqb_eq.
    destruct (GetAll m); simpl; split; (done || lia).
  - apply well_formed_replicate.
  - apply (well_formed_replicate 0).
  - destruct (Add_spec k v m no_throw Hwf Hmax) as (m' & HAdd & Hwf' & _).
    by eexists _, m'.
  - destruct (Assign_spec k v m no_throw Hwf Hmax) as (m' & HA & Hwf' & _).
    by exists m'.
  - intros result m' HR. by apply (Remove_well_formed k m result m').
  - intros Hreq.
    assert (Hreq1 : Z.max n 1 ≤ bucket_limit) by lia.
    destruct (Reserve_well_formed no_throw n m Hwf Hreq1 Hmax) as (m' & HR & Hwf' & _).
    by exists m'.
Qed.


(** X10. [Reserve] on a well-formed table of fewer than 2^64 entries, no
    copy throwing. A request that is not above the count changes
    nothing. A request above the count and of at most [bucket_limit]
    buckets rebuilds the table with exactly that many buckets (more or
    fewer than before), and every key and the count are as they were. A
    request above the count and above [bucket_limit] fails inside
    [Resize]: nothing is reported, the buckets are as they were, and the
    count is zero. *)
Theorem Reserve_sets_capacity (n : Z) (m : Map) :
  (∀ (k : Tk) (v : Tv), copy_throws k v = None) →
  well_formed m →
  Z.of_nat (length (GetAll m)) < SizeT.modulus →
  (n ≤ size m → Reserve n m = Some (m, None))
  ∧ (size m < n ≤ bucket_limit →
     ∃ m', Reserve n m = Some (m', None)
       ∧ well_formed m'
       ∧ capacity m' = n
       ∧ size m' = size m
       ∧ ∀ k, Get k m' = Get k m)
  ∧ (size m < n → bucket_limit < n →
     Reserve n m = Some (mkHashmap (m_Buckets m) 0, None)).
Proof.
  intros no_throw Hwf Hlim. unfold Reserve, size.
  assert (Hsz : m_Size m = Z.of_nat (length (GetAll m))).
  { destruct Hwf as [_ _ ->]. apply wrap_small. lia. }
  split_and!.
  - intros Hle. by destruct (Z.ltb_spec (m_Size m) n) as [Hlt|_]; [lia|].
  - intros [Hlt Hreq]. rewrite (proj2 (Z.ltb_lt _ _) Hlt).
    assert (Hreq1 : Z.max n 1 ≤ bucket_limit) by lia.
    destruct (Resize_exact n m no_throw Hreq1 ltac:(lia))
      as (m' & -> & Hwf' & Hc' & Hv').
    assert (Hv : ∀ hash, lookup_hash hash m' = lookup_hash hash m).
    { intros hash. rewrite Hv'. apply foldl_absorb_distinct, Hwf. }
    exists m'. split_and!; try done.
    + lia.
    + destruct Hwf' as [_ Hd' ->], Hwf as [_ Hd ->]. f_equal. f_equal.
      apply same_view_length; [done..|]. intros hash. by rewrite Hv.
    + intros k.
      by rewrite (Get_lookup k m'), Hv, (Get_lookup k m) by (apply Hwf || apply Hwf').
  - intros Hlt Hreq. rewrite (proj2 (Z.ltb_lt _ _) Hlt).
    unfold Resize. by rewrite Resize_fuel_cannot_allocate by lia.
Qed.

(** X11. The constructor from a list of pairs never resizes when it is
    given no capacity, or one that is not below the number of pairs (no
    copy throwing, and neither the capacity nor the number of pairs
    above [bucket_limit]): the table has [max(items.size(), 1)] buckets,
    or the capacity asked for. When the hashes of the pairs are
    distinct, [size()] is their number and [Get] finds each of them. *)
Theorem Hashmap_items_never_resizes (items : list KVP) (c : Z) :
  (∀ (k : Tk) (v : Tv), copy_throws k v = None) →
  c < 1 ∨ Z.of_nat (length items) ≤ c →
  Z.max (Z.of_nat (length items)) c ≤ bucket_limit →
  ∃ m, Hashmap_items items c = Some m
    ∧ well_formed m
    ∧ capacity m = (if c <? 1 then Z.max (Z.of_nat (length items)) 1 else c)
    ∧ (NoDup (hash_of <$> items) →
       size m = SizeT.wrap (Z.of_nat (length items))
       ∧ ∀ kvp, kvp ∈ items → Get (first kvp) m = Some (second kvp)).
Proof.
  intros no_throw Hc _. unfold Hashmap_items.
  set (auto_capacity := if c <? 1 then _ else _).
  set (m0 := mkHashmap (replicate _ []) 0).
  assert (Hcap0 : capacity m0 = auto_capacity).
  { unfold capacity, m0, auto_capacity. simpl. rewrite length_replicate.
    destruct (Z.ltb_spec c 1); lia. }
  destruct (Hashmap_items_room items m0 no_view no_throw) as (m & -> & Hwf & Hcap & Hv).
  - apply well_formed_replicate.
  - rewrite Hcap0. unfold m0, auto_capacity. rewrite GetAll_replicate. simpl.
    destruct (Z.ltb_spec c 1); lia.
  - intros hash. unfold lookup_hash, m0. by rewrite GetAll_replicate.
  - exists m. split_and!; try done; [congruence|].
    intros Hnd.
    assert (Hfind : ∀ hash, lookup_hash hash m = find (hash_matches hash) items).
    { intros hash. rewrite Hv. by apply foldl_absorb_distinct. }
    split.
    + destruct Hwf as [_ Hd ->]. by rewrite (view_length m items).
    + intros kvp Hin.
      rewrite (Get_lookup (first kvp) m), Hfind by apply Hwf.
      by rewrite (find_NoDup _ _ kvp).
Qed.

(** X12. A well-formed table of at most [bucket_limit] entries can be
    rebuilt from what [GetAll] returns, no copy throwing: the
    constructor from a list of pairs gives a table with the same value
    for every key and the same count, in as many buckets as there are
    entries. *)
Theorem rebuilt_from_GetAll (m : Map) :
  (∀ (k : Tk) (v : Tv), copy_throws k v = None) →
  well_formed m →
  Z.of_nat (length (GetAll m)) ≤ bucket_limit →
  ∃ m', Hashmap_items (GetAll m) 0 = Some m'
    ∧ well_formed m'
    ∧ capacity m' = Z.max (Z.of_nat (length (GetAll m))) 1
    ∧ size m' = size m
    ∧ ∀ k, Get k m' = Get k m.
Proof.
  intros no_throw Hwf _. unfold Hashmap_items. simpl.
  set (m0 := mkHashmap (replicate _ []) 0).
  destruct (Hashmap_items_room (GetAll m) m0 no_view no_throw) as (m' & -> & Hwf' & Hcap & Hv).
  - apply well_formed_replicate.
  - unfold capacity, m0. rewrite GetAll_replicate. simpl. rewrite length_replicate. lia.
  - intros hash. unfold lookup_hash, m0. by rewrite GetAll_replicate.
  - assert (Hsame : ∀ hash, lookup_hash hash m' = lookup_hash hash m).
    { intros hash. rewrite Hv. apply foldl_absorb_distinct, Hwf. }
    exists m'. split_and!; try done.
    + rewrite Hcap. unfold capacity, m0. simpl. rewrite length_replicate. lia.
    + destruct Hwf' as [_ Hd' ->], Hwf as [_ Hd ->]. unfold size. simpl.
      f_equal. f_equal. apply same_view_length; [done..|].
      intros hash. by rewrite Hsame.
    + intros k. by rewrite (Get_lookup k m'), Hsame, (Get_lookup k m) by (apply Hwf || apply Hwf').
Qed.

(** X13. [Trim] changes the table exactly when it has at least two
    buckets and the last one is empty: then one bucket less is left,
    however many empty buckets there are at the end; otherwise the table
    is as it was. The entries, their order and the count never change. *)
Theorem Trim_erases_iff_last_bucket_empty (m : Map) :
  GetAll (Trim m) = GetAll m
  ∧ size (Trim m) = size m
  ∧ match last (m_Buckets m) with
    | Some [] =>
        if 2 <=? capacity m then capacity (Trim m) = capacity m - 1
        else Trim m = m
    | _ => Trim m = m
    end.
Proof.
  destruct (Trim_keeps_entries m) as (HG & Hs & _).
  split; [done|]. split; [done|].
  unfold Trim, capacity. destruct (m_Buckets m) as [|b0 rest] eqn:Hb; [done|].
  destruct rest as [|b1 rest _] using rev_ind.
  - simpl. by destruct b0.
  - rewrite (app_comm_cons rest [b1] b0), last_snoc, <- app_comm_cons.
    change (drop 1 (b0 :: rest ++ [b1])) with (rest ++ [b1]). rewrite trim_scan_snoc.
    pose proof (trim_scan_bounds rest 0 1 ltac:(lia)) as Hbounds.
    assert (Hlen : length (b0 :: rest ++ [b1]) = S (S (length rest)))
      by (simpl; rewrite length_app; simpl; lia).
    rewrite Hlen.
    destruct b1 as [|kvp b1]; simpl length; simpl Nat.eqb; cbv iota.
    + destruct (Z.leb_spec 2 (Z.of_nat (S (S (length rest))))) as [_|]; [|lia].
      destruct (Nat.ltb_spec (trim_scan rest 1 1) (S (S (length rest)))) as [Hlt|]; [|lia].
      simpl m_Buckets. rewrite length_delete; [rewrite Hlen; lia|].
      apply lookup_lt_is_Some_2. lia.
    + destruct (Nat.ltb_spec (S (1 + length rest)) (S (S (length rest)))) as [|_]; [lia|].
      done.
Qed.

(** X14. When the construction of the new entry throws inside [Add] on a
    table with room, [Add] still returns true and the count has gone up
    by one, although nothing was inserted: [Get] has no value for the
    key and the entries are as they were. [Assign] leaves the same
    table. The exception is given to the overloads that take an
    [exception_ptr] and is swallowed by the others. *)
Theorem Add_reports_success_when_copy_throws
    (k : Tk) (v : Tv) (m : Map) (e : exception) :
  0 ≤ size m < capacity m →
  Get k m = None →
  copy_throws k v = Some e →
  let m' := mkHashmap (m_Buckets m) (SizeT.wrap (size m + 1)) in
  Add_e k v m = Some (true, m', Some e)
  ∧ Add k v m = Some (true, m')
  ∧ Assign_e k v m = Some (m', Some e)
  ∧ Assign k v m = Some m'
  ∧ GetAll m' = GetAll m
  ∧ Get k m' = None.
Proof.
  intros Hroom Habsent Hthrows m'. unfold size in *.
  assert (Hfind : find (hash_matches (GetHashcode k))
                    (bucket_at m (bucket_index (GetHashcode k) m)) = None).
  { unfold Get in Habsent. destruct (Z.eqb_spec (capacity m) 0); [lia|].
    by apply fmap_None in Habsent. }
  assert (HAdd : Add_e k v m = Some (true, m', Some e)).
  { unfold Add_e. rewrite grow_if_full_room by lia. simpl.
    by rewrite existsb_find, Hfind, Hthrows. }
  assert (HAssign : Assign_e k v m = Some (m', Some e)).
  { unfold Assign_e, Assign_with. rewrite grow_if_full_room by lia. simpl.
    apply (assign_in_bucket_None _ v) in Hfind. by rewrite Hfind, Hthrows. }
  split_and!; try done.
  - unfold Add. by rewrite HAdd.
  - unfold Assign. by rewrite HAssign.
Qed.

(** X15. After [Clear] the table is empty and has no bucket; the next
    [Add] or [Assign] grows it to one bucket and inserts there, and the
    table can be queried again. *)
Theorem Add_after_Clear (k : Tk) (v : Tv) (m : Map) :
  copy_throws k v = None →
  let single := mkHashmap [[mkKeyValuePair k v]] 1 in
  size (Clear m) = 0
  ∧ empty (Clear m) = true
  ∧ GetAll (Clear m) = []
  ∧ Get k (Clear m) = None
  ∧ Add k v (Clear m) = Some (true, single)
  ∧ Assign k v (Clear m) = Some single
  ∧ Get k single = Some v
  ∧ ContainsKey k single = Defined true.
Proof.
  intros Hquiet single.
  assert (Hgrow : grow_if_full Resize (Clear m) = Some (mkHashmap [[]] 0, None)).
  { pose proof bucket_limit_bounds as [Hone _].
    unfold grow_if_full, Resize. change (capacity (Clear m) <=? m_Size (Clear m)) with true.
    change (SizeT.wrap (capacity (Clear m) * 2)) with 0. cbv iota.
    by rewrite Resize_fuel_allocates by lia. }
  assert (Hi : ∀ count (buckets : list KVP),
            bucket_index (GetHashcode k) (mkHashmap [buckets] count) = 0%nat).
  { intros count buckets. unfold bucket_index, capacity. simpl. by rewrite Z.mod_1_r. }
  split_and!; try done.
  - unfold Add, Add_e. rewrite Hgrow. simpl. rewrite Hi, Hquiet. simpl.
    unfold appended. by rewrite Hi.
  - unfold Assign, Assign_e, Assign_with. rewrite Hgrow. simpl.
    rewrite Hi, Hquiet. simpl. unfold appended. by rewrite Hi.
  - unfold Get, single. simpl. rewrite Hi. simpl.
    unfold hash_matches. simpl. by rewrite Z.eqb_refl.
  - unfold ContainsKey, single. simpl. rewrite Hi. simpl.
    unfold hash_matches. simpl. by rewrite Z.eqb_refl.
Qed.


(** X17. [begin()] is undefined on every table whose first bucket is
    empty, whatever the other buckets hold: the constructor of the
    iterator increments an inner iterator that is at the end of the
    empty bucket. So it is on every table right after its construction
    with a capacity, and a range-based [for] over such a table is
    undefined. *)
Theorem begin_undefined_when_first_bucket_empty
    (rest : list (list KVP)) (count : Z) (p : positive) :
  begin (mkHashmap ([] :: rest) count) = Undefined
  ∧ range_for (mkHashmap ([] :: rest) count) = Some Undefined
  ∧ begin (Hashmap_capacity (Z.pos p) : Map) = Undefined.
Proof.
  assert (Hbegin : ∀ rest' count', begin (mkHashmap ([] :: rest') count' : Map) = Undefined)
    by done.
  split_and!.
  - apply Hbegin.
  - unfold range_for. by rewrite Hbegin.
  - unfold Hashmap_capacity.
    destruct (Pos2Nat.is_succ p) as [n Hn].
    rewrite Z2Nat.inj_pos, Hn. apply Hbegin.
Qed.

(** X18. A range-based [for] over the table visits the entries of
    [GetAll], in that order, and stops, when the first bucket is not
    empty; it visits nothing when there is no bucket; it is undefined
    when the first bucket is empty. *)
Theorem range_for_visits_GetAll (m : Map) :
  range_for m
  = Some (match m_Buckets m with
          | [] :: _ => Undefined
          | _ => Defined (GetAll m)
          end).
Proof.
  unfold range_for, GetAll, begin, end_, make_const_iterator.
  destruct (m_Buckets m) as [|bucket rest] eqn:Hb; [done|].
  destruct bucket as [|kvp bucket]; [done|].
  cbn [Nat.eqb length]. rewrite Nat.eqb_refl. simpl lookup. cbv iota beta.
  cbn [Nat.eqb length].
  change (S (length rest)) with (length ((kvp :: bucket) :: rest)).
  rewrite (visit_spec _ _ 0 0 (kvp :: bucket)); [done|done|simpl; lia|].
  simpl. rewrite drop_0. lia.
Qed.

(** X19. Growth is by doubling, and it comes before the scan for the
    key. On a well-formed table with no more entries than buckets, of
    fewer than 2^63 entries and at most half of [bucket_limit] buckets, no
    copy throwing, [Add] and [Assign] leave the number of buckets alone
    when there is room, and leave twice as many (one, if there was none)
    when the table is full, also when the key turns out to be there
    already. *)
Theorem Add_doubles_a_full_table (k : Tk) (v : Tv) (m : Map) :
  (∀ (k : Tk) (v : Tv), copy_throws k v = None) →
  well_formed m →
  size m ≤ capacity m →
  2 * Z.of_nat (length (GetAll m)) < SizeT.modulus →
  2 * capacity m ≤ bucket_limit →
  let grown :=
    if capacity m <=? size m then Z.max (2 * capacity m) 1 else capacity m in
  (∃ result m', Add k v m = Some (result, m') ∧ capacity m' = grown)
  ∧ (∃ m', Assign k v m = Some m' ∧ capacity m' = grown).
Proof.
  intros no_throw Hwf Hload Hlim Hreq grown.
  destruct (grow_if_full_load m no_throw Hwf Hload Hlim)
    as (m1 & Hgrow & _ & _ & Hsame & Hdouble).
  assert (Hc1 : capacity m1 = grown).
  { unfold grown, size.
    destruct (Z.leb_spec (capacity m) (m_Size m)) as [Hfull|Hroom].
    - by apply Hdouble.
    - by rewrite Hsame. }
  split.
  - unfold Add, Add_e. rewrite Hgrow. simpl.
    destruct (existsb _ _); simpl.
    + by eexists _, _.
    + rewrite no_throw. simpl. eexists _, _. split; [done|].
      unfold appended. by rewrite capacity_insert.
  - unfold Assign, Assign_e, Assign_with. rewrite Hgrow. simpl.
    destruct (assign_in_bucket _ _ _); simpl.
    + eexists. split; [done|]. unfold overwritten. by rewrite capacity_insert.
    + rewrite no_throw. simpl. eexists. split; [done|].
      unfold appended. by rewrite capacity_insert.
Qed.

(** X20. On a well-formed table of at most half of [bucket_limit]
    entries, no copy throwing, the overloads of [Assign] that take
    rvalue references leave the same table as the others. They move from
    the caller's value exactly when [Get] had a value for the key, that
    is when they overwrite an entry; an insertion copies it, since the
    constructor of [KeyValuePair] takes its arguments by reference to
    const. *)
Theorem Assign_move_copies_on_insertion (k : Tk) (v : Tv) (m : Map) :
  (∀ (k : Tk) (v : Tv), copy_throws k v = None) →
  well_formed m →
  2 * Z.of_nat (length (GetAll m)) ≤ bucket_limit →
  ∃ m', Assign k v m = Some m'
    ∧ Assign_move_e k v m
      = Some (m', if optional_ref.has_value (Get k m) then moved_from v else v,
              None).
Proof.
  intros no_throw Hwf Hmax.
  destruct (grow_if_full_Resize no_throw m Hwf Hmax)
    as (m1 & Hgrow & Hwf1 & Hc1 & _ & _ & _ & _ & Hv1).
  rewrite (Get_lookup k m), <- Hv1, lookup_hash_placed by (done || apply Hwf || apply Hwf1).
  unfold Assign, Assign_e, Assign_move_e, Assign_with. rewrite Hgrow. simpl.
  destruct (find _ _) as [old|] eqn:Hf; simpl.
  - apply (assign_in_bucket_split _ v) in Hf as (before & after & _ & _ & ->).
    by eexists.
  - apply (assign_in_bucket_None _ v) in Hf. rewrite Hf, no_throw. by eexists.
Qed.

(** X22. [Resize] catches only what is derived from [std::exception].
    On a well-formed table of at most half of [bucket_limit] entries, for
    a request of at most [bucket_limit] buckets: when the copy of an entry
    throws anything else, the copies before it not throwing, the
    exception leaves [Resize], and [Reserve] with it, and nothing is put
    back: the table holds the entries that were re-inserted before, and
    has lost the one that threw and all that came after it. *)
Theorem Resize_lets_other_exceptions_out
    (n : Z) (m : Map) (pre : list KVP) (bad : KVP) (post : list KVP) :
  well_formed m →
  Z.max n 1 ≤ bucket_limit →
  2 * Z.of_nat (length (GetAll m)) ≤ bucket_limit →
  GetAll m = pre ++ bad :: post →
  (∀ kvp, kvp ∈ pre → copy_throws (first kvp) (second kvp) = None) →
  copy_throws (first bad) (second bad) = Some other_exception →
  ∃ s, Resize n m = Some (s, Some other_exception)
    ∧ (size m < n → Reserve n m = Some (s, Some other_exception))
    ∧ size s = SizeT.wrap (Z.of_nat (length pre) + 1)
    ∧ (∀ kvp, kvp ∈ pre → Get (first kvp) s = Some (second kvp))
    ∧ (∀ kvp, kvp ∈ bad :: post → Get (first kvp) s = None).
Proof.
  intros [_ Hd _] Hreq Hmax Hall Hquiet Hbad. unfold distinct in Hd. rewrite Hall in Hd.
  assert (Hnd : NoDup (hash_of <$> pre ++ [bad])).
  { rewrite (app_assoc pre [bad] post : pre ++ bad :: post = _), fmap_app in Hd.
    by apply NoDup_app in Hd as [? _]. }
  assert (Hfew : 2 * Z.of_nat (length pre) ≤ bucket_limit).
  { rewrite Hall, length_app in Hmax. lia. }
  destruct (reinsert_until_throw n m pre bad post other_exception Hall Hfew Hnd Hquiet Hbad)
    as (s & Hr & Hsz & Hc & Hp & Hv).
  assert (HR : Resize n m = Some (s, Some other_exception)).
  { unfold Resize. rewrite Resize_fuel_allocates by done. by rewrite Hr. }
  exists s. split_and!; try done.
  - intros Hlt. unfold Reserve. unfold size in Hlt.
    by rewrite (proj2 (Z.ltb_lt _ _) Hlt).
  - intros kvp Hin. rewrite (Get_lookup _ s Hp), Hv.
    rewrite (find_NoDup _ _ kvp); [done| |done..].
    rewrite fmap_app in Hnd. by apply NoDup_app in Hnd as [? _].
  - intros kvp Hin. rewrite (Get_lookup _ s Hp), Hv.
    rewrite fmap_app in Hd. apply NoDup_app in Hd as (_ & Hdisj & _).
    assert (Hnone : find (hash_matches (GetHashcode (first kvp))) pre = None).
    { apply find_None_iff. intros Hpre. apply (Hdisj _ Hpre).
      by apply (list_elem_of_fmap_2 hash_of). }
    by rewrite Hnone.
Qed.

(** X23. [Keys()] and [Values()] are aligned: on a well-formed table the
    value at a position of [Values()] is what [Get] yields for the key
    at that position of [Keys()]. *)
Theorem Keys_and_Values_are_aligned (m : Map) (i : nat) (k : Tk) :
  well_formed m →
  Keys m !! i = Some k →
  is_Some (Values m !! i) ∧ Get k m = Values m !! i.
Proof.
  intros Hwf. unfold Keys, Values. rewrite !list_lookup_fmap.
  intros (kvp & Hi & ->)%fmap_Some. rewrite Hi. simpl. split; [by eexists|].
  rewrite (Get_lookup _ m) by apply Hwf.
  rewrite (lookup_hash_distinct m kvp); [done|apply Hwf|].
  by eapply list_elem_of_lookup_2.
Qed.

(** X24. [Reserve] makes room: after a request above the count and of
    at most [bucket_limit] buckets, on a well-formed table of fewer than
    2^64 entries and no copy throwing, the table has that many buckets,
    and the next [Add] or [Assign] does not resize. *)
Theorem Reserve_makes_room (n : Z) (k : Tk) (v : Tv) (m : Map) :
  (∀ (k : Tk) (v : Tv), copy_throws k v = None) →
  well_formed m →
  Z.of_nat (length (GetAll m)) < SizeT.modulus →
  size m < n →
  n ≤ bucket_limit →
  ∃ m1, Reserve n m = Some (m1, None)
    ∧ capacity m1 = n
    ∧ (∃ result m2, Add k v m1 = Some (result, m2) ∧ capacity m2 = n)
    ∧ (∃ m2, Assign k v m1 = Some m2 ∧ capacity m2 = n).
Proof.
  intros no_throw Hwf Hlim Hlt Hreq. unfold Reserve, size in *.
  rewrite (proj2 (Z.ltb_lt _ _) Hlt).
  assert (Hsz : m_Size m = Z.of_nat (length (GetAll m))).
  { destruct Hwf as [_ _ ->]. apply wrap_small. lia. }
  assert (Hreq1 : Z.max n 1 ≤ bucket_limit) by lia.
  destruct (Resize_exact n m no_throw Hreq1 ltac:(lia))
    as (m1 & -> & Hwf1 & Hc1 & Hv1).
  rewrite Z.max_l in Hc1 by lia.
  assert (Hroom : m_Size m1 < capacity m1).
  { assert (length (GetAll m1) = length (GetAll m)) as Hlen.
    { apply same_view_length; [apply Hwf1|apply Hwf|]. intros hash.
      by rewrite Hv1, (foldl_absorb_distinct (GetAll m)) by apply Hwf. }
    destruct Hwf1 as [_ _ ->]. rewrite Hlen, <- Hsz, wrap_small; lia. }
  pose proof (grow_if_full_room Resize m1 Hroom) as Hgrow.
  exists m1. split_and!; try done.
  - unfold Add, Add_e. rewrite Hgrow. simpl.
    destruct (existsb _ _); simpl.
    + by eexists _, _.
    + rewrite no_throw. simpl. eexists _, _. split; [done|].
      unfold appended. by rewrite capacity_insert.
  - unfold Assign, Assign_e, Assign_with. rewrite Hgrow. simpl.
    destruct (assign_in_bucket _ _ _); simpl.
    + eexists. split; [done|]. unfold overwritten. by rewrite capacity_insert.
    + rewrite no_throw. simpl. eexists. split; [done|].
      unfold appended. by rewrite capacity_insert.
Qed.

(** X25. What [Trim] hides from [Get], the next [Resize] brings back.
    [Trim] erases a bucket without re-addressing the entries, so [Get]
    can miss entries that are still in the table. On a table that was
    well formed before the [Trim], with at most half of [bucket_limit]
    entries, and no copy throwing, a [Reserve] above the count and of at
    most [bucket_limit] buckets on the trimmed table re-addresses all of
    them: the table is well formed again and [Get] answers as before the
    [Trim]. *)
Theorem Reserve_repairs_after_Trim (n : Z) (m : Map) :
  (∀ (k : Tk) (v : Tv), copy_throws k v = None) →
  well_formed m →
  2 * Z.of_nat (length (GetAll m)) ≤ bucket_limit →
  size m < n →
  n ≤ bucket_limit →
  ∃ m', Reserve n (Trim m) = Some (m', None)
    ∧ well_formed m'
    ∧ size m' = size m
    ∧ ∀ k, Get k m' = Get k m.
Proof.
  intros no_throw Hwf Hmax Hlt Hreq.
  pose proof bucket_limit_bounds as [Hmax1 _].
  destruct (Trim_keeps_entries m) as (HG & Hs & _).
  unfold Reserve. unfold size in Hs, Hlt. rewrite Hs, (proj2 (Z.ltb_lt _ _) Hlt).
  assert (Hreq1 : Z.max n 1 ≤ bucket_limit) by lia.
  assert (Hmax' : 2 * Z.of_nat (length (GetAll (Trim m))) ≤ bucket_limit)
    by (by rewrite HG).
  destruct (Resize_fuel_spec no_throw (S (length (GetAll (Trim m)))) n (Trim m)
              ltac:(lia) Hreq1 Hmax')
    as (m' & HR & Hwf' & _ & _ & Hv' & _).
  assert (Hv : ∀ hash, lookup_hash hash m' = lookup_hash hash m).
  { intros hash. rewrite Hv', HG. apply foldl_absorb_distinct, Hwf. }
  exists m'. split_and!; try done.
  - destruct Hwf' as [_ Hd' ->], Hwf as [_ Hd ->]. unfold size. f_equal. f_equal.
    apply same_view_length; [done..|]. intros hash. by rewrite Hv.
  - intros k. by rewrite (Get_lookup k m'), Hv, (Get_lookup k m) by (apply Hwf || apply Hwf').
Qed.

End Interface.

(** ** Instances of the properties that have hypotheses *)

Lemma Get_finds_what_is_stored_witness :
  well_formed one_two_three
  ∧ (∀ v, Get 1 one_two_three = Some v
          ↔ ∃ kvp, kvp ∈ GetAll one_two_three
                   ∧ GetHashcode (first kvp) = GetHashcode 1 ∧ second kvp = v)
  ∧ (Get 1 one_two_three = None
     ↔ GetHashcode 1 ∉ GetHashcode <$> Keys one_two_three).
Proof.
  assert (H1 : well_formed one_two_three)
    by (apply well_formed_b_sound; vm_compute; reflexivity).
  exact (conj H1 (Get_finds_what_is_stored 1 one_two_three H1)).
Defined.

Lemma ContainsKey_Get_Return_agree_witness :
  1 ≤ capacity one_two_three
  ∧ ContainsKey 1 one_two_three
    = Defined (optional_ref.has_value (Get 1 one_two_three))
  ∧ Return 1 one_two_three = optional_ref.value (Get 1 one_two_three)
  ∧ subscript 1 one_two_three = optional_ref.value (Get 1 one_two_three)
  ∧ (ContainsKey 1 one_two_three = Defined false
     ↔ Return 1 one_two_three = inr std_exception).
Proof.
  assert (H1 : 1 ≤ capacity one_two_three) by (vm_compute; discriminate).
  exact (conj H1 (ContainsKey_Get_Return_agree 1 one_two_three H1)).
Defined.

Lemma keys_with_one_hash_are_one_key_witness :
  let m : Hashmap (Z * Z) string := Hashmap_capacity 1 in
  let m1 : Hashmap (Z * Z) string := mkHashmap [[mkKeyValuePair (1, 0) "a"]] 1 in
  (∀ (k : Z * Z) (v : string), copy_throws (Element := point_element) k v = None)
  ∧ well_formed (StdHash0 := point_hash) m
  ∧ 2 * Z.of_nat (length (GetAll m)) + 2 ≤ bucket_limit
  ∧ point_hash (1, 0) = point_hash (1, 1)
  ∧ Add (StdHash0 := point_hash) (Element0 := point_element) (1, 0) "a" m
    = Some (true, m1)
  ∧ Get (StdHash0 := point_hash) (1, 1) m1 = Some "a"
  ∧ ContainsKey (StdHash0 := point_hash) (1, 1) m1 = Defined true
  ∧ (∃ m2, Add (StdHash0 := point_hash) (Element0 := point_element) (1, 1) "b" m1
           = Some (false, m2)
           ∧ Get (StdHash0 := point_hash) (1, 0) m2 = Some "a"
           ∧ Get (StdHash0 := point_hash) (1, 1) m2 = Some "a")
  ∧ (∃ m3, Assign (StdHash0 := point_hash) (Element0 := point_element) (1, 1) "b" m1
           = Some m3
           ∧ Get (StdHash0 := point_hash) (1, 0) m3 = Some "b"
           ∧ lookup_hash (StdHash0 := point_hash) (point_hash (1, 1)) m3
             = Some (mkKeyValuePair (1, 0) "b")).
Proof.
  intros m m1.
  assert (H1 : ∀ (k : Z * Z) (v : string),
            copy_throws (Element := point_element) k v = None) by reflexivity.
  assert (H2 : well_formed (StdHash0 := point_hash) m)
    by (apply well_formed_b_sound; vm_compute; reflexivity).
  assert (H3 : 2 * Z.of_nat (length (GetAll m)) + 2 ≤ bucket_limit)
    by (vm_compute; discriminate).
  assert (H4 : point_hash (1, 0) = point_hash (1, 1)) by reflexivity.
  assert (H5 : Add (StdHash0 := point_hash) (Element0 := point_element) (1, 0) "a" m
               = Some (true, m1)) by reflexivity.
  exact (conj H1 (conj H2 (conj H3 (conj H4 (conj H5
           (keys_with_one_hash_are_one_key (StdHash0 := point_hash)
              (Element0 := point_element) (1, 0) (1, 1) "a" "b" m m1
              H1 H2 H3 H4 H5)))))).
Defined.

Lemma Add_returns_whether_absent_witness :
  (∀ (k : Z) (v : string), copy_throws k v = None)
  ∧ well_formed one_two_three
  ∧ 2 * Z.of_nat (length (GetAll one_two_three)) ≤ bucket_limit
  ∧ ∃ m', Add 4 "Four" one_two_three
          = Some (negb (optional_ref.has_value (Get 4 one_two_three)), m')
    ∧ well_formed m'
    ∧ Get 4 m' = Some (optional_ref.value_or (Get 4 one_two_three) "Four")
    ∧ (∀ k', GetHashcode k' ≠ GetHashcode 4 → Get k' m' = Get k' one_two_three)
    ∧ size m' = (if optional_ref.has_value (Get 4 one_two_three)
                 then size one_two_three
                 else SizeT.wrap (size one_two_three + 1)).
Proof.
  assert (H1 : ∀ (k : Z) (v : string), copy_throws k v = None) by reflexivity.
  assert (H2 : well_formed one_two_three)
    by (apply well_formed_b_sound; vm_compute; reflexivity).
  assert (H3 : 2 * Z.of_nat (length (GetAll one_two_three)) ≤ bucket_limit)
    by (vm_compute; discriminate).
  exact (conj H1 (conj H2 (conj H3
           (Add_returns_whether_absent 4 "Four" one_two_three H1 H2 H3)))).
Defined.

Lemma Assign_leaves_other_keys_witness :
  (∀ (k : Z) (v : string), copy_throws k v = None)
  ∧ well_formed one_two_three
  ∧ 2 * Z.of_nat (length (GetAll one_two_three)) ≤ bucket_limit
  ∧ ∃ m', Assign 1 "New One" one_two_three = Some m'
    ∧ well_formed m'
    ∧ Get 1 m' = Some "New One"
    ∧ (∀ k', GetHashcode k' ≠ GetHashcode 1 → Get k' m' = Get k' one_two_three)
    ∧ lookup_hash (GetHashcode 1) m'
      = Some (mkKeyValuePair
                (match lookup_hash (GetHashcode 1) one_two_three with
                 | Some old => first old
                 | None => 1
                 end) "New One")
    ∧ size m' = (if optional_ref.has_value (Get 1 one_two_three)
                 then size one_two_three
                 else SizeT.wrap (size one_two_three + 1)).
Proof.
  assert (H1 : ∀ (k : Z) (v : string), copy_throws k v = None) by reflexivity.
  assert (H2 : well_formed one_two_three)
    by (apply well_formed_b_sound; vm_compute; reflexivity).
  assert (H3 : 2 * Z.of_nat (length (GetAll one_two_three)) ≤ bucket_limit)
    by (vm_compute; discriminate).
  exact (conj H1 (conj H2 (conj H3
           (Assign_leaves_other_keys 1 "New One" one_two_three H1 H2 H3)))).
Defined.

Lemma Remove_leaves_other_keys_witness :
  well_formed one_two_three
  ∧ 1 ≤ capacity one_two_three
  ∧ ∃ m', Remove 1 one_two_three
          = Defined (optional_ref.has_value (Get 1 one_two_three), m')
    ∧ well_formed m'
    ∧ Get 1 m' = None
    ∧ (∀ k', GetHashcode k' ≠ GetHashcode 1 → Get k' m' = Get k' one_two_three)
    ∧ capacity m' = capacity one_two_three.
Proof.
  assert (H1 : well_formed one_two_three)
    by (apply well_formed_b_sound; vm_compute; reflexivity).
  assert (H2 : 1 ≤ capacity one_two_three) by (vm_compute; discriminate).
  exact (conj H1 (conj H2 (Remove_leaves_other_keys 1 one_two_three H1 H2))).
Defined.

Lemma Add_then_Remove_restores_witness :
  (∀ (k : Z) (v : string), copy_throws k v = None)
  ∧ well_formed one_two_three
  ∧ 2 * Z.of_nat (length (GetAll one_two_three)) ≤ bucket_limit
  ∧ Get 4 one_two_three = None
  ∧ ∃ m1 m2, Add 4 "Four" one_two_three = Some (true, m1)
    ∧ Remove 4 m1 = Defined (true, m2)
    ∧ well_formed m2
    ∧ size m2 = size one_two_three
    ∧ ∀ k', Get k' m2 = Get k' one_two_three.
Proof.
  assert (H1 : ∀ (k : Z) (v : string), copy_throws k v = None) by reflexivity.
  assert (H2 : well_formed one_two_three)
    by (apply well_formed_b_sound; vm_compute; reflexivity).
  assert (H3 : 2 * Z.of_nat (length (GetAll one_two_three)) ≤ bucket_limit)
    by (vm_compute; discriminate).
  assert (H4 : Get 4 one_two_three = None) by reflexivity.
  exact (conj H1 (conj H2 (conj H3 (conj H4
           (Add_then_Remove_restores 4 "Four" one_two_three H1 H2 H3 H4))))).
Defined.

Lemma size_counts_the_entries_witness :
  (∀ (k : Z) (v : string), copy_throws k v = None)
  ∧ well_formed one_two_three
  ∧ 2 * Z.of_nat (length (GetAll one_two_three)) ≤ bucket_limit
  ∧ (size one_two_three = Z.of_nat (length (GetAll one_two_three))
     ∧ length (Keys one_two_three) = length (GetAll one_two_three)
     ∧ length (Values one_two_three) = length (GetAll one_two_three)
     ∧ NoDup (GetHashcode <$> Keys one_two_three)
     ∧ NoDup (Keys one_two_three)
     ∧ (empty one_two_three = true ↔ GetAll one_two_three = []))
  ∧ well_formed (Hashmap_capacity 8 : Hashmap Z string)
  ∧ well_formed (Clear one_two_three)
  ∧ (∃ result m', Add 4 "Four" one_two_three = Some (result, m') ∧ well_formed m')
  ∧ (∃ m', Assign 4 "Four" one_two_three = Some m' ∧ well_formed m')
  ∧ (∀ result m', Remove 4 one_two_three = Defined (result, m') → well_formed m')
  ∧ (8 ≤ bucket_limit →
     ∃ m', Reserve 8 one_two_three = Some (m', None) ∧ well_formed m').
Proof.
  assert (H1 : ∀ (k : Z) (v : string), copy_throws k v = None) by reflexivity.
  assert (H2 : well_formed one_two_three)
    by (apply well_formed_b_sound; vm_compute; reflexivity).
  assert (H3 : 2 * Z.of_nat (length (GetAll one_two_three)) ≤ bucket_limit)
    by (vm_compute; discriminate).
  exact (conj H1 (conj H2 (conj H3
           (size_counts_the_entries 4 "Four" 8 one_two_three H1 H2 H3)))).
Defined.


Lemma Reserve_sets_capacity_witness :
  (∀ (k : Z) (v : string), copy_throws k v = None)
  ∧ well_formed one_two_three
  ∧ Z.of_nat (length (GetAll one_two_three)) < SizeT.modulus
  ∧ (8 ≤ size one_two_three → Reserve 8 one_two_three = Some (one_two_three, None))
  ∧ (size one_two_three < 8 ≤ bucket_limit →
     ∃ m', Reserve 8 one_two_three = Some (m', None)
       ∧ well_formed m'
       ∧ capacity m' = 8
       ∧ size m' = size one_two_three
       ∧ ∀ k, Get k m' = Get k one_two_three)
  ∧ (size one_two_three < 8 → bucket_limit < 8 →
     Reserve 8 one_two_three = Some (mkHashmap (m_Buckets one_two_three) 0, None)).
Proof.
  assert (H1 : ∀ (k : Z) (v : string), copy_throws k v = None) by reflexivity.
  assert (H2 : well_formed one_two_three)
    by (apply well_formed_b_sound; vm_compute; reflexivity).
  assert (H3 : Z.of_nat (length (GetAll one_two_three)) < SizeT.modulus)
    by (vm_compute; reflexivity).
  exact (conj H1 (conj H2 (conj H3 (Reserve_sets_capacity 8 one_two_three H1 H2 H3)))).
Defined.

Lemma Hashmap_items_never_resizes_witness :
  let items := [entry 1 "One"; entry 2 "Two"; entry 3 "Three"] in
  (∀ (k : Z) (v : string), copy_throws k v = None)
  ∧ (0 < 1 ∨ Z.of_nat (length items) ≤ 0)
  ∧ Z.max (Z.of_nat (length items)) 0 ≤ bucket_limit
  ∧ ∃ m, Hashmap_items items 0 = Some m
    ∧ well_formed m
    ∧ capacity m = (if 0 <? 1 then Z.max (Z.of_nat (length items)) 1 else 0)
    ∧ (NoDup ((λ kvp, GetHashcode (first kvp)) <$> items) →
       size m = SizeT.wrap (Z.of_nat (length items))
       ∧ ∀ kvp, kvp ∈ items → Get (first kvp) m = Some (second kvp)).
Proof.
  intros items.
  assert (H1 : ∀ (k : Z) (v : string), copy_throws k v = None) by reflexivity.
  assert (H2 : 0 < 1 ∨ Z.of_nat (length items) ≤ 0) by (left; lia).
  assert (H3 : Z.max (Z.of_nat (length items)) 0 ≤ bucket_limit)
    by (vm_compute; discriminate).
  exact (conj H1 (conj H2 (conj H3 (Hashmap_items_never_resizes items 0 H1 H2 H3)))).
Defined.

Lemma rebuilt_from_GetAll_witness :
  (∀ (k : Z) (v : string), copy_throws k v = None)
  ∧ well_formed one_two_three
  ∧ Z.of_nat (length (GetAll one_two_three)) ≤ bucket_limit
  ∧ ∃ m', Hashmap_items (GetAll one_two_three) 0 = Some m'
    ∧ well_formed m'
    ∧ capacity m' = Z.max (Z.of_nat (length (GetAll one_two_three))) 1
    ∧ size m' = size one_two_three
    ∧ ∀ k, Get k m' = Get k one_two_three.
Proof.
  assert (H1 : ∀ (k : Z) (v : string), copy_throws k v = None) by reflexivity.
  assert (H2 : well_formed one_two_three)
    by (apply well_formed_b_sound; vm_compute; reflexivity).
  assert (H3 : Z.of_nat (length (GetAll one_two_three)) ≤ bucket_limit)
    by (vm_compute; discriminate).
  exact (conj H1 (conj H2 (conj H3 (rebuilt_from_GetAll one_two_three H1 H2 H3)))).
Defined.

Lemma Add_reports_success_when_copy_throws_witness :
  let m : Hashmap Z string := Hashmap_capacity 4 in
  let m' : Hashmap Z string := mkHashmap (m_Buckets m) (SizeT.wrap (size m + 1)) in
  0 ≤ size m < capacity m
  ∧ Get 2 m = None
  ∧ copy_throws (Element := throwing_element) 2 "Two" = Some std_exception
  ∧ Add_e (Element0 := throwing_element) 2 "Two" m = Some (true, m', Some std_exception)
  ∧ Add (Element0 := throwing_element) 2 "Two" m = Some (true, m')
  ∧ Assign_e (Element0 := throwing_element) 2 "Two" m = Some (m', Some std_exception)
  ∧ Assign (Element0 := throwing_element) 2 "Two" m = Some m'
  ∧ GetAll m' = GetAll m
  ∧ Get 2 m' = None.
Proof.
  intros m m'.
  assert (H1 : 0 ≤ size m < capacity m) by (vm_compute; split; discriminate || reflexivity).
  assert (H2 : Get 2 m = None) by reflexivity.
  assert (H3 : copy_throws (Element := throwing_element) 2 "Two" = Some std_exception)
    by reflexivity.
  exact (conj H1 (conj H2 (conj H3
           (Add_reports_success_when_copy_throws (Element0 := throwing_element)
              2 "Two" m std_exception H1 H2 H3)))).
Defined.

Lemma Add_after_Clear_witness :
  let single : Hashmap Z string := mkHashmap [[mkKeyValuePair 7 "Seven"]] 1 in
  copy_throws 7 "Seven" = None
  ∧ size (Clear one_two_three) = 0
  ∧ empty (Clear one_two_three) = true
  ∧ GetAll (Clear one_two_three) = []
  ∧ Get 7 (Clear one_two_three) = None
  ∧ Add 7 "Seven" (Clear one_two_three) = Some (true, single)
  ∧ Assign 7 "Seven" (Clear one_two_three) = Some single
  ∧ Get 7 single = Some "Seven"
  ∧ ContainsKey 7 single = Defined true.
Proof.
  intros single.
  assert (H1 : copy_throws 7 "Seven" = None) by reflexivity.
  exact (conj H1 (Add_after_Clear 7 "Seven" one_two_three H1)).
Defined.

Lemma Add_doubles_a_full_table_witness :
  let grown :=
    if capacity full_table <=? size full_table
    then Z.max (2 * capacity full_table) 1 else capacity full_table in
  (∀ (k : Z) (v : string), copy_throws k v = None)
  ∧ well_formed full_table
  ∧ size full_table ≤ capacity full_table
  ∧ 2 * Z.of_nat (length (GetAll full_table)) < SizeT.modulus
  ∧ 2 * capacity full_table ≤ bucket_limit
  ∧ (∃ result m', Add 1 "Duplicate" full_table = Some (result, m')
                  ∧ capacity m' = grown)
  ∧ (∃ m', Assign 1 "Duplicate" full_table = Some m' ∧ capacity m' = grown).
Proof.
  intros grown.
  assert (H1 : ∀ (k : Z) (v : string), copy_throws k v = None) by reflexivity.
  assert (H2 : well_formed full_table)
    by (apply well_formed_b_sound; vm_compute; reflexivity).
  assert (H3 : size full_table ≤ capacity full_table) by (vm_compute; discriminate).
  assert (H4 : 2 * Z.of_nat (length (GetAll full_table)) < SizeT.modulus)
    by (vm_compute; reflexivity).
  assert (H5 : 2 * capacity full_table ≤ bucket_limit)
    by (vm_compute; discriminate).
  exact (conj H1 (conj H2 (conj H3 (conj H4 (conj H5
           (Add_doubles_a_full_table 1 "Duplicate" full_table H1 H2 H3 H4 H5)))))).
Defined.

Lemma Assign_move_copies_on_insertion_witness :
  (∀ (k : Z) (v : string), copy_throws k v = None)
  ∧ well_formed one_two_three
  ∧ 2 * Z.of_nat (length (GetAll one_two_three)) ≤ bucket_limit
  ∧ ∃ m', Assign 4 "Four" one_two_three = Some m'
    ∧ Assign_move_e 4 "Four" one_two_three
      = Some (m', if optional_ref.has_value (Get 4 one_two_three)
                  then moved_from "Four" else "Four",
              None).
Proof.
  assert (H1 : ∀ (k : Z) (v : string), copy_throws k v = None) by reflexivity.
  assert (H2 : well_formed one_two_three)
    by (apply well_formed_b_sound; vm_compute; reflexivity).
  assert (H3 : 2 * Z.of_nat (length (GetAll one_two_three)) ≤ bucket_limit)
    by (vm_compute; discriminate).
  exact (conj H1 (conj H2 (conj H3
           (Assign_move_copies_on_insertion 4 "Four" one_two_three H1 H2 H3)))).
Defined.

Lemma Resize_rollback_count_lost_witness :
  let pre := [entry 1 "One"] in
  let bad := entry 2 "Two" in
  let post := [entry 3 "Three"] in
  well_formed one_two_three
  ∧ Z.max 8 1 ≤ bucket_limit
  ∧ 2 * Z.of_nat (length (GetAll one_two_three)) ≤ bucket_limit
  ∧ GetAll one_two_three = pre ++ bad :: post
  ∧ (∀ kvp, kvp ∈ pre →
       copy_throws (Element := throwing_element) (first kvp) (second kvp) = None)
  ∧ copy_throws (Element := throwing_element) (first bad) (second bad)
    = Some std_exception
  ∧ ∃ m', Resize (Element0 := throwing_element) 8 one_two_three = Some (m', None)
    ∧ m_Buckets m' = m_Buckets one_two_three
    ∧ size m' = size one_two_three - Z.of_nat (length post).
Proof.
  intros pre bad post.
  assert (H1 : well_formed one_two_three)
    by (apply well_formed_b_sound; vm_compute; reflexivity).
  assert (H2 : Z.max 8 1 ≤ bucket_limit) by (vm_compute; discriminate).
  assert (H3 : 2 * Z.of_nat (length (GetAll one_two_three)) ≤ bucket_limit)
    by (vm_compute; discriminate).
  assert (H4 : GetAll one_two_three = pre ++ bad :: post) by reflexivity.
  assert (H5 : ∀ kvp, kvp ∈ pre →
            copy_throws (Element := throwing_element) (first kvp) (second kvp) = None).
  { intros kvp Hin. apply list_elem_of_singleton in Hin. by subst kvp. }
  assert (H6 : copy_throws (Element := throwing_element) (first bad) (second bad)
               = Some std_exception) by reflexivity.
  exact (conj H1 (conj H2 (conj H3 (conj H4 (conj H5 (conj H6
           (Resize_rollback_count_lost (Element0 := throwing_element)
              8 one_two_three pre bad post H1 H2 H3 H4 H5 H6))))))).
Defined.

Lemma Resize_lets_other_exceptions_out_witness :
  let pre := [entry 1 "One"] in
  let bad := entry 2 "Two" in
  let post := [entry 3 "Three"] in
  well_formed one_two_three
  ∧ Z.max 8 1 ≤ bucket_limit
  ∧ 2 * Z.of_nat (length (GetAll one_two_three)) ≤ bucket_limit
  ∧ GetAll one_two_three = pre ++ bad :: post
  ∧ (∀ kvp, kvp ∈ pre →
       copy_throws (Element := throwing_other_element) (first kvp) (second kvp) = None)
  ∧ copy_throws (Element := throwing_other_element) (first bad) (second bad)
    = Some other_exception
  ∧ ∃ s, Resize (Element0 := throwing_other_element) 8 one_two_three
         = Some (s, Some other_exception)
    ∧ (size one_two_three < 8 →
       Reserve (Element0 := throwing_other_element) 8 one_two_three
       = Some (s, Some other_exception))
    ∧ size s = SizeT.wrap (Z.of_nat (length pre) + 1)
    ∧ (∀ kvp, kvp ∈ pre → Get (first kvp) s = Some (second kvp))
    ∧ (∀ kvp, kvp ∈ bad :: post → Get (first kvp) s = None).
Proof.
  intros pre bad post.
  assert (H1 : well_formed one_two_three)
    by (apply well_formed_b_sound; vm_compute; reflexivity).
  assert (H2 : Z.max 8 1 ≤ bucket_limit) by (vm_compute; discriminate).
  assert (H3 : 2 * Z.of_nat (length (GetAll one_two_three)) ≤ bucket_limit)
    by (vm_compute; discriminate).
  assert (H4 : GetAll one_two_three = pre ++ bad :: post) by reflexivity.
  assert (H5 : ∀ kvp, kvp ∈ pre →
            copy_throws (Element := throwing_other_element) (first kvp) (second kvp)
            = None).
  { intros kvp Hin. apply list_elem_of_singleton in Hin. by subst kvp. }
  assert (H6 : copy_throws (Element := throwing_other_element) (first bad) (second bad)
               = Some other_exception) by reflexivity.
  exact (conj H1 (conj H2 (conj H3 (conj H4 (conj H5 (conj H6
           (Resize_lets_other_exceptions_out (Element0 := throwing_other_element)
              8 one_two_three pre bad post H1 H2 H3 H4 H5 H6))))))).
Defined.

Lemma Keys_and_Values_are_aligned_witness :
  well_formed one_two_three
  ∧ Keys one_two_three !! 1%nat = Some 2
  ∧ is_Some (Values one_two_three !! 1%nat)
  ∧ Get 2 one_two_three = Values one_two_three !! 1%nat.
Proof.
  assert (H1 : well_formed one_two_three)
    by (apply well_formed_b_sound; vm_compute; reflexivity).
  assert (H2 : Keys one_two_three !! 1%nat = Some 2) by reflexivity.
  exact (conj H1 (conj H2 (Keys_and_Values_are_aligned one_two_three 1 2 H1 H2))).
Defined.

Lemma Reserve_makes_room_witness :
  (∀ (k : Z) (v : string), copy_throws k v = None)
  ∧ well_formed one_two_three
  ∧ Z.of_nat (length (GetAll one_two_three)) < SizeT.modulus
  ∧ size one_two_three < 8
  ∧ 8 ≤ bucket_limit
  ∧ ∃ m1, Reserve 8 one_two_three = Some (m1, None)
    ∧ capacity m1 = 8
    ∧ (∃ result m2, Add 4 "Four" m1 = Some (result, m2) ∧ capacity m2 = 8)
    ∧ (∃ m2, Assign 4 "Four" m1 = Some m2 ∧ capacity m2 = 8).
Proof.
  assert (H1 : ∀ (k : Z) (v : string), copy_throws k v = None) by reflexivity.
  assert (H2 : well_formed one_two_three)
    by (apply well_formed_b_sound; vm_compute; reflexivity).
  assert (H3 : Z.of_nat (length (GetAll one_two_three)) < SizeT.modulus)
    by (vm_compute; reflexivity).
  assert (H4 : size one_two_three < 8) by (vm_compute; reflexivity).
  assert (H5 : 8 ≤ bucket_limit) by (vm_compute; discriminate).
  exact (conj H1 (conj H2 (conj H3 (conj H4 (conj H5
           (Reserve_makes_room 8 4 "Four" one_two_three H1 H2 H3 H4 H5)))))).
Defined.

Lemma Reserve_repairs_after_Trim_witness :
  let m : Hashmap Z string := mkHashmap [[]; [entry 5 "Five"]; []; []] 1 in
  (∀ (k : Z) (v : string), copy_throws k v = None)
  ∧ well_formed m
  ∧ 2 * Z.of_nat (length (GetAll m)) ≤ bucket_limit
  ∧ size m < 2
  ∧ 2 ≤ bucket_limit
  ∧ ∃ m', Reserve 2 (Trim m) = Some (m', None)
    ∧ well_formed m'
    ∧ size m' = size m
    ∧ ∀ k, Get k m' = Get k m.
Proof.
  intros m.
  assert (H1 : ∀ (k : Z) (v : string), copy_throws k v = None) by reflexivity.
  assert (H2 : well_formed m)
    by (apply well_formed_b_sound; vm_compute; reflexivity).
  assert (H3 : 2 * Z.of_nat (length (GetAll m)) ≤ bucket_limit)
    by (vm_compute; discriminate).
  assert (H4 : size m < 2) by (vm_compute; reflexivity).
  assert (H5 : 2 ≤ bucket_limit) by (vm_compute; discriminate).
  exact (conj H1 (conj H2 (conj H3 (conj H4 (conj H5
           (Reserve_repairs_after_Trim 2 m H1 H2 H3 H4 H5)))))).
Defined.
